(** * Ticket classification and routing: the batch-labeling pipeline

    A shallow embedding of [src/utils.py], [src/schemas.py],
    [src/label_batch.py] and [src/build_demo_examples.py], and the
    properties of the batcher, the text normaliser, the labeling
    orchestrator and the demo-example curator.

    Python integers are [Z]; a [dict] is a [gmap], a [set] a [gset];
    a pandas DataFrame is a list of named columns of cells; an exception
    is a value of [exn] carried in the left injection of a sum. *)

From Stdlib Require Import Ascii String.
From stdpp Require Import gmap strings list sorting pretty.

Set Warnings "-register-all,-clear-no-such-hyp".

Open Scope Z_scope.

(** ** Exceptions *)

Inductive value_error :=
  | RangeStepZero                       (* range() arg 3 must not be zero *)
  | InvalidLiteralForInt                (* int(...) / astype(int) on a cell that is no integer *)
  | SampleMissingColumns
  | PredictionsMissingColumns
  | NeedAtLeastJoinedRows (need found : Z).

Inductive exn :=
  | RuntimeError
  | FileNotFoundError (path : string)
  | KeyError (key : string)
  | AttributeError
  | IndexError
  | ValueError (why : value_error)
  | ValidationError.

Definition result (A : Type) : Type := exn + A.

Global Instance value_error_eq_dec : EqDecision value_error.
Proof. solve_decision. Defined.
Global Instance exn_eq_dec : EqDecision exn.
Proof. solve_decision. Defined.

(** ** Python built-ins used by the sources *)

Module Py.

(** [range(start, stop, step)] as CPython lays it out: a length and the
    items [start + i * step]; a zero step raises [ValueError]. *)
Definition range_length (start stop step : Z) : Z :=
  if decide (0 < step) then
    if decide (start < stop) then (stop - start - 1) `div` step + 1 else 0
  else
    if decide (stop < start) then (start - stop - 1) `div` (- step) + 1 else 0.

Definition range (start stop step : Z) : result (list Z) :=
  if decide (step = 0) then inl (ValueError RangeStepZero)
  else inr ((λ i : nat, start + Z.of_nat i * step)
              <$> seq 0 (Z.to_nat (range_length start stop step))).

(** A slice bound: negative bounds count from the end, both are clamped. *)
Definition slice_bound (len i : Z) : Z :=
  if decide (i < 0) then Z.max 0 (i + len) else Z.min i len.

(** [l[lo:hi]] (step 1). *)
Definition slice {A} (l : list A) (lo hi : Z) : list A :=
  let len := Z.of_nat (length l) in
  let lo' := slice_bound len lo in
  let hi' := slice_bound len hi in
  take (Z.to_nat (hi' - lo')) (drop (Z.to_nat lo') l).

(** [str.isspace] on the ASCII range; strings are ASCII text here. *)
Definition isspace (c : Ascii.ascii) : bool :=
  let n := Ascii.nat_of_ascii c in
  bool_decide ((9 ≤ n ≤ 13)%nat ∨ (28 ≤ n ≤ 32)%nat).

Fixpoint lstrip (s : string) : string :=
  match s with
  | EmptyString => EmptyString
  | String c s' => if isspace c then lstrip s' else s
  end.

(** [s.strip()] *)
Definition strip (s : string) : string :=
  String.rev (lstrip (String.rev (lstrip s))).

(** [sorted(l)] on strings. The keys sorted in the sources are pairwise
    distinct, so the result does not depend on the algorithm. *)
Definition sorted (l : list string) : list string := merge_sort String.le l.

End Py.

(** ** [utils.chunked] *)

(** The generator is consumed whole ([list(chunked(...))] in
    [label_batch.main]); the model returns everything it yields, or the
    exception its first step raises. *)
Definition chunked {A} (seq : list A) (n : Z) : result (list (list A)) :=
  match Py.range 0 (Z.of_nat (length seq)) n with
  | inl e => inl e
  | inr starts => inr ((λ i, Py.slice seq i (i + n)) <$> starts)
  end.


(** ** DataFrames *)

(** A cell of a table read from CSV: missing ([NaN]), text, or an integer.
    Cells holding other floating-point numbers are outside the model. *)
Inductive cell :=
  | CNa
  | CStr (s : string)
  | CInt (z : Z).

Global Instance cell_eq_dec : EqDecision cell.
Proof. solve_decision. Defined.
Global Instance cell_inhabited : Inhabited cell := populate CNa.

(** A DataFrame: its columns in order, each a label and the cells of the
    rows. [pd.read_csv] gives pairwise distinct labels and columns of one
    length. *)
Abbreviation frame := (list (string * list cell)).

Module Pd.

(** [str(x)] of a cell *)
Definition to_str (c : cell) : string :=
  match c with
  | CNa => "nan"
  | CStr s => s
  | CInt z => pretty z
  end.

(** [.fillna(v)] on one cell *)
Definition fillna (v : string) (c : cell) : cell :=
  match c with CNa => CStr v | _ => c end.

(** [.dropna()] on a column *)
Definition dropna (col : list cell) : list cell := filter (λ c, c ≠ CNa) col.

(** [.astype(str)] on one cell *)
Definition astype_str (c : cell) : cell := CStr (to_str c).

(** [.str.strip()] on one cell: a cell that is not text becomes NaN *)
Definition str_strip (c : cell) : cell :=
  match c with CStr s => CStr (Py.strip s) | _ => CNa end.

(** [.fillna("").astype(str).str.strip()] on a column *)
Definition normalize_text (col : list cell) : list cell :=
  (λ c, str_strip (astype_str (fillna "" c))) <$> col.

(** A decimal integer literal with an optional sign. *)
Fixpoint digits (acc : Z) (s : string) : option Z :=
  match s with
  | EmptyString => Some acc
  | String c s' =>
      match Ascii.is_nat c with
      | Some d => digits (10 * acc + Z.of_nat d) s'
      | None => None
      end
  end.

Definition parse_int (s : string) : option Z :=
  match s with
  | EmptyString => None
  | String "-"%char (String c s') => Z.opp <$> digits 0 (String c s')
  | String "+"%char (String c s') => digits 0 (String c s')
  | _ => digits 0 s
  end.

(** [pd.to_numeric(x, errors="coerce")] on one cell of an id column:
    [None] stands for NaN. *)
Definition to_numeric (c : cell) : option Z :=
  match c with
  | CNa => None
  | CStr s => parse_int s
  | CInt z => Some z
  end.

(** [.astype(int)] on a column: fails on a cell that is no integer. *)
Definition astype_int (col : list cell) : result (list Z) :=
  match mapM to_numeric col with
  | Some zs => inr zs
  | None => inl (ValueError InvalidLiteralForInt)
  end.

Definition columns (df : frame) : list string := df.*1.

(** [df[c]] as a Series. A label that is absent raises [KeyError]; a
    label carried by several columns selects a DataFrame, on which the
    Series operations that follow raise [AttributeError]. *)
Definition getitem (df : frame) (c : string) : result (list cell) :=
  match filter (λ kv, kv.1 = c) df with
  | [] => inl (KeyError c)
  | [kv] => inr kv.2
  | _ => inl AttributeError
  end.

(** [df[c] = col]: the column is replaced in place, or appended when the
    label is new. *)
Definition setitem (df : frame) (c : string) (col : list cell) : frame :=
  if decide (c ∈ columns df)
  then (λ kv, if decide (kv.1 = c) then (c, col) else kv) <$> df
  else df ++ [(c, col)].

(** [df.drop_duplicates(subset=[key])]: the first row of each key stays. *)
Fixpoint drop_duplicates {A} (key : A → Z) (rows : list A) : list A :=
  match rows with
  | [] => []
  | r :: rest => r :: filter (λ r', key r' ≠ key r) (drop_duplicates key rest)
  end.

(** [df.drop_duplicates(subset=[key], keep="last")] *)
Definition drop_duplicates_last {A} (key : A → Z) (rows : list A) : list A :=
  reverse (drop_duplicates key (reverse rows)).

(** [df.head(n)] *)
Definition head {A} (rows : list A) (n : Z) : list A := Py.slice rows 0 n.

End Pd.

(** ** A state and exception monad

    [M S A] is a computation over a mutable state [S] that returns an [A]
    or raises; the state reached before a raise is kept. *)

Definition M (S A : Type) : Type := S → S * result A.

Definition ret {S A} (a : A) : M S A := λ s, (s, inr a).
Definition raise {S A} (e : exn) : M S A := λ s, (s, inl e).
Definition bind {S A B} (m : M S A) (k : A → M S B) : M S B :=
  λ s, match m s with
       | (s', inr a) => k a s'
       | (s', inl e) => (s', inl e)
       end.
Definition lift {S A} (r : result A) : M S A := λ s, (s, r).
Definition get {S} : M S S := λ s, (s, inr s).
Definition modify {S} (f : S → S) : M S unit := λ s, (f s, inr tt).

Notation "'let*' x ':=' m 'in' k" := (bind m (λ x, k))
  (at level 10, x pattern, m at level 100, k at level 200).
Notation "m ';;' k" := (bind m (λ _, k))
  (at level 100, k at level 200, right associativity).

(** ** [utils.clean_text]

    DataFrames are mutable objects: the heap maps an object identity to
    the frame it holds, [df.copy()] allocates, [df[c] = ...] updates in
    place. *)

Abbreviation loc := nat (only parsing).
Abbreviation heap := (gmap nat (list (string * list cell))).

Definition fresh_loc (h : heap) : loc := fresh (dom h).

(** [df.copy()] *)
Definition copy (df : loc) : M heap loc :=
  λ h, let l := fresh_loc h in (<[l := default [] (h !! df)]> h, inr l).

(** One guarded statement of [clean_text] on the frame value:
    [if c in df.columns: df[c] = df[c].fillna("").astype(str).str.strip()] *)
Definition clean_column (c : string) (df : frame) : result frame :=
  if decide (c ∈ Pd.columns df) then
    match Pd.getitem df c with
    | inl e => inl e
    | inr col => inr (Pd.setitem df c (Pd.normalize_text col))
    end
  else inr df.

(** The same statement on the object [df] *)
Definition clean_column_at (c : string) (df : loc) : M heap unit :=
  λ h, match clean_column c (default [] (h !! df)) with
       | inl e => (h, inl e)
       | inr f' => (<[df := f']> h, inr tt)
       end.

Definition clean_text (df : loc) : M heap loc :=
  let* df := copy df in
  clean_column_at "Service Comments" df ;;
  clean_column_at "Priority" df ;;
  clean_column_at "Service Category" df ;;
  ret df.

(** The frame [clean_text] returns, as a function of the frame it is
    given (lemma [clean_text_frame] relates the two). *)
Definition clean_frame (df : frame) : result frame :=
  match clean_column "Service Comments" df with
  | inl e => inl e
  | inr df1 =>
      match clean_column "Priority" df1 with
      | inl e => inl e
      | inr df2 => clean_column "Service Category" df2
      end
  end.

(** ** [schemas.py] *)

Module Schemas.

(** [class LabeledRequest(BaseModel)] *)
Record LabeledRequest := {
  id : Z;
  Priority : string;
  Service_Category : string;
  Suggested_Actions : string;
}.

(** [class BatchResponse(BaseModel)] *)
Record BatchResponse := { results : list LabeledRequest }.

Global Instance LabeledRequest_eq_dec : EqDecision LabeledRequest.
Proof. solve_decision. Defined.

(** The JSON schema [make_response_schema] builds: the schema of
    [BatchResponse] with the two enums and the length bound injected. *)
Record response_schema := {
  enum_Priority : list string;
  enum_Service_Category : list string;
  maxLength_Suggested_Actions : Z;
}.

Definition make_response_schema (allowed_priorities allowed_categories : list string)
  : response_schema :=
  {| enum_Priority := allowed_priorities;
     enum_Service_Category := allowed_categories;
     maxLength_Suggested_Actions := 140 |}.

(** A decoded JSON document; a number is carried when it is an
    integer. *)
Inductive json :=
  | JNull
  | JBool (b : bool)
  | JNum (z : Z)
  | JStr (s : string)
  | JArr (items : list json)
  | JObj (members : list (string * json)).

(** A member of a JSON object; the last binding of a name counts. *)
Definition member (name : string) (members : list (string * json)) : option json :=
  snd <$> last (filter (λ kv, kv.1 = name) members).

(** pydantic's validation of an [int] field (lax mode: a numeric string
    or a boolean is converted) and of a [str] field (text only). *)
Definition validate_int (j : json) : option Z :=
  match j with
  | JNum z => Some z
  | JBool b => Some (if b then 1 else 0)
  | JStr s => Pd.parse_int s
  | _ => None
  end.

Definition validate_str (j : json) : option string :=
  match j with JStr s => Some s | _ => None end.

(** Validation against [LabeledRequest]: the four fields are required,
    other members are ignored. Nothing here looks at the schema's enums
    or at the request. *)
Definition validate_LabeledRequest (j : json) : option LabeledRequest :=
  match j with
  | JObj ms =>
      i ← member "id" ms ≫= validate_int;
      p ← member "Priority" ms ≫= validate_str;
      c ← member "Service_Category" ms ≫= validate_str;
      a ← member "Suggested_Actions" ms ≫= validate_str;
      Some {| id := i; Priority := p; Service_Category := c; Suggested_Actions := a |}
  | _ => None
  end.

(** [BatchResponse.model_validate_json(text)]; [None] as input stands
    for a text that is no JSON document. *)
Definition model_validate_json (text : option json) : result BatchResponse :=
  match text with
  | Some (JObj ms) =>
      match member "results" ms with
      | Some (JArr items) =>
          match mapM validate_LabeledRequest items with
          | Some rs => inr {| results := rs |}
          | None => inl ValidationError
          end
      | _ => inl ValidationError
      end
  | _ => inl ValidationError
  end.

(** The JSON text of a list of results, as a well-behaved classifier
    writes it. *)
Definition dump_LabeledRequest (r : LabeledRequest) : json :=
  JObj [("id", JNum (id r)); ("Priority", JStr (Priority r));
        ("Service_Category", JStr (Service_Category r));
        ("Suggested_Actions", JStr (Suggested_Actions r))].

Definition dump_results (rs : list LabeledRequest) : json :=
  JObj [("results", JArr (dump_LabeledRequest <$> rs))].

End Schemas.

(** ** [label_batch.py] *)

Module LabelBatch.
Import Schemas.

(** One item of the request payload: [{"id": .., "ts": .., "comment": ..}] *)
Record payload_row := { p_id : Z; p_ts : string; p_comment : string }.

(** The text of a request, by the data it is built from:
    [build_system_instruction(allowed_priorities, allowed_categories)],
    then [build_user_contents(json.dumps(batch_items))]. *)
Record prompt := {
  system_instruction : list string * list string;
  user_contents : list payload_row;
}.

Record request := {
  req_model : string;
  req_contents : prompt;
  req_schema : response_schema;
  req_temperature : Z;
}.

(** The classifier is a black box: the answer to the [k]-th call of a
    run, given its request. [None] is a text that is no JSON. *)
Definition genai_client : Type := nat → request → option json.

Inductive message :=
  | AlreadyContainsAllIds
  | ReachedDailyCallCap (cap : Z)
  | NoNewPredictions
  | SavedPredictions (rows : Z).

Inductive event :=
  | MakeDirs
  | GenerateContent (req : request)
  | AppendJsonl (records : list LabeledRequest)
  | Sleep (seconds : Z)
  | ToCsv (rows : list LabeledRequest)
  | Print (m : message).

(** What a run reads and writes: the environment, the three files, and
    the trace of its effects in order. A file that does not exist is
    [None]. *)
Record world := {
  GEMINI_API_KEY : option string;
  DATA : option frame;
  PRED_CSV : option (list LabeledRequest);
  PRED_JSONL : option (list LabeledRequest);
  trace : list event;
}.

Definition emit (e : event) (w : world) : world :=
  {| GEMINI_API_KEY := GEMINI_API_KEY w; DATA := DATA w; PRED_CSV := PRED_CSV w;
     PRED_JSONL := PRED_JSONL w; trace := trace w ++ [e] |}.

Definition is_call (e : event) : bool :=
  match e with GenerateContent _ => true | _ => false end.

(** The number of classification calls recorded in a trace. *)
Definition calls (t : list event) : nat := length (filter is_call t).

Definition print (m : message) : M world unit := modify (emit (Print m)).

Definition MODEL : string := "gemini-2.5-flash".
Definition RPM_SLEEP_SECONDS : Z := 13.

(** [RateLimiter.wait] *)
Definition wait (min_seconds_between_calls : Z) : M world unit :=
  modify (emit (Sleep min_seconds_between_calls)).

(** [utils.ensure_dir] *)
Definition ensure_dir : M world unit := modify (emit MakeDirs).

(** [utils.load_csv] *)
Definition load_csv : M world frame :=
  λ w, match DATA w with
       | Some df => (w, inr df)
       | None => (w, inl (FileNotFoundError "data/processed/service_requests_sample_1000.csv"))
       end.

(** [utils.read_done_ids]: the ids of the snapshot, the empty set when
    the file does not exist. *)
Definition read_done_ids (pred_csv : option (list LabeledRequest)) : gset Z :=
  match pred_csv with
  | None => ∅
  | Some rows => list_to_set (id <$> rows)
  end.

(** [utils.append_jsonl]: opening for append creates the file. *)
Definition append_jsonl (records : list LabeledRequest) : M world unit :=
  modify (λ w,
    emit (AppendJsonl records)
      {| GEMINI_API_KEY := GEMINI_API_KEY w; DATA := DATA w; PRED_CSV := PRED_CSV w;
         PRED_JSONL := Some (default [] (PRED_JSONL w) ++ records);
         trace := trace w |}).

(** [client.models.generate_content(...)]: one classification call. *)
Definition generate_content (client : genai_client) (req : request)
  : M world (option json) :=
  λ w, (emit (GenerateContent req) w, inr (client (calls (trace w)) req)).

Definition label_one_batch (client : genai_client) (batch_items : list payload_row)
    (schema : response_schema) (system_instruction : list string * list string)
  : M world BatchResponse :=
  let contents := {| system_instruction := system_instruction;
                     user_contents := batch_items |} in
  let* resp := generate_content client
                 {| req_model := MODEL; req_contents := contents;
                    req_schema := schema; req_temperature := 0 |} in
  lift (model_validate_json resp).

(** [pd.concat([existing, pred_df]).drop_duplicates(subset=["id"])],
    or [pred_df] itself when the snapshot does not exist yet. *)
Definition combined (existing : option (list LabeledRequest))
    (pred_df : list LabeledRequest) : list LabeledRequest :=
  match existing with
  | Some rows => Pd.drop_duplicates id (rows ++ pred_df)
  | None => pred_df
  end.

(** The closing statements of [main]: merge the results of the run into
    the snapshot. *)
Definition merge_predictions (all_records : list LabeledRequest) : M world unit :=
  match all_records with
  | [] => print NoNewPredictions
  | _ =>
      let* w := get in
      let rows := combined (PRED_CSV w) all_records in
      modify (λ w,
        emit (ToCsv rows)
          {| GEMINI_API_KEY := GEMINI_API_KEY w; DATA := DATA w;
             PRED_CSV := Some rows; PRED_JSONL := PRED_JSONL w;
             trace := trace w |}) ;;
      print (SavedPredictions (Z.of_nat (length rows)))
  end.

Section run.
(** The two tuning constants of the module ([20] and [50] in the
    source) and the classifier. *)
Variable DAILY_CALL_CAP : Z.
Variable BATCH_SIZE : Z.
Variable client : genai_client.

(** The [for batch in ...] loop with its [break]; the state is
    [(calls_made, all_records)]. *)
Fixpoint label_batches (schema : response_schema)
    (system_instruction : list string * list string)
    (batches : list (list payload_row))
    (calls_made : Z) (all_records : list LabeledRequest)
  : M world (Z * list LabeledRequest) :=
  match batches with
  | [] => ret (calls_made, all_records)
  | batch :: rest =>
      if decide (DAILY_CALL_CAP ≤ calls_made) then
        print (ReachedDailyCallCap DAILY_CALL_CAP) ;;
        ret (calls_made, all_records)
      else
        let* out := label_one_batch client batch schema system_instruction in
        let records := results out in
        append_jsonl records ;;
        wait RPM_SLEEP_SECONDS ;;
        label_batches schema system_instruction rest
          (calls_made + 1) (all_records ++ records)
  end.

Definition main : M world unit :=
  let* w := get in
  match GEMINI_API_KEY w with
  | None | Some EmptyString => raise RuntimeError
  | Some _ =>
      ensure_dir ;;
      let* raw := load_csv in
      let* df := lift (clean_frame raw) in
      let* priority := lift (Pd.getitem df "Priority") in
      let allowed_priorities := Py.sorted (remove_dups (Pd.to_str <$> Pd.dropna priority)) in
      let* category := lift (Pd.getitem df "Service Category") in
      let allowed_categories := Py.sorted (remove_dups (Pd.to_str <$> Pd.dropna category)) in
      let schema := make_response_schema allowed_priorities allowed_categories in
      let system_instruction := (allowed_priorities, allowed_categories) in
      let* w := get in
      let done_ids := read_done_ids (PRED_CSV w) in
      let* id_cells := lift (Pd.getitem df "id") in
      let* ids := lift (Pd.astype_int id_cells) in
      let todo := filter (λ i, ids !!! i ∉ done_ids) (seq 0 (length ids)) in
      match todo with
      | [] => print AlreadyContainsAllIds
      | _ =>
          let* ts := lift (Pd.getitem df "SR start date/time") in
          let* comments := lift (Pd.getitem df "Service Comments") in
          let payload_rows :=
            (λ i, {| p_id := ids !!! i;
                     p_ts := Pd.to_str (ts !!! i);
                     p_comment := Pd.to_str (comments !!! i) |}) <$> todo in
          let* batches := lift (chunked payload_rows BATCH_SIZE) in
          let* (calls_made, all_records) :=
            label_batches schema system_instruction batches 0 [] in
          merge_predictions all_records
      end
  end.

End run.

End LabelBatch.

(** ** [build_demo_examples.py] *)

Module Curator.

(** A row of the joined table. *)
Record example := {
  id : Z;
  resident_selected_priority : string;
  resident_selected_category : string;
  comment : string;
  ai_priority : string;
  ai_service_category : string;
  suggested_actions : string;
}.

Global Instance example_eq_dec : EqDecision example.
Proof. solve_decision. Defined.

Definition N_EXAMPLES : Z := 30.
Definition SEED : Z := 42.

(** *** Dictionaries of counters *)

(** [d[k]] for a key that is there, [d.get(k, 0)], and a [Counter]'s
    [d[k]] all read [0] for a key that has no entry. *)
Definition item (d : gmap string Z) (k : string) : Z := default 0 (d !! k).

(** [sum(d.values())] *)
Definition dict_sum (d : gmap string Z) : Z := map_fold (λ _ v acc, v + acc) 0 d.

(** [d.keys()]; every use sorts them. *)
Definition keys (d : gmap string Z) : list string := (map_to_list d).*1.

(** [Series.value_counts().to_dict()] *)
Definition value_counts (col : list string) : gmap string Z :=
  foldl (λ d s, <[s := item d s + 1]> d) ∅ col.

(** *** [_compute_priority_targets] *)

(** The order of [sorted(priorities, key=lambda x: (targets[x], x))] *)
Definition by_target (targets : gmap string Z) : relation string :=
  λ x y, item targets x < item targets y
         ∨ (item targets x = item targets y ∧ String.le x y).

Global Instance by_target_dec targets : RelDecision (by_target targets).
Proof. intros x y. unfold by_target. apply _. Defined.

(** The near-equal split: [base], and one more for the first
    [remainder] priorities. *)
Definition equal_split (priorities : list string) (n : Z) : gmap string Z :=
  let base := n `div` Z.of_nat (length priorities) in
  let remainder := n `mod` Z.of_nat (length priorities) in
  list_to_map
    (imap (λ i p, (p, base + (if decide (Z.of_nat i < remainder) then 1 else 0)))
          priorities).

(** The capping loop; the state is [(targets, deficit)]. *)
Definition cap_by_availability (counts : gmap string Z) (priorities : list string)
    (targets : gmap string Z) : gmap string Z * Z :=
  foldl (λ '(targets, deficit) p,
           if decide (item counts p < item targets p)
           then (<[p := item counts p]> targets,
                 deficit + (item targets p - item counts p))
           else (targets, deficit))
        (targets, 0) priorities.

(** One [for p in sorted(...)] pass of the reassignment, with its
    [continue] and [break]; the state is [(targets, deficit, progressed)]. *)
Fixpoint reassign_pass (counts : gmap string Z) (order : list string)
    (targets : gmap string Z) (deficit : Z) (progressed : bool)
  : gmap string Z * Z * bool :=
  match order with
  | [] => (targets, deficit, progressed)
  | p :: rest =>
      let spare := item counts p - item targets p in
      if decide (spare ≤ 0) then reassign_pass counts rest targets deficit progressed
      else
        let targets := <[p := item targets p + 1]> targets in
        let deficit := deficit - 1 in
        if decide (deficit = 0) then (targets, deficit, true)
        else reassign_pass counts rest targets deficit true
  end.

(** [while deficit > 0: ...]. Every pass that goes on lowers [deficit],
    so [deficit] passes are enough (lemma [reassign_spec]); [fuel]
    bounds them. *)
Fixpoint reassign (fuel : nat) (counts : gmap string Z) (priorities : list string)
    (targets : gmap string Z) (deficit : Z) : gmap string Z :=
  if decide (0 < deficit) then
    match fuel with
    | O => targets
    | S fuel =>
        let '(targets', deficit', progressed) :=
          reassign_pass counts (merge_sort (by_target targets) priorities)
                        targets deficit false in
        if progressed then reassign fuel counts priorities targets' deficit'
        else targets'
    end
  else targets.

(** [priority_col] is the column [df[priority_col]] of the frame. *)
Definition _compute_priority_targets (priority_col : list string) (n : Z)
  : gmap string Z :=
  let counts := value_counts (Py.strip <$> priority_col) in
  let priorities := Py.sorted (keys counts) in
  match priorities with
  | [] => ∅
  | _ =>
      let n := Z.min n (dict_sum counts) in
      let targets := equal_split priorities n in
      let '(targets, deficit) := cap_by_availability counts priorities targets in
      reassign (Z.to_nat deficit) counts priorities targets deficit
  end.

(** *** [build_example_set] *)

(** The running state of the selection. *)
Record selection := {
  selected_rows : list (Z * example);
  selected_ids : gset Z;
  global_cat_counts : gmap string Z;
  prio_cat_counts : gmap string (gmap string Z);
  seen_categories : gset string;
  remaining : gmap string Z;
}.

Definition set_remaining (st : selection) (r : gmap string Z) : selection :=
  {| selected_rows := selected_rows st; selected_ids := selected_ids st;
     global_cat_counts := global_cat_counts st;
     prio_cat_counts := prio_cat_counts st;
     seen_categories := seen_categories st; remaining := r |}.

(** The sort key of a candidate:
    [["_unseen_rank", "_global_cat_rank", "_prio_cat_rank", "_order"]] *)
Definition candidate_key (st : selection) (priority : string) (r : Z * example)
  : list Z :=
  let c := resident_selected_category r.2 in
  [ if decide (c ∈ seen_categories st) then 1 else 0;
    item (global_cat_counts st) c;
    item (default ∅ (prio_cat_counts st !! priority)) c;
    r.1 ].

(** The sort key of the top-up: [["_global_cat_rank", "_order"]] *)
Definition top_up_key (st : selection) (r : Z * example) : list Z :=
  [ item (global_cat_counts st) (resident_selected_category r.2); r.1 ].

(** The state after [row] is picked for [priority]. *)
Definition select (st : selection) (priority : string) (row : Z * example)
  : selection :=
  let c := resident_selected_category row.2 in
  {| selected_rows := selected_rows st ++ [row];
     selected_ids := {[ id row.2 ]} ∪ selected_ids st;
     global_cat_counts :=
       <[c := item (global_cat_counts st) c + 1]> (global_cat_counts st);
     prio_cat_counts :=
       let counter := default ∅ (prio_cat_counts st !! priority) in
       <[priority := <[c := item counter c + 1]> counter]> (prio_cat_counts st);
     seen_categories := {[ c ]} ∪ seen_categories st;
     remaining := <[priority := item (remaining st) priority - 1]> (remaining st) |}.

(** *** The files and the join of [main] *)

Inductive message :=
  | SavedDemoExamples (rows : Z)
  | UniqueResidentPriorities (k : Z)
  | UniqueResidentCategories (k : Z).

Record world := {
  SAMPLE_PATH : option frame;
  PREDICTIONS_PATH : option frame;
  OUT_PATH : option (list example);
  stdout : list message;
}.

Definition read_csv (path : string) (file : world → option frame) : M world frame :=
  λ w, match file w with
       | Some df => (w, inr df)
       | None => (w, inl (FileNotFoundError path))
       end.

Definition to_csv (rows : list example) : M world unit :=
  modify (λ w, {| SAMPLE_PATH := SAMPLE_PATH w; PREDICTIONS_PATH := PREDICTIONS_PATH w;
                  OUT_PATH := Some rows; stdout := stdout w |}).

Definition print (m : message) : M world unit :=
  modify (λ w, {| SAMPLE_PATH := SAMPLE_PATH w; PREDICTIONS_PATH := PREDICTIONS_PATH w;
                  OUT_PATH := OUT_PATH w; stdout := stdout w ++ [m] |}).

(** [df.rename(columns=names)] *)
Definition rename (names : list (string * string)) (df : frame) : frame :=
  (λ kv, (default kv.1 ((λ found, found.2.2) <$> list_find (λ ab, ab.1 = kv.1) names),
        kv.2)) <$> df.

(** The text of a cell after [.fillna("").astype(str).str.strip()] *)
Definition text (c : cell) : string :=
  Pd.to_str (Pd.str_strip (Pd.astype_str (Pd.fillna "" c))).

(** Four columns as rows: the id column through
    [pd.to_numeric(errors="coerce")], [dropna] and [astype(int)], the
    three text columns normalised. *)
Definition rows_of (ids c1 c2 c3 : list cell) : list (Z * string * string * string) :=
  omap (λ i, (λ z, (z, text (c1 !!! i), text (c2 !!! i), text (c3 !!! i)))
               <$> Pd.to_numeric (ids !!! i))
       (seq 0 (length ids)).

Definition subset_of_columns (required : list string) (df : frame) : bool :=
  bool_decide (Forall (λ c, c ∈ Pd.columns df) required).

(** [sample_df.merge(predictions_df, on="id", how="inner")]: the rows
    of the left table in order, each with its matches on the right. *)
Definition merge (sample_df predictions_df : list (Z * string * string * string))
  : list example :=
  '(i, p, c, m) ← sample_df;
  '(i', ap, ac, sa) ← predictions_df;
  if decide (i = i')
  then [ {| id := i; resident_selected_priority := p;
            resident_selected_category := c; comment := m; ai_priority := ap;
            ai_service_category := ac; suggested_actions := sa |} ]
  else [].

(** The joined table [main] builds from the two files. *)
Definition joined (sample_df predictions_df : frame) : result (list example) :=
  let sample_df :=
    rename [("Priority", "resident_selected_priority");
            ("Service Category", "resident_selected_category");
            ("Service Comments", "comment")] sample_df in
  match Pd.getitem sample_df "id", Pd.getitem sample_df "resident_selected_priority",
        Pd.getitem sample_df "resident_selected_category",
        Pd.getitem sample_df "comment" with
  | inr i, inr p, inr c, inr m =>
      let sample_rows := rows_of i p c m in
      let predictions_df :=
        rename [("Priority", "ai_priority");
                ("Service_Category", "ai_service_category");
                ("Suggested_Actions", "suggested_actions")] predictions_df in
      match Pd.getitem predictions_df "id", Pd.getitem predictions_df "ai_priority",
            Pd.getitem predictions_df "ai_service_category",
            Pd.getitem predictions_df "suggested_actions" with
      | inr i, inr p, inr c, inr a =>
          let prediction_rows :=
            Pd.drop_duplicates_last (λ r, r.1.1.1) (rows_of i p c a) in
          inr (Pd.drop_duplicates id (merge sample_rows prediction_rows))
      | inl e, _, _, _ | _, inl e, _, _ | _, _, inl e, _ | _, _, _, inl e => inl e
      end
  | inl e, _, _, _ | _, inl e, _, _ | _, _, inl e, _ | _, _, _, inl e => inl e
  end.

Section build.
(** [df.sample(frac=1, random_state=seed)]: the order numpy draws for
    a seed and a number of rows, as the list of positions taken. *)
Variable permutation : Z → nat → list nat.

(** [df.sort_values(by)]: the rows in ascending lexicographic order of
    their keys; what it does with equal keys is left open. *)
Variable sort_values : ∀ A : Type, (A → list Z) → list A → list A.

Definition sample {A} (df : list A) (seed : Z) : list A :=
  omap (λ i, df !! i) (permutation seed (length df)).

(** The body of [for priority in priorities], for one priority; the
    state is the selection and [made_pick]. *)
Definition pick (rng : list (Z * example)) (priority : string)
    (st : selection) (made_pick : bool) : result (selection * bool) :=
  if decide (item (remaining st) priority ≤ 0) then inr (st, made_pick)
  else
    let candidates :=
      filter (λ r, resident_selected_priority r.2 = priority
                   ∧ id r.2 ∉ selected_ids st) rng in
    match candidates with
    | [] => inr (set_remaining st (<[priority := 0]> (remaining st)), made_pick)
    | _ =>
        match sort_values _ (candidate_key st priority) candidates with
        | [] => inl IndexError
        | row :: _ => inr (select st priority row, true)
        end
    end.

Fixpoint pick_each (rng : list (Z * example)) (priorities : list string)
    (st : selection) (made_pick : bool) : result (selection * bool) :=
  match priorities with
  | [] => inr (st, made_pick)
  | priority :: rest =>
      match pick rng priority st made_pick with
      | inl e => inl e
      | inr (st', made_pick') => pick_each rng rest st' made_pick'
      end
  end.

(** [while sum(remaining.values()) > 0: ...]. Every pass that goes on
    lowers the sum, so that many passes are enough (lemma
    [round_robin_total]); [fuel] bounds them. *)
Fixpoint round_robin (fuel : nat) (rng : list (Z * example))
    (priorities : list string) (st : selection) : result selection :=
  if decide (0 < dict_sum (remaining st)) then
    match fuel with
    | O => inr st
    | S fuel =>
        match pick_each rng priorities st false with
        | inl e => inl e
        | inr (st', made_pick) =>
            if made_pick then round_robin fuel rng priorities st' else inr st'
        end
    end
  else inr st.

(** The safety fallback after the loop. *)
Definition top_up (rng : list (Z * example)) (st : selection) (n : Z)
  : list example :=
  let picked := snd <$> selected_rows st in
  if decide (Z.of_nat (length picked) < n) then
    let need := n - Z.of_nat (length picked) in
    let remaining_rows := filter (λ r, id r.2 ∉ selected_ids st) rng in
    match remaining_rows with
    | [] => picked
    | _ => picked ++ (snd <$> Pd.head (sort_values _ (top_up_key st) remaining_rows) need)
    end
  else picked.

Definition build_example_set (df : list example) (n seed : Z)
  : result (list example) :=
  match df with
  | [] => inr df
  | _ =>
      let n := Z.min n (Z.of_nat (length df)) in
      let rng := imap (λ i r, (Z.of_nat i, r)) (sample df seed) in
      let targets :=
        _compute_priority_targets ((λ r, resident_selected_priority r.2) <$> rng) n in
      let priorities := Py.sorted (keys targets) in
      let start :=
        {| selected_rows := []; selected_ids := ∅; global_cat_counts := ∅;
           prio_cat_counts := ∅; seen_categories := ∅; remaining := targets |} in
      match round_robin (Z.to_nat (dict_sum targets)) rng priorities start with
      | inl e => inl e
      | inr st => inr (Pd.head (sample (top_up rng st n) seed) n)
      end
  end.

(** *** [main] *)

Definition main : M world unit :=
  let* sample_df := read_csv "data/processed/service_requests_sample_1000.csv" SAMPLE_PATH in
  let* predictions_df := read_csv "data/outputs/predictions.csv" PREDICTIONS_PATH in
  if negb (subset_of_columns ["id"; "Priority"; "Service Category"; "Service Comments"]
                             sample_df)
  then raise (ValueError SampleMissingColumns)
  else if negb (subset_of_columns
                  ["id"; "Priority"; "Service_Category"; "Suggested_Actions"]
                  predictions_df)
  then raise (ValueError PredictionsMissingColumns)
  else
    let* merged := lift (joined sample_df predictions_df) in
    if decide (Z.of_nat (length merged) < N_EXAMPLES)
    then raise (ValueError (NeedAtLeastJoinedRows N_EXAMPLES (Z.of_nat (length merged))))
    else
      let* demo_df := lift (build_example_set merged N_EXAMPLES SEED) in
      to_csv demo_df ;;
      print (SavedDemoExamples (Z.of_nat (length demo_df))) ;;
      print (UniqueResidentPriorities
               (Z.of_nat (length (remove_dups (resident_selected_priority <$> demo_df))))) ;;
      print (UniqueResidentCategories
               (Z.of_nat (length (remove_dups (resident_selected_category <$> demo_df))))).

End build.

(** *** What is assumed of [sort_values], and two instances for examples *)

(** Ascending lexicographic order on keys. *)
Fixpoint key_le (k1 k2 : list Z) : Prop :=
  match k1, k2 with
  | [], _ => True
  | _ :: _, [] => False
  | a :: k1, b :: k2 => a < b ∨ (a = b ∧ key_le k1 k2)
  end.

Global Instance key_le_dec : RelDecision key_le.
Proof.
  intros k1. induction k1 as [|a k1 IH]; intros [|b k2]; simpl.
  - apply _.
  - apply _.
  - apply _.
  - pose proof (IH k2). apply _.
Defined.

Definition by_key {A} (key : A → list Z) : relation A :=
  λ a b, key_le (key a) (key b).

Global Instance by_key_dec {A} (key : A → list Z) : RelDecision (by_key key).
Proof. intros a b. unfold by_key. apply _. Defined.

(** A lawful sort returns the rows it was given, in ascending order of
    their keys. *)
Definition sorts (sort_values : ∀ A : Type, (A → list Z) → list A → list A) : Prop :=
  ∀ A (key : A → list Z) (l : list A),
    sort_values A key l ≡ₚ l
    ∧ Sorted (by_key key) (sort_values A key l).

(** A merge sort, and the same followed by a swap of equal neighbours at
    the front: two sorts that differ on ties. *)
Definition merge_sort_values (A : Type) (key : A → list Z) (l : list A) : list A :=
  merge_sort (by_key key) l.

Definition swapping_sort_values (A : Type) (key : A → list Z) (l : list A) : list A :=
  match merge_sort_values A key l with
  | a :: b :: rest =>
      if decide (by_key key b a) then b :: a :: rest else a :: b :: rest
  | l' => l'
  end.

(** An order for examples: the positions rotated by the seed. *)
Definition rotation (seed : Z) (n : nat) : list nat :=
  rotate (Z.to_nat seed) (seq 0 n).

End Curator.

(** ** Vocabulary of the statements *)

(** The labels [clean_text] rewrites. *)
Definition text_columns : list string :=
  ["Service Comments"; "Priority"; "Service Category"].

(** What one guarded statement of [clean_text] does when it does not raise. *)
Definition normalize_column (c : string) (df : frame) : frame :=
  (λ kv, if decide (kv.1 = c) then (kv.1, Pd.normalize_text kv.2) else kv) <$> df.

Module Ledger.
Import Schemas LabelBatch.

(** The ids of a table of results. *)
Definition ids (rows : list LabeledRequest) : list Z := id <$> rows.



(** The request [label_one_batch] sends for a batch. *)
Definition request_for (batch_items : list payload_row) (schema : response_schema)
    (system_instruction : list string * list string) : request :=
  {| req_model := MODEL;
     req_contents := {| system_instruction := system_instruction;
                        user_contents := batch_items |};
     req_schema := schema; req_temperature := 0 |}.

(** The part of [main] before the loop, as a function of the world it
    starts in: the schema, the instruction and the payload rows of the
    pending records, or the exception raised on the way. *)
Definition pending (w : world)
  : result (response_schema * (list string * list string) * list payload_row) :=
  match GEMINI_API_KEY w with
  | None | Some EmptyString => inl RuntimeError
  | Some _ =>
      match DATA w with
      | None => inl (FileNotFoundError "data/processed/service_requests_sample_1000.csv")
      | Some raw =>
          match clean_frame raw with
          | inl e => inl e
          | inr df =>
              match Pd.getitem df "Priority", Pd.getitem df "Service Category" with
              | inl e, _ | inr _, inl e => inl e
              | inr priority, inr category =>
                  let allowed_priorities :=
                    Py.sorted (remove_dups (Pd.to_str <$> Pd.dropna priority)) in
                  let allowed_categories :=
                    Py.sorted (remove_dups (Pd.to_str <$> Pd.dropna category)) in
                  let schema := make_response_schema allowed_priorities allowed_categories in
                  let si := (allowed_priorities, allowed_categories) in
                  match Pd.getitem df "id" with
                  | inl e => inl e
                  | inr id_cells =>
                      match Pd.astype_int id_cells with
                      | inl e => inl e
                      | inr ids =>
                          let todo :=
                            filter (λ i, ids !!! i ∉ read_done_ids (PRED_CSV w))
                                   (seq 0 (length ids)) in
                          match todo with
                          | [] => inr (schema, si, [])
                          | _ =>
                              match Pd.getitem df "SR start date/time",
                                    Pd.getitem df "Service Comments" with
                              | inl e, _ | inr _, inl e => inl e
                              | inr ts, inr comments =>
                                  inr (schema, si,
                                       (λ i, {| p_id := ids !!! i;
                                                p_ts := Pd.to_str (ts !!! i);
                                                p_comment := Pd.to_str (comments !!! i) |})
                                         <$> todo)
                              end
                          end
                      end
                  end
              end
          end
      end
  end.

(** The ids of the source dataset as [main] reads them, when it gets
    as far as the pending set. *)
Definition source_ids (w : world) : result (list Z) :=
  match GEMINI_API_KEY w with
  | None | Some EmptyString => inl RuntimeError
  | Some _ =>
      match DATA w with
      | None => inl (FileNotFoundError "data/processed/service_requests_sample_1000.csv")
      | Some raw =>
          match clean_frame raw with
          | inl e => inl e
          | inr df =>
              match Pd.getitem df "Priority", Pd.getitem df "Service Category" with
              | inl e, _ | inr _, inl e => inl e
              | inr _, inr _ =>
                  match Pd.getitem df "id" with
                  | inl e => inl e
                  | inr id_cells => Pd.astype_int id_cells
                  end
              end
          end
      end
  end.

(** [main] from the point where the pending rows are known. *)
Definition after_pending (DAILY_CALL_CAP BATCH_SIZE : Z) (client : genai_client)
    (schema : response_schema) (si : list string * list string)
    (rows : list payload_row) : M world unit :=
  match rows with
  | [] => print AlreadyContainsAllIds
  | _ =>
      let* batches := lift (chunked rows BATCH_SIZE) in
      let* (calls_made, all_records) :=
        label_batches DAILY_CALL_CAP client schema si batches 0 [] in
      merge_predictions all_records
  end.

(** The snapshot after the results [recs] of a run are merged. *)
Definition merged (existing : option (list LabeledRequest)) (recs : list LabeledRequest)
  : option (list LabeledRequest) :=
  match recs with
  | [] => existing
  | _ => Some (combined existing recs)
  end.

(** A classifier whose every answer validates. *)
Definition answers (client : genai_client) : Prop :=
  ∀ k req, ∃ r, model_validate_json (client k req) = inr r.

(** A classifier that returns, for every request, exactly one result
    per submitted item, with the ids of the items in their order. *)
Definition echoes (client : genai_client) : Prop :=
  ∀ k req, ∃ r, model_validate_json (client k req) = inr r
                ∧ id <$> results r = p_id <$> user_contents (req_contents req).

End Ledger.

Module Quota.
Import Curator.

(** The share of the [i]-th priority in the near-equal split. *)
Definition share (base remainder : Z) (i : nat) : Z :=
  base + (if decide (Z.of_nat i < remainder) then 1 else 0).

(** A table of quotas is balanced when a priority that still has rows
    to give holds at most one slot fewer than any other. *)
Definition balanced (counts targets : gmap string Z) : Prop :=
  ∀ p q, p ∈ dom counts → q ∈ dom counts →
         item targets p < item counts p → item targets q ≤ item targets p + 1.

(** The quota algorithm in the specification's words: the split
    starts from the requested size [n] itself ([base = n div #values],
    [remainder = n mod #values]), then quotas are capped at
    availability and the shortfall is redistributed until no further
    reassignment is possible. *)
Definition quotas_from_requested_size (priority_col : list string) (n : Z)
  : gmap string Z :=
  let counts := value_counts (Py.strip <$> priority_col) in
  let priorities := Py.sorted (keys counts) in
  match priorities with
  | [] => ∅
  | _ =>
      let targets := equal_split priorities n in
      let '(targets, deficit) := cap_by_availability counts priorities targets in
      reassign (Z.to_nat deficit) counts priorities targets deficit
  end.

End Quota.

Module Demo.
Import Curator.

(** The joined table [main] reaches, as a function of the files it
    reads, or the exception raised on the way. *)
Definition joined_population (w : world) : result (list example) :=
  match SAMPLE_PATH w with
  | None => inl (FileNotFoundError "data/processed/service_requests_sample_1000.csv")
  | Some sample_df =>
      match PREDICTIONS_PATH w with
      | None => inl (FileNotFoundError "data/outputs/predictions.csv")
      | Some predictions_df =>
          if negb (subset_of_columns
                     ["id"; "Priority"; "Service Category"; "Service Comments"] sample_df)
          then inl (ValueError SampleMissingColumns)
          else if negb (subset_of_columns
                          ["id"; "Priority"; "Service_Category"; "Suggested_Actions"]
                          predictions_df)
          then inl (ValueError PredictionsMissingColumns)
          else joined sample_df predictions_df
      end
  end.

End Demo.

(** ** Data of the examples *)

Module Examples.
Import Schemas LabelBatch Ledger.

Definition source : frame :=
  [("id", [CInt 1; CInt 2]);
   ("SR start date/time", [CStr "2024-01-01"; CStr "2024-01-02"]);
   ("Service Comments", [CStr "leak"; CStr "noise"]);
   ("Priority", [CStr "High"; CStr "Low"]);
   ("Service Category", [CStr "Plumbing"; CStr "Plumbing"])].

(** The payload of the two records of [source]. *)
Definition row1 : payload_row :=
  {| p_id := 1; p_ts := "2024-01-01"; p_comment := "leak" |}.
Definition row2 : payload_row :=
  {| p_id := 2; p_ts := "2024-01-02"; p_comment := "noise" |}.
Definition submitted : list payload_row := [row1; row2].

Definition schema : response_schema := make_response_schema ["High"; "Low"] ["Plumbing"].

(** A first run: nothing labeled yet. *)
Definition start : world :=
  {| GEMINI_API_KEY := Some "key"; DATA := Some source; PRED_CSV := None;
     PRED_JSONL := None; trace := [] |}.

Definition stray : LabeledRequest :=
  {| id := 7; Priority := "Urgent"; Service_Category := "Other";
     Suggested_Actions := "Please wait." |}.

(** A classifier that answers every request with the one stray result. *)
Definition drifting : genai_client := λ _ _, Some (dump_results [stray]).

Definition old1 : LabeledRequest :=
  {| id := 1; Priority := "High"; Service_Category := "Plumbing";
     Suggested_Actions := "Please keep clear of the water." |}.
Definition new1 : LabeledRequest :=
  {| id := 1; Priority := "Low"; Service_Category := "Plumbing";
     Suggested_Actions := "Please wait for our team." |}.
Definition new2 : LabeledRequest :=
  {| id := 2; Priority := "Low"; Service_Category := "Plumbing";
     Suggested_Actions := "Thank you for your patience." |}.

(** A resumed run: record 1 is in the snapshot, record 2 is pending. *)
Definition resumed : world :=
  {| GEMINI_API_KEY := Some "key"; DATA := Some source; PRED_CSV := Some [old1];
     PRED_JSONL := Some [old1]; trace := [] |}.

(** A classifier that answers every request with a result for id 1. *)
Definition relabeling : genai_client := λ _ _, Some (dump_results [new1]).

(** A classifier that answers with one result per item sent, with the
    id of the item. *)
Definition echoing : genai_client :=
  λ _ req,
    Some (dump_results
            ((λ row, {| id := p_id row; Priority := "Low";
                        Service_Category := "Plumbing";
                        Suggested_Actions := "Thank you for your patience." |})
               <$> user_contents (req_contents req))).


(** Ten tickets and the predictions for them. *)
Definition ten_ids : list cell := CInt <$> [1; 2; 3; 4; 5; 6; 7; 8; 9; 10].

Definition ten_samples : frame :=
  [("id", ten_ids);
   ("Priority", replicate 5 (CStr "High") ++ replicate 5 (CStr " Low "));
   ("Service Category", replicate 10 (CStr "Plumbing"));
   ("Service Comments", replicate 9 (CStr "leak") ++ [CNa])].

Definition ten_predictions : frame :=
  [("id", ten_ids);
   ("Priority", replicate 10 (CStr "High"));
   ("Service_Category", replicate 10 (CStr "Plumbing"));
   ("Suggested_Actions", replicate 10 (CStr "Please wait."))].

Definition ten_rows : Curator.world :=
  {| Curator.SAMPLE_PATH := Some ten_samples;
     Curator.PREDICTIONS_PATH := Some ten_predictions;
     Curator.OUT_PATH := None; Curator.stdout := [] |}.

Definition ticket (i : Z) (p c : string) : Curator.example :=
  {| Curator.id := i; Curator.resident_selected_priority := p;
     Curator.resident_selected_category := c; Curator.comment := "";
     Curator.ai_priority := ""; Curator.ai_service_category := "";
     Curator.suggested_actions := "" |}.

(** Eight joined tickets over three priorities and four categories. *)
Definition population : list Curator.example :=
  [ticket 1 "A" "x"; ticket 2 "A" "x"; ticket 3 "A" "y"; ticket 4 "B" "x";
   ticket 5 "B" "z"; ticket 6 "B" "z"; ticket 7 "C" "x"; ticket 8 "C" "w"].

(** The joined table of [ten_rows]. *)
Definition ten_joined : list Curator.example :=
  Eval vm_compute in
    match Demo.joined_population ten_rows with inr merged => merged | inl _ => [] end.

End Examples.

(** ** Vocabulary of the runs *)

Module Run.
Import Schemas LabelBatch Ledger.

(** The requests of a trace, in the order they were sent. *)
Definition requests (t : list event) : list request :=
  omap (λ e, match e with GenerateContent req => Some req | _ => None end) t.

(** The items a trace submitted, in the order they were sent. *)
Definition submitted_items (t : list event) : list payload_row :=
  requests t ≫= (λ req, user_contents (req_contents req)).

(** The events of one labeled batch: the call, the append of the
    results to the log, the pause of the rate limiter. *)
Definition batch_events (schema : response_schema) (si : list string * list string)
    (batch : list payload_row) (records : list LabeledRequest) : list event :=
  [GenerateContent (request_for batch schema si); AppendJsonl records;
   Sleep RPM_SLEEP_SECONDS].

(** The log after the results of the answered batches are appended:
    the first append creates the file. *)
Definition log_after (log : option (list LabeledRequest))
    (answered : list (list LabeledRequest)) : option (list LabeledRequest) :=
  match answered with
  | [] => log
  | _ => Some (default [] log ++ concat answered)
  end.

End Run.

Module RunExamples.
Import Schemas LabelBatch Ledger.

(** A classifier whose answers are no JSON. *)
Definition silent : genai_client := λ _ _, None.

(** A classifier that answers the first call of a run as
    [Examples.echoing] does, and every later call with no JSON. *)
Definition once : genai_client :=
  λ k req, if decide (k = 0%nat) then Examples.echoing k req else None.

(** The result [Examples.echoing] gives for record 1. *)
Definition echo1 : LabeledRequest :=
  {| id := 1; Priority := "Low"; Service_Category := "Plumbing";
     Suggested_Actions := "Thank you for your patience." |}.

End RunExamples.

Module Labels.

(** The labels a column allows: one for each distinct text of the
    column after normalisation (the empty text for a missing cell), in
    ascending order, none twice. *)
Definition allowed (labels : list string) (col : list cell) : Prop :=
  StronglySorted String.le labels
  ∧ NoDup labels
  ∧ ∀ s, s ∈ labels ↔ ∃ c, c ∈ col ∧ s = Curator.text c.

End Labels.

(** ** Vocabulary of the text normalisation *)

Module Text.

(** A text made of whitespace only. *)
Fixpoint all_space (s : string) : Prop :=
  match s with
  | EmptyString => True
  | String c s' => Py.isspace c = true ∧ all_space s'
  end.

Global Instance all_space_dec s : Decision (all_space s).
Proof. induction s; simpl; apply _. Defined.

(** A text that does not start with whitespace. *)
Definition no_leading_space (s : string) : Prop :=
  match s with
  | EmptyString => True
  | String c _ => Py.isspace c = false
  end.

Global Instance no_leading_space_dec s : Decision (no_leading_space s).
Proof. destruct s; simpl; apply _. Defined.

(** A text with no whitespace at either end. *)
Definition trimmed (s : string) : Prop :=
  no_leading_space s ∧ no_leading_space (String.rev s).

Global Instance trimmed_dec s : Decision (trimmed s).
Proof. unfold trimmed. apply _. Defined.

(** What [clean_text] makes of a cell: a text [t] without whitespace
    at either end; the empty text for a missing cell, and for a text
    cell the text itself less the whitespace around it. *)
Definition cleaned (c : cell) (t : string) : Prop :=
  trimmed t
  ∧ match c with
    | CNa => t = EmptyString
    | CStr s => ∃ l r, s = l +:+ t +:+ r ∧ all_space l ∧ all_space r
    | CInt z => t = Py.strip (pretty z)
    end.

(** What [clean_text] does to a column. *)
Definition clean_entry (kv : string * list cell) : string * list cell :=
  if decide (kv.1 ∈ text_columns) then (kv.1, Pd.normalize_text kv.2) else kv.

End Text.

(** ** Vocabulary of the selection *)

Module Selection.
Import Curator.

(** A lawful shuffle draws the positions [0 .. m-1], each once, in
    some order. *)
Definition shuffles (permutation : Z → nat → list nat) : Prop :=
  ∀ seed m, permutation seed m ≡ₚ seq 0 m.

(** The rows of a table that carry a priority. *)
Definition with_priority (p : string) (rows : list example) : list example :=
  filter (λ r, resident_selected_priority r = p) rows.

(** The selection holds rows of the shuffled table, no id twice, and
    [selected_ids] holds their ids. *)
Definition consistent (rng : list (Z * example)) (st : selection) : Prop :=
  NoDup ((λ r, id r.2) <$> selected_rows st)
  ∧ (∀ r, r ∈ selected_rows st → r ∈ rng)
  ∧ selected_ids st = list_to_set ((λ r, id r.2) <$> selected_rows st).

(** The selection is on its way to the quotas: for every priority, the
    rows picked and the quota left add up to the quota. *)
Definition on_quota (targets : gmap string Z) (st : selection) : Prop :=
  dom (remaining st) = dom targets
  ∧ (∀ p, 0 ≤ item (remaining st) p)
  ∧ (∀ p, Z.of_nat (length (with_priority p (snd <$> selected_rows st)))
          + item (remaining st) p = item targets p)
  ∧ Z.of_nat (length (selected_rows st)) + dict_sum (remaining st) = dict_sum targets.

End Selection.

(** ** Vocabulary of the join *)

Module Join.
Import Curator.

(** A row of either table before the join: the id and three texts. *)
Abbreviation row := (Z * string * string * string)%type.

Definition key (r : row) : Z := r.1.1.1.

(** The sample table as [main] prepares it: the columns renamed and
    selected, the rows without an integer id dropped, the texts
    normalised. *)
Definition sample_table (sample_df : frame) : result (list row) :=
  let sample_df :=
    rename [("Priority", "resident_selected_priority");
            ("Service Category", "resident_selected_category");
            ("Service Comments", "comment")] sample_df in
  match Pd.getitem sample_df "id", Pd.getitem sample_df "resident_selected_priority",
        Pd.getitem sample_df "resident_selected_category",
        Pd.getitem sample_df "comment" with
  | inr i, inr p, inr c, inr m => inr (rows_of i p c m)
  | inl e, _, _, _ | _, inl e, _, _ | _, _, inl e, _ | _, _, _, inl e => inl e
  end.

(** The predictions table as [main] prepares it, before its
    duplicates are dropped. *)
Definition prediction_table (predictions_df : frame) : result (list row) :=
  let predictions_df :=
    rename [("Priority", "ai_priority");
            ("Service_Category", "ai_service_category");
            ("Suggested_Actions", "suggested_actions")] predictions_df in
  match Pd.getitem predictions_df "id", Pd.getitem predictions_df "ai_priority",
        Pd.getitem predictions_df "ai_service_category",
        Pd.getitem predictions_df "suggested_actions" with
  | inr i, inr p, inr c, inr a => inr (rows_of i p c a)
  | inl e, _, _, _ | _, inl e, _, _ | _, _, inl e, _ | _, _, _, inl e => inl e
  end.

(** A sample row joined with a prediction row. *)
Definition join_row (s p : row) : example :=
  {| id := s.1.1.1; resident_selected_priority := s.1.1.2;
     resident_selected_category := s.1.2; comment := s.2;
     ai_priority := p.1.1.2; ai_service_category := p.1.2;
     suggested_actions := p.2 |}.

(** The first and the last row of a table for an id. *)
Definition first_for (i : Z) (rows : list row) : option row :=
  head (filter (λ r, key r = i) rows).

Definition last_for (i : Z) (rows : list row) : option row :=
  last (filter (λ r, key r = i) rows).

End Join.

Module CuratorExamples.

(** Three tickets, the first one listed twice, and four predictions:
    two for ticket 1, one for ticket 2, one for a ticket that is not in
    the sample. *)
Definition few_samples : frame :=
  [("id", [CInt 1; CInt 1; CInt 2; CInt 3]);
   ("Priority", [CStr "High"; CStr "Low"; CStr " Low "; CNa]);
   ("Service Category", replicate 4 (CStr "Plumbing"));
   ("Service Comments", [CStr "leak"; CStr "leak again"; CStr "noise"; CStr "smell"])].

Definition few_predictions : frame :=
  [("id", [CInt 1; CInt 2; CInt 1; CInt 9]);
   ("Priority", [CStr "Low"; CStr "Low"; CStr "High"; CStr "High"]);
   ("Service_Category", replicate 4 (CStr "Plumbing"));
   ("Suggested_Actions", [CStr "first"; CStr "wait"; CStr "second"; CStr "other"])].

Definition few_sample_rows : list Join.row :=
  [(1, "High", "Plumbing", "leak"); (1, "Low", "Plumbing", "leak again");
   (2, "Low", "Plumbing", "noise"); (3, "", "Plumbing", "smell")].

Definition few_prediction_rows : list Join.row :=
  [(1, "Low", "Plumbing", "first"); (2, "Low", "Plumbing", "wait");
   (1, "High", "Plumbing", "second"); (9, "High", "Plumbing", "other")].

(** Thirty-three tickets over three priorities and two categories,
    and a prediction for each. *)
Definition many_samples : frame :=
  [("id", (λ i, CInt (Z.of_nat i)) <$> seq 1 33);
   ("Priority",
    (λ i, CStr (if decide (i `mod` 3 = 0)%nat then "High"
                else if decide (i `mod` 3 = 1)%nat then " Low" else "Medium "))
      <$> seq 1 33);
   ("Service Category",
    (λ i, CStr (if decide (i `mod` 2 = 0)%nat then "Plumbing" else "Electrical"))
      <$> seq 1 33);
   ("Service Comments", replicate 33 (CStr "leak"))].

Definition many_predictions : frame :=
  [("id", (λ i, CInt (Z.of_nat i)) <$> seq 1 33);
   ("Priority", replicate 33 (CStr "High"));
   ("Service_Category", replicate 33 (CStr "Plumbing"));
   ("Suggested_Actions", replicate 33 (CStr "Please wait."))].

Definition many_rows : Curator.world :=
  {| Curator.SAMPLE_PATH := Some many_samples;
     Curator.PREDICTIONS_PATH := Some many_predictions;
     Curator.OUT_PATH := None; Curator.stdout := [] |}.

(** The joined table of [many_rows]. *)
Definition many_joined : list Curator.example :=
  Eval vm_compute in
    match Demo.joined_population many_rows with inr merged => merged | inl _ => [] end.

End CuratorExamples.

(** ** [schemas.py], on the schema document

    [make_response_schema] edits the JSON schema that pydantic derives
    from [BatchResponse]. The document is a [json] value; a [dict] is the
    list of its items in insertion order, its keys pairwise distinct. *)

Module SchemaDoc.
Import Schemas.

(** The exceptions of this module. *)
Inductive exception :=
  | KeyError (key : string)
  | TypeError
  | AttributeError.

Global Instance exception_eq_dec : EqDecision exception.
Proof. solve_decision. Defined.

Definition outcome (A : Type) : Type := exception + A.

(** *** Python strings *)

(** [s.split(sep)] for a separator of one character *)
Fixpoint split (sep : Ascii.ascii) (s : string) : list string :=
  match s with
  | EmptyString => [EmptyString]
  | String c s' =>
      if decide (c = sep) then EmptyString :: split sep s'
      else match split sep s' with
           | part :: parts => String c part :: parts
           | [] => [String c EmptyString]
           end
  end.

(** [s.startswith(prefix)] and [s.endswith(suffix)] *)
Fixpoint startswith (s prefix : string) : bool :=
  match prefix, s with
  | EmptyString, _ => true
  | String a prefix', String b s' => bool_decide (a = b) && startswith s' prefix'
  | String _ _, EmptyString => false
  end.

Definition endswith (s suffix : string) : bool :=
  startswith (String.rev s) (String.rev suffix).

(** [sub in s] on strings *)
Fixpoint contains (s sub : string) : bool :=
  startswith s sub
  || match s with
     | EmptyString => false
     | String _ s' => contains s' sub
     end.

(** *** Python values *)

(** [bool(x)] *)
Definition truthy (x : json) : bool :=
  match x with
  | JNull => false
  | JBool b => b
  | JNum z => bool_decide (z ≠ 0)
  | JStr s => bool_decide (s ≠ EmptyString)
  | JArr items => bool_decide (items ≠ [])
  | JObj members => bool_decide (members ≠ [])
  end.

Abbreviation dict := (list (string * json)).

(** [d.get(k)] *)
Definition get (k : string) (d : dict) : option json :=
  snd <$> head (filter (λ kv, kv.1 = k) d).

(** [d[k] = v]: the value of a key that is there is replaced where it
    stands, a new key goes to the end. *)
Definition set (k : string) (v : json) (d : dict) : dict :=
  if decide (k ∈ d.*1)
  then (λ kv, if decide (kv.1 = k) then (k, v) else kv) <$> d
  else d ++ [(k, v)].

(** [x[k]] with a string [k], on any value *)
Definition getitem (x : json) (k : string) : outcome json :=
  match x with
  | JObj d => match get k d with Some v => inr v | None => inl (KeyError k) end
  | _ => inl TypeError
  end.

(** [x[k] = v] with a string [k], on any value, as the new value of [x] *)
Definition setitem (x : json) (k : string) (v : json) : outcome json :=
  match x with
  | JObj d => inr (JObj (set k v d))
  | _ => inl TypeError
  end.

(** The value at the end of a path of keys. *)
Fixpoint at_path (path : list string) (x : json) : option json :=
  match path with
  | [] => Some x
  | k :: path' =>
      match x with
      | JObj d => get k d ≫= at_path path'
      | _ => None
      end
  end.

(** *** The functions of [schemas.py] *)

Definition _get_defs_container (schema : dict) : json :=
  match get "$defs" schema with
  | Some v => if truthy v then v else
      match get "definitions" schema with
      | Some v' => if truthy v' then v' else JObj []
      | None => JObj []
      end
  | None =>
      match get "definitions" schema with
      | Some v' => if truthy v' then v' else JObj []
      | None => JObj []
      end
  end.

(** The test of the loop on a key. *)
Definition names_labeled_request (k : string) : Prop :=
  last (split "."%char k) = Some "LabeledRequest" ∨ endswith k "LabeledRequest" = true.

Global Instance names_labeled_request_dec k : Decision (names_labeled_request k).
Proof. unfold names_labeled_request. apply _. Defined.

Definition not_found : string :=
  "Could not find LabeledRequest in JSON Schema $defs/definitions.".

(** On something that is no [dict], [in] is the membership test of a
    list or the substring test of a string, and fails on the other
    values; [.keys()] fails on all of them. *)
Definition _find_labeled_request_def_key (defs : json) : outcome string :=
  match defs with
  | JObj d =>
      if decide ("LabeledRequest" ∈ d.*1) then inr "LabeledRequest"
      else match list_find names_labeled_request d.*1 with
           | Some (_, k) => inr k
           | None => inl (KeyError not_found)
           end
  | JArr items =>
      if existsb (λ x, match x with
                       | JStr s => bool_decide (s = "LabeledRequest")
                       | _ => false
                       end) items
      then inr "LabeledRequest" else inl AttributeError
  | JStr s => if contains s "LabeledRequest" then inr "LabeledRequest"
              else inl AttributeError
  | JNull | JBool _ | JNum _ => inl TypeError
  end.

Definition no_properties (def_key : string) : string :=
  "LabeledRequest schema for '" +:+ def_key +:+ "' has no 'properties' field.".

(** [props[field][name] = value], as the new value of [props] *)
Definition inject (field name : string) (value : json) (props : json) : outcome json :=
  match getitem props field with
  | inl e => inl e
  | inr entry =>
      match setitem entry name value with
      | inl e => inl e
      | inr entry' => setitem props field entry'
      end
  end.

(** The key of [schema] under which [_get_defs_container] found the
    container it returned. *)
Definition container_key (schema : dict) : string :=
  match get "$defs" schema with
  | Some v => if truthy v then "$defs" else "definitions"
  | None => "definitions"
  end.

Section schema.
(** [BatchResponse.model_json_schema()] *)
Variable model_json_schema : dict.

(** The edits are made in place, inside the document: what is
    returned is the document with the edited properties where the
    properties were. *)
Definition make_response_schema (allowed_priorities allowed_categories : list string)
  : outcome json :=
  let schema := model_json_schema in
  let defs := _get_defs_container schema in
  match _find_labeled_request_def_key defs with
  | inl e => inl e
  | inr def_key =>
      match getitem defs def_key with
      | inl e => inl e
      | inr labeled_schema =>
          match labeled_schema with
          | JObj members =>
              match get "properties" members with
              | None => inl (KeyError (no_properties def_key))
              | Some props =>
                  if negb (truthy props) then inl (KeyError (no_properties def_key))
                  else
                    match inject "Priority" "enum"
                            (JArr (JStr <$> allowed_priorities)) props with
                    | inl e => inl e
                    | inr props1 =>
                        match inject "Service_Category" "enum"
                                (JArr (JStr <$> allowed_categories)) props1 with
                        | inl e => inl e
                        | inr props2 =>
                            match inject "Suggested_Actions" "maxLength" (JNum 140)
                                    props2 with
                            | inl e => inl e
                            | inr props3 =>
                                match defs with
                                | JObj d =>
                                    inr (JObj
                                           (set (container_key schema)
                                              (JObj (set def_key
                                                       (JObj (set "properties" props3
                                                                members)) d))
                                              schema))
                                | _ => inl TypeError
                                end
                            end
                        end
                    end
              end
          | _ => inl AttributeError
          end
      end
  end.

End schema.

(** The three places [make_response_schema] writes to, below the
    properties of the definition. *)
Definition injected : list (list string) :=
  [["Priority"; "enum"]; ["Service_Category"; "enum"]; ["Suggested_Actions"; "maxLength"]].

(** Two paths part ways: at some position they hold different keys. *)
Definition parts_from (p q : list string) : Prop :=
  ∃ (i : nat) x y, p !! i = Some x ∧ q !! i = Some y ∧ x ≠ y.

(** The schema pydantic derives from the two classes of [schemas.py]. *)
Definition field (title type : string) (description : option string) : json :=
  JObj (match description with
        | Some d => [("description", JStr d)]
        | None => []
        end ++ [("title", JStr title); ("type", JStr type)]).

Definition batch_response_schema : dict :=
  [("$defs",
    JObj [("LabeledRequest",
           JObj [("properties",
                  JObj [("id", field "Id" "integer" None);
                        ("Priority",
                         field "Priority" "string"
                           (Some "One of the allowed Priority labels."));
                        ("Service_Category",
                         field "Service Category" "string"
                           (Some "One of the allowed Service Category labels."));
                        ("Suggested_Actions",
                         field "Suggested Actions" "string"
                           (Some "One sentence, <30 words, very general, no repair steps."))]);
                 ("required",
                  JArr [JStr "id"; JStr "Priority"; JStr "Service_Category";
                        JStr "Suggested_Actions"]);
                 ("title", JStr "LabeledRequest");
                 ("type", JStr "object")])]);
   ("properties",
    JObj [("results",
           JObj [("items", JObj [("$ref", JStr "#/$defs/LabeledRequest")]);
                 ("title", JStr "Results");
                 ("type", JStr "array")])]);
   ("required", JArr [JStr "results"]);
   ("title", JStr "BatchResponse");
   ("type", JStr "object")].

End SchemaDoc.
(** ** [app/streamlit_app.py]: the word count and the submit button *)

Module App.

(** [s.split()]: the maximal runs of characters that are no
    whitespace, in order. [word] is the run being read. *)
Fixpoint split_from (word s : string) : list string :=
  match s with
  | EmptyString => if decide (word = EmptyString) then [] else [word]
  | String c s' =>
      if Py.isspace c
      then if decide (word = EmptyString) then split_from EmptyString s'
           else word :: split_from EmptyString s'
      else split_from (word +:+ String c EmptyString) s'
  end.

Definition split (s : string) : list string := split_from EmptyString s.

(** [text] is [None] or a string. *)
Definition word_count (text : option string) : Z :=
  Z.of_nat (length (filter (λ w, w ≠ EmptyString)
                      (split (Py.strip (default EmptyString text))))).

Inductive mode := MODE_TYPED | MODE_EXAMPLES.

(** [client] and [demo_by_id] stand for [client is not None] and
    [demo_by_id is not None]. *)
Definition can_submit (mode : mode) (comment_text : string) (client demo_by_id : bool)
  : bool :=
  let can_submit :=
    bool_decide (Py.strip comment_text ≠ EmptyString)
    && bool_decide (word_count (Some comment_text) ≤ 100) in
  match mode with
  | MODE_TYPED => can_submit && client
  | MODE_EXAMPLES => can_submit && demo_by_id
  end.

End App.

(** * Properties *)

(** ** The batcher *)

Section chunked_facts.
Context {A : Type}.
Implicit Types (l : list A) (s m k : nat).

Lemma slice_nonneg l (k s : nat) :
  Py.slice l (Z.of_nat k) (Z.of_nat k + Z.of_nat s) = take s (drop k l).
Proof.
  unfold Py.slice, Py.slice_bound.
  repeat case_decide; try lia.
  destruct (decide (k ≤ length l)%nat) as [Hk|Hk].
  - replace (Z.to_nat (Z.of_nat k `min` Z.of_nat (length l))) with k by lia.
    destruct (decide (k + s ≤ length l)%nat).
    + f_equal. lia.
    + rewrite !take_ge; [done | rewrite length_drop; lia | rewrite length_drop; lia].
  - rewrite !drop_ge by lia. by rewrite !take_nil.
Qed.

Lemma chunked_pos l (s : nat) :
  (0 < s)%nat →
  chunked l (Z.of_nat s) =
    inr ((λ k : nat, take s (drop (k * s) l))
           <$> seq 0 (Z.to_nat (Py.range_length 0 (Z.of_nat (length l)) (Z.of_nat s)))).
Proof.
  intros Hs. unfold chunked, Py.range.
  case_decide; [lia|]. f_equal.
  rewrite <-list_fmap_compose. apply list_fmap_ext. intros _ k _. simpl.
  replace (0 + Z.of_nat k * Z.of_nat s) with (Z.of_nat (k * s)) by lia.
  apply slice_nonneg.
Qed.

Lemma concat_chunks l s m :
  concat ((λ k : nat, take s (drop (k * s) l)) <$> seq 0 m) = take (m * s) l.
Proof.
  induction m as [|m IH]; [done|].
  rewrite seq_S, fmap_app, concat_app, IH. simpl.
  rewrite app_nil_r, take_take_drop. f_equal. lia.
Qed.

Lemma range_length_ceil (L S : Z) :
  0 ≤ L → 0 < S → Py.range_length 0 L S = (L + S - 1) `div` S.
Proof.
  intros HL HS. unfold Py.range_length. repeat case_decide; try lia.
  - replace (L + S - 1) with (L - 0 - 1 + 1 * S) by lia.
    by rewrite Z.div_add by lia.
  - replace L with 0 by lia. symmetry. apply Z.div_small. lia.
Qed.

(** The number of groups, as a natural number, against the length. *)
Lemma ceil_bounds (L S : Z) :
  0 ≤ L → 0 < S →
  L ≤ (L + S - 1) `div` S * S ∧ ((L + S - 1) `div` S - 1) * S < L
  ∨ L = 0 ∧ (L + S - 1) `div` S = 0.
Proof.
  intros HL HS. destruct (decide (L = 0)) as [->|].
  { right. split; [done|]. apply Z.div_small. lia. }
  left.
  pose proof (Z.div_mod (L + S - 1) S ltac:(lia)).
  pose proof (Z.mod_pos_bound (L + S - 1) S ltac:(lia)). nia.
Qed.

Lemma chunked_concat (xs : list A) (S : Z) groups :
  0 < S → chunked xs S = inr groups → concat groups = xs.
Proof.
  intros HS. replace S with (Z.of_nat (Z.to_nat S)) by lia.
  rewrite chunked_pos by lia. intros [= <-].
  rewrite concat_chunks. apply take_ge.
  pose proof (range_length_ceil (Z.of_nat (length xs)) (Z.of_nat (Z.to_nat S))
                ltac:(lia) ltac:(lia)) as Hlen.
  pose proof (ceil_bounds (Z.of_nat (length xs)) (Z.of_nat (Z.to_nat S))
                ltac:(lia) ltac:(lia)) as Hceil.
  rewrite Hlen. 
  assert (0 ≤ (Z.of_nat (length xs) + Z.of_nat (Z.to_nat S) - 1)
                `div` Z.of_nat (Z.to_nat S)) by (apply Z.div_pos; lia).
  nia.
Qed.

(** C4. For a positive size [S], [chunked] yields [ceil(L/S)] groups
    whose concatenation is the sequence itself, every group but the
    last has exactly [S] elements, and no group is empty or longer
    than [S]. *)
Theorem chunked_partition (xs : list A) (S : Z) :
  0 < S →
  ∃ groups,
    chunked xs S = inr groups
    ∧ Z.of_nat (length groups) = (Z.of_nat (length xs) + S - 1) `div` S
    ∧ concat groups = xs
    ∧ (∀ (i : nat) g, groups !! i = Some g → (i + 1 < length groups)%nat →
                      Z.of_nat (length g) = S)
    ∧ (∀ g, g ∈ groups → 0 < Z.of_nat (length g) ≤ S).
Proof.
  intros HS.
  set (s := Z.to_nat S). assert (Hs : (0 < s)%nat) by lia.
  replace S with (Z.of_nat s) in * by lia. clearbody s.
  set (L := Z.of_nat (length xs)).
  pose proof (range_length_ceil L (Z.of_nat s) ltac:(lia) ltac:(lia)) as Hlen.
  pose proof (ceil_bounds L (Z.of_nat s) ltac:(lia) ltac:(lia)) as Hceil.
  eexists. split; [by apply chunked_pos|]. fold L. rewrite Hlen.
  set (m := (L + Z.of_nat s - 1) `div` Z.of_nat s) in *.
  assert (0 ≤ m) by (apply Z.div_pos; lia). clearbody m.
  rewrite length_fmap, length_seq.
  split_and!.
  - lia.
  - rewrite concat_chunks. apply take_ge. subst L. nia.
  - intros i g Hg Hi. rewrite list_lookup_fmap in Hg.
    destruct (seq 0 (Z.to_nat m) !! i) as [k|] eqn:Hk; [|done].
    apply lookup_seq in Hk as [-> _]. simpl in Hg. injection Hg as <-.
    rewrite length_take, length_drop. subst L.
    assert (Z.of_nat (0 + i) * Z.of_nat s + Z.of_nat s ≤ Z.of_nat (length xs)) by nia.
    nia.
  - intros g Hg. apply list_elem_of_fmap in Hg as (k & -> & Hk).
    apply elem_of_seq in Hk. rewrite length_take, length_drop. subst L.
    assert (Z.of_nat k * Z.of_nat s < Z.of_nat (length xs)) by nia.
    nia.
Qed.

(** C5, as the code has it. A size of zero makes [chunked] fail, with
    the [ValueError] of [range]; a negative size does not fail: the
    range is empty and [chunked] yields no group at all, whatever the
    sequence. *)
Theorem chunked_nonpositive_size (seq : list A) (n : Z) :
  n ≤ 0 →
  (n = 0 ∧ chunked seq n = inl (ValueError RangeStepZero))
  ∨ (n < 0 ∧ chunked seq n = inr []).
Proof.
  intros Hn. unfold chunked, Py.range, Py.range_length.
  destruct (decide (n = 0)) as [->|]; [by left|right].
  split; [lia|]. repeat case_decide; try lia. done.
Qed.

End chunked_facts.

Lemma chunked_partition_witness :
  0 < 2 ∧
  ∃ groups,
    chunked [10; 20; 30; 40; 50] 2 = inr groups
    ∧ Z.of_nat (length groups) = (Z.of_nat (length [10; 20; 30; 40; 50]) + 2 - 1) `div` 2
    ∧ concat groups = [10; 20; 30; 40; 50]
    ∧ (∀ (i : nat) g, groups !! i = Some g → (i + 1 < length groups)%nat →
                      Z.of_nat (length g) = 2)
    ∧ (∀ g, g ∈ groups → 0 < Z.of_nat (length g) ≤ 2).
Proof. split; [lia | apply (chunked_partition [10; 20; 30; 40; 50] 2); lia]. Defined.

(** C5, as stated, fails: with size [-1] nothing is raised and the
    three elements are silently dropped. *)
Lemma chunked_negative_size_silent :
  -1 ≤ 0 ∧ chunked [1; 2; 3] (-1) = inr [] ∧ ¬ ∃ e, chunked [1; 2; 3] (-1) = inl e.
Proof. split; [lia|]. split; [reflexivity|]. intros [e He]. discriminate He. Qed.

Lemma chunked_nonpositive_size_witness :
  -1 ≤ 0 ∧
  ((-1 = 0 ∧ chunked [1; 2; 3] (-1) = inl (ValueError RangeStepZero))
   ∨ (-1 < 0 ∧ chunked [1; 2; 3] (-1) = inr [])).
Proof. split; [lia | apply (chunked_nonpositive_size [1; 2; 3] (-1)); lia]. Defined.

(** ** Text normalisation *)

Section clean_text_facts.

Lemma filter_label_nil (c : string) (df : frame) :
  c ∉ Pd.columns df → filter (λ kv : string * list cell, kv.1 = c) df = [].
Proof.
  intros Hc. induction df as [|kv df IH]; [done|].
  unfold Pd.columns in *. rewrite fmap_cons, not_elem_of_cons in Hc.
  destruct Hc as [Hne Hc]. rewrite filter_cons_False by (simpl; congruence). auto.
Qed.

Lemma filter_label_singleton (c : string) (df : frame) kv0 :
  filter (λ kv : string * list cell, kv.1 = c) df = [kv0] →
  ∀ kv, kv ∈ df → kv.1 = c → kv = kv0.
Proof.
  intros Hf kv Hin Hkv.
  assert (kv ∈ filter (λ kv : string * list cell, kv.1 = c) df) as Hin'
    by (apply list_elem_of_filter; done).
  rewrite Hf in Hin'. by apply list_elem_of_singleton in Hin'.
Qed.

Lemma clean_column_ok c df df' :
  clean_column c df = inr df' → df' = normalize_column c df.
Proof.
  unfold clean_column, normalize_column. case_decide as Hc.
  - unfold Pd.getitem.
    destruct (filter _ df) as [|kv0 [|? ?]] eqn:Hf; try done.
    intros [= <-]. unfold Pd.setitem. rewrite decide_True by done.
    apply list_fmap_ext. intros _ kv Hkv%list_elem_of_lookup_2.
    case_decide as Heq; [|done].
    rewrite (filter_label_singleton _ _ _ Hf kv Hkv Heq). 
    assert (kv0.1 = c) as <-; [|done].
    assert (kv0 ∈ filter (λ kv : string * list cell, kv.1 = c) df) as Hin
      by (rewrite Hf; apply list_elem_of_here).
    by apply list_elem_of_filter in Hin as [? _].
  - intros [= <-]. symmetry. etrans; [|apply list_fmap_id].
    apply list_fmap_ext. intros _ kv Hkv%list_elem_of_lookup_2.
    case_decide as Heq; [|done]. exfalso. apply Hc. subst c.
    unfold Pd.columns. apply list_elem_of_fmap. eauto.
Qed.

Lemma clean_column_error c df e :
  clean_column c df = inl e → e = AttributeError.
Proof.
  unfold clean_column. case_decide as Hc; [|done].
  unfold Pd.getitem. destruct (filter _ df) as [|kv0 [|? ?]] eqn:Hf; try done.
  - exfalso. unfold Pd.columns in Hc. apply list_elem_of_fmap in Hc as (kv & -> & Hkv).
    assert (kv ∈ filter (λ kv' : string * list cell, kv'.1 = kv.1) df) as Hin
      by (apply list_elem_of_filter; done).
    rewrite Hf in Hin. by apply elem_of_nil in Hin.
  - by intros [= <-].
Qed.

(** The frame returned: the three text columns normalised, every
    other column as it was, labels and positions kept. *)
Lemma clean_frame_ok df df' :
  clean_frame df = inr df' →
  df' = (λ kv, if decide (kv.1 ∈ text_columns)
               then (kv.1, Pd.normalize_text kv.2) else kv) <$> df.
Proof.
  unfold clean_frame.
  destruct (clean_column "Service Comments" df) as [|df1] eqn:E1; [done|].
  destruct (clean_column "Priority" df1) as [|df2] eqn:E2; [done|].
  intros E3.
  apply clean_column_ok in E1 as ->. apply clean_column_ok in E2 as ->.
  apply clean_column_ok in E3 as ->.
  unfold normalize_column. rewrite <-!list_fmap_compose.
  apply list_fmap_ext. intros _ [c col] _. unfold text_columns. simpl.
  destruct (decide (c ∈ ["Service Comments"; "Priority"; "Service Category"]))
    as [Hc|Hc].
  - rewrite !elem_of_cons, elem_of_nil in Hc.
    destruct Hc as [->|[->|[->|[]]]]; reflexivity.
  - rewrite !not_elem_of_cons in Hc. destruct Hc as (? & ? & ? & _).
    simpl. rewrite (decide_False (P := c = "Service Comments")) by done. simpl.
    rewrite (decide_False (P := c = "Priority")) by done. simpl.
    by rewrite (decide_False (P := c = "Service Category")) by done.
Qed.

(** [clean_text] on the heap against [clean_frame] on the value: a new
    object is allocated, no object that existed is touched. *)
Lemma clean_text_heap (h : heap) (df : loc) (f : frame) :
  h !! df = Some f →
  ∃ h' r, clean_text df h = (h', r)
    ∧ (∀ l, l ∈ dom h → h' !! l = h !! l)
    ∧ match r with
      | inr df' => (df' ∉ dom h) ∧ ∃ f', clean_frame f = inr f' ∧ h' !! df' = Some f'
      | inl e => clean_frame f = inl e
      end.
Proof.
  intros Hdf. unfold clean_text, bind, copy, clean_column_at, ret, clean_frame.
  set (l := fresh_loc h). rewrite Hdf. simpl.
  assert (Hl : l ∉ dom h) by (subst l; unfold fresh_loc; apply is_fresh).
  assert (Hkeep : ∀ g l', l' ∈ dom h → (<[l := g]> h) !! l' = h !! l').
  { intros g l' Hl'. apply lookup_insert_ne. set_solver. }
  rewrite lookup_insert_eq. simpl.
  destruct (clean_column "Service Comments" f) as [e|f1]; simpl.
  { eexists _, _. split; [done|]. split; [apply Hkeep | done]. }
  rewrite insert_insert_eq, lookup_insert_eq. simpl.
  destruct (clean_column "Priority" f1) as [e|f2]; simpl.
  { eexists _, _. split; [done|]. split; [apply Hkeep | done]. }
  rewrite insert_insert_eq, lookup_insert_eq. simpl.
  destruct (clean_column "Service Category" f2) as [e|f3]; simpl.
  { eexists _, _. split; [done|]. split; [apply Hkeep | done]. }
  rewrite insert_insert_eq.
  eexists _, _. split; [done|]. split; [apply Hkeep|].
  split; [done|]. exists f3. by rewrite lookup_insert_eq.
Qed.

(** C10. [clean_text] leaves the frame it is given, and every other
    frame alive, as it was; what it returns is a new object with the
    same labels in the same positions (no column added, none dropped),
    in which every column other than ["Service Comments"], ["Priority"]
    and ["Service Category"] holds the cells of the input. *)
Theorem clean_text_frame (h : heap) (df : loc) (f : frame) :
  h !! df = Some f →
  ∃ h' r, clean_text df h = (h', r)
    ∧ h' !! df = Some f
    ∧ (∀ l, l ∈ dom h → h' !! l = h !! l)
    ∧ ∀ df', r = inr df' →
        df' ≠ df
        ∧ ∃ f', h' !! df' = Some f'
            ∧ Pd.columns f' = Pd.columns f
            ∧ (∀ (i : nat) c col, f !! i = Some (c, col) → c ∉ text_columns →
                                  f' !! i = Some (c, col))
            ∧ (∀ (i : nat) c col, f' !! i = Some (c, col) → c ∉ text_columns →
                                  f !! i = Some (c, col)).
Proof.
  intros Hdf. destruct (clean_text_heap h df f Hdf) as (h' & r & Hrun & Hkeep & Hr).
  assert (Hin : df ∈ dom h) by (apply elem_of_dom; eauto).
  exists h', r. split; [done|]. split; [by rewrite Hkeep|]. split; [done|].
  intros df' ->. destruct Hr as (Hfresh & f' & Hf' & Hlook).
  split; [congruence|]. exists f'. split; [done|].
  apply clean_frame_ok in Hf' as ->. split_and!.
  - unfold Pd.columns. rewrite <-list_fmap_compose. apply list_fmap_ext.
    intros _ [c col] _. simpl. by case_decide.
  - intros i c col Hi Hc. rewrite list_lookup_fmap, Hi. simpl.
    by rewrite decide_False.
  - intros i c col Hi Hc. rewrite list_lookup_fmap in Hi.
    destruct (f !! i) as [[c' col']|]; [|done]. simpl in Hi.
    case_decide; simplify_eq; done.
Qed.

End clean_text_facts.

Lemma clean_text_frame_witness :
  let f : frame := [("id", [CInt 1; CInt 2]);
                    ("Priority", [CStr " High "; CNa]);
                    ("Notes", [CStr " keep "; CNa])] in
  let h : heap := {[ 0%nat := f ]} in
  h !! 0%nat = Some f ∧
  ∃ h' r, clean_text 0%nat h = (h', r)
    ∧ h' !! 0%nat = Some f
    ∧ (∀ l, l ∈ dom h → h' !! l = h !! l)
    ∧ ∀ df', r = inr df' →
        df' ≠ 0%nat
        ∧ ∃ f', h' !! df' = Some f'
            ∧ Pd.columns f' = Pd.columns f
            ∧ (∀ (i : nat) c col, f !! i = Some (c, col) → c ∉ text_columns →
                                  f' !! i = Some (c, col))
            ∧ (∀ (i : nat) c col, f' !! i = Some (c, col) → c ∉ text_columns →
                                  f !! i = Some (c, col)).
Proof. intros f h. split; [reflexivity | apply (clean_text_frame h 0%nat f); reflexivity]. Defined.

(** The normalised columns of that example. *)
Example clean_frame_example :
  clean_frame [("id", [CInt 1; CInt 2]);
               ("Priority", [CStr " High "; CNa]);
               ("Notes", [CStr " keep "; CNa])]
  = inr [("id", [CInt 1; CInt 2]);
         ("Priority", [CStr "High"; CStr ""]);
         ("Notes", [CStr " keep "; CNa])].
Proof. reflexivity. Qed.

(** ** The label client adapter *)

Module AdapterFacts.
Import Schemas LabelBatch Ledger.

Lemma validate_dump_LabeledRequest (r : LabeledRequest) :
  validate_LabeledRequest (dump_LabeledRequest r) = Some r.
Proof. by destruct r. Qed.

Lemma validate_dump_results (rs : list LabeledRequest) :
  model_validate_json (Some (dump_results rs)) = inr {| results := rs |}.
Proof.
  assert (mapM validate_LabeledRequest (dump_LabeledRequest <$> rs) = Some rs) as Hrs.
  { apply mapM_Some. induction rs as [|r rs IH]; constructor; [|done].
    apply validate_dump_LabeledRequest. }
  unfold model_validate_json, dump_results.
  change (member "results" [("results", JArr (dump_LabeledRequest <$> rs))])
    with (Some (JArr (dump_LabeledRequest <$> rs))).
  cbv beta iota. by rewrite Hrs.
Qed.

Lemma model_validate_json_error text e :
  model_validate_json text = inl e → e = ValidationError.
Proof.
  unfold model_validate_json. intros H.
  repeat (match type of H with
          | context [match ?x with _ => _ end] => destruct x
          end; try done); congruence.
Qed.

(** What [label_one_batch] does: one call, then the validation of the
    answer against [BatchResponse]. *)
Lemma label_one_batch_unfold client batch schema si w :
  label_one_batch client batch schema si w
  = (emit (GenerateContent (request_for batch schema si)) w,
     model_validate_json (client (calls (trace w)) (request_for batch schema si))).
Proof. reflexivity. Qed.

(** C2, as the code has it. The only check on an answer is the shape
    of [BatchResponse]. An answer that carries a list of results in
    that shape is accepted and returned as it is, whatever the number
    of results, their ids, and their priority and category values are;
    and the only failure of the validation is [ValidationError]. *)
Theorem label_one_batch_accepts_shape client batch schema si w rs :
  client (calls (trace w)) (request_for batch schema si) = Some (dump_results rs) →
  label_one_batch client batch schema si w
  = (emit (GenerateContent (request_for batch schema si)) w, inr {| results := rs |}).
Proof.
  intros Hresp. rewrite label_one_batch_unfold, Hresp.
  by rewrite validate_dump_results.
Qed.

Lemma label_one_batch_error client batch schema si w e :
  (label_one_batch client batch schema si w).2 = inl e → e = ValidationError.
Proof. rewrite label_one_batch_unfold. apply model_validate_json_error. Qed.

End AdapterFacts.

(** C2, as stated, fails: two items are submitted with ids 1 and 2, the
    answer holds one result, with id 7 and a priority outside the allowed
    set; [label_one_batch] returns it instead of raising, and a run of
    [main] writes it to the snapshot. *)
Lemma label_one_batch_accepts_mismatch :
  let answer := Examples.drifting 0%nat
                  (Ledger.request_for Examples.submitted Examples.schema
                     (["High"; "Low"], ["Plumbing"])) in
  answer = Some (Schemas.dump_results [Examples.stray])
  ∧ length [Examples.stray] ≠ length Examples.submitted
  ∧ (Schemas.id Examples.stray ∉ LabelBatch.p_id <$> Examples.submitted)
  ∧ (Schemas.Priority Examples.stray ∉ Schemas.enum_Priority Examples.schema)
  ∧ (LabelBatch.label_one_batch Examples.drifting Examples.submitted
       Examples.schema (["High"; "Low"], ["Plumbing"]) Examples.start).2
    = inr {| Schemas.results := [Examples.stray] |}
  ∧ LabelBatch.PRED_CSV
      (LabelBatch.main 20 50 Examples.drifting Examples.start).1
    = Some [Examples.stray].
Proof.
  split_and!; try reflexivity.
  - simpl. lia.
  - vm_compute. intros H. repeat (apply elem_of_cons in H as [H|H]; [discriminate H|]).
    by apply elem_of_nil in H.
  - vm_compute. intros H. repeat (apply elem_of_cons in H as [H|H]; [discriminate H|]).
    by apply elem_of_nil in H.
Qed.

Lemma label_one_batch_accepts_shape_witness :
  Examples.drifting (LabelBatch.calls (LabelBatch.trace Examples.start))
    (Ledger.request_for Examples.submitted Examples.schema
       (["High"; "Low"], ["Plumbing"]))
  = Some (Schemas.dump_results [Examples.stray])
  ∧ LabelBatch.label_one_batch Examples.drifting Examples.submitted
      Examples.schema (["High"; "Low"], ["Plumbing"]) Examples.start
    = (LabelBatch.emit
         (LabelBatch.GenerateContent
            (Ledger.request_for Examples.submitted Examples.schema
               (["High"; "Low"], ["Plumbing"])))
         Examples.start,
       inr {| Schemas.results := [Examples.stray] |}).
Proof.
  split; [reflexivity|].
  apply (AdapterFacts.label_one_batch_accepts_shape Examples.drifting
           Examples.submitted Examples.schema (["High"; "Low"], ["Plumbing"])
           Examples.start [Examples.stray]).
  reflexivity.
Defined.

(** ** The merge into the snapshot *)

Section filter_facts.
Context {A : Type} (P : A → Prop) `{!∀ x, Decision (P x)}.

Lemma filter_all (l : list A) : (∀ x, x ∈ l → P x) → filter P l = l.
Proof.
  induction l as [|x l IH]; intros Hall; [done|].
  rewrite filter_cons_True by (apply Hall; left). f_equal. apply IH.
  intros y Hy. apply Hall. by right.
Qed.

Lemma filter_none (l : list A) : (∀ x, x ∈ l → ¬ P x) → filter P l = [].
Proof.
  induction l as [|x l IH]; intros Hall; [done|].
  rewrite filter_cons_False by (apply Hall; left). apply IH.
  intros y Hy. apply Hall. by right.
Qed.
End filter_facts.

Section drop_duplicates_facts.
Context {A : Type} (key : A → Z).
Implicit Types (l : list A) (r : A).



Lemma drop_duplicates_keys l z :
  z ∈ key <$> Pd.drop_duplicates key l ↔ z ∈ key <$> l.
Proof.
  induction l as [|r l IH]; [done|]. simpl.
  rewrite !elem_of_cons, <-IH, !list_elem_of_fmap.
  split.
  - intros [->|(r' & -> & Hr')]; [by left|].
    apply list_elem_of_filter in Hr' as [_ Hr']. right. eauto.
  - intros [->|(r' & -> & Hr')]; [by left|].
    destruct (decide (key r' = key r)) as [Heq|Hne]; [by left|].
    right. exists r'. split; [done|]. by apply list_elem_of_filter.
Qed.


Lemma drop_duplicates_NoDup l : NoDup (key <$> Pd.drop_duplicates key l).
Proof.
  induction l as [|r l IH]; simpl; constructor.
  - rewrite list_elem_of_fmap. intros (r' & Heq & Hr').
    apply list_elem_of_filter in Hr' as [Hne _]. congruence.
  - eapply sublist_NoDup; [exact IH|]. apply fmap_sublist, sublist_filter.
Qed.


(** The first row of a key is the one that stays. *)
Lemma head_filter_drop_duplicates l z :
  head (filter (λ r, key r = z) (Pd.drop_duplicates key l))
  = head (filter (λ r, key r = z) l).
Proof.
  induction l as [|r l IH]; [done|]. simpl.
  destruct (decide (key r = z)) as [Heq|Hne].
  - by rewrite !filter_cons_True by done.
  - rewrite !filter_cons_False by done. rewrite <-IH.
    rewrite list_filter_filter. f_equal. apply list_filter_iff.
    intros r'. split; [tauto|]. intros <-. split; [done|congruence].
Qed.

End drop_duplicates_facts.

Module LedgerFacts.
Import Schemas LabelBatch Ledger.



(** The snapshot after the closing statements of [main]. *)
Lemma merge_predictions_snapshot recs w :
  PRED_CSV (merge_predictions recs w).1 = merged (PRED_CSV w) recs.
Proof. by destruct recs. Qed.

Lemma merge_predictions_ok recs w : (merge_predictions recs w).2 = inr ().
Proof. by destruct recs. Qed.

Lemma merge_predictions_log recs w :
  PRED_JSONL (merge_predictions recs w).1 = PRED_JSONL w.
Proof. by destruct recs. Qed.

Lemma merge_predictions_trace recs w :
  ∃ new, trace (merge_predictions recs w).1 = trace w ++ new
         ∧ calls new = 0%nat
         ∧ ∀ cap, Print (ReachedDailyCallCap cap) ∉ new.
Proof.
  destruct recs as [|r recs].
  - exists [Print NoNewPredictions]. split_and!; [done..|].
    intros cap [=]%list_elem_of_singleton.
  - eexists [_; _]. simpl. split_and!; [by rewrite <-app_assoc|done|].
    intros cap Hin. repeat (apply elem_of_cons in Hin as [[=]|Hin]).
    by apply elem_of_nil in Hin.
Qed.


Section loop.
Variable K : Z.
Variable BATCH_SIZE : Z.
Variable client : genai_client.

Lemma calls_app t1 t2 : calls (t1 ++ t2) = (calls t1 + calls t2)%nat.
Proof. unfold calls. by rewrite filter_app, length_app. Qed.


(** The loop, when every answer validates: the calls it makes, what it
    appends to the log, and when it reports the cap. *)
Lemma label_batches_run schema si batches :
  answers client →
  ∀ calls_made all_records w,
  ∃ w' recs new,
    label_batches K client schema si batches calls_made all_records w
    = (w', inr (calls_made + Z.of_nat (calls new), all_records ++ recs))
    ∧ trace w' = trace w ++ new
    ∧ GEMINI_API_KEY w' = GEMINI_API_KEY w
    ∧ DATA w' = DATA w
    ∧ PRED_CSV w' = PRED_CSV w
    ∧ PRED_JSONL w'
      = (if decide (calls new = 0%nat) then PRED_JSONL w
         else Some (default [] (PRED_JSONL w) ++ recs))
    ∧ (calls new = 0%nat → recs = [])
    ∧ Z.of_nat (calls new)
      = Z.of_nat (length batches) `min` (0 `max` (K - calls_made))
    ∧ (Print (ReachedDailyCallCap K) ∈ new
       ↔ 0 `max` (K - calls_made) < Z.of_nat (length batches)).
Proof.
  intros Hanswers. induction batches as [|batch rest IH]; intros c all w.
  - exists w, [], []. simpl. unfold ret.
    change (calls []) with 0%nat.
    rewrite !app_nil_r, Z.add_0_r. split_and!; try done; [lia|].
    split; [by intros ?%elem_of_nil | intros ?; exfalso; lia].
  - simpl. destruct (decide (K ≤ c)) as [Hcap|Hcap].
    + exists (emit (Print (ReachedDailyCallCap K)) w), [],
        [Print (ReachedDailyCallCap K)].
      unfold bind, print, modify, ret. simpl.
      change (calls [Print (ReachedDailyCallCap K)]) with 0%nat.
      rewrite !app_nil_r, Z.add_0_r. split_and!; try done; [lia|].
      split; [lia | intros _; apply list_elem_of_here].
    + unfold bind at 1. rewrite AdapterFacts.label_one_batch_unfold.
      destruct (Hanswers (calls (trace w)) (request_for batch schema si))
        as [r ->]. unfold lift. simpl.
      unfold bind at 1. unfold append_jsonl, modify at 1. simpl.
      unfold bind at 1. unfold wait, modify at 1. simpl.
      match goal with
      | |- context [label_batches _ _ _ _ rest ?c1 ?all1 ?w1] =>
          destruct (IH c1 all1 w1)
            as (w' & recs & new & -> & Htr & Hkey & Hdata & Hcsv & Hlog
                & Hnone & Hcalls & Hprint)
      end.
      simpl in *.
      exists w', (results r ++ recs),
        (GenerateContent (request_for batch schema si)
           :: AppendJsonl (results r) :: Sleep RPM_SLEEP_SECONDS :: new).
      assert (calls (GenerateContent (request_for batch schema si)
           :: AppendJsonl (results r) :: Sleep RPM_SLEEP_SECONDS :: new)
              = S (calls new)) as Hc by done.
      rewrite Hc. split_and!.
      * rewrite <-app_assoc. do 3 f_equal. lia.
      * rewrite Htr, <-!app_assoc. done.
      * done.
      * done.
      * done.
      * rewrite Hlog. rewrite (decide_False (P := S (calls new) = 0%nat)) by lia.
        case_decide as Hz; [by rewrite (Hnone Hz), app_nil_r|].
        by rewrite <-app_assoc.
      * lia.
      * lia.
      * rewrite !elem_of_cons, Hprint.
        split; [intros [?|[?|[?|?]]]; try done; lia | intros ?; do 3 right; lia].
Qed.


(** With a classifier that echoes the ids it is sent, the results
    the loop gathers carry the ids of the batches it labeled. *)
Lemma label_batches_echo schema si batches :
  echoes client →
  ∀ calls_made all_records w,
  ∃ w' calls_made' recs,
    label_batches K client schema si batches calls_made all_records w
    = (w', inr (calls_made', all_records ++ recs))
    ∧ id <$> recs
      = p_id <$> concat (take (Z.to_nat (0 `max` (K - calls_made))) batches).
Proof.
  intros Hecho. induction batches as [|batch rest IH]; intros c all w.
  - exists w, c, []. simpl. unfold ret. rewrite app_nil_r, take_nil. done.
  - simpl. destruct (decide (K ≤ c)) as [Hcap|Hcap].
    + eexists _, c, []. unfold bind, print, modify, ret. simpl.
      rewrite app_nil_r. split; [done|].
      replace (Z.to_nat (0 `max` (K - c))) with 0%nat by lia. done.
    + unfold bind at 1. rewrite AdapterFacts.label_one_batch_unfold.
      destruct (Hecho (calls (trace w)) (request_for batch schema si))
        as (r & -> & Hids). unfold lift. simpl.
      unfold bind at 1. unfold append_jsonl, modify at 1. simpl.
      unfold bind at 1. unfold wait, modify at 1. simpl.
      match goal with
      | |- context [label_batches _ _ _ _ rest ?c1 ?all1 ?w1] =>
          destruct (IH c1 all1 w1) as (w' & c' & recs & -> & Hrecs)
      end.
      exists w', c', (results r ++ recs). split; [by rewrite <-app_assoc|].
      replace (Z.to_nat (0 `max` (K - c))) with (S (Z.to_nat (0 `max` (K - (c + 1)))))
        by lia.
      simpl. by rewrite !fmap_app, Hrecs, Hids.
Qed.

End loop.

End LedgerFacts.

Module OrchestratorFacts.
Import Schemas LabelBatch Ledger LedgerFacts.

Section run.
Variable K : Z.
Variable BATCH_SIZE : Z.
Variable client : genai_client.

Lemma main_pending w schema si rows :
  pending w = inr (schema, si, rows) →
  main K BATCH_SIZE client w
  = after_pending K BATCH_SIZE client schema si rows (emit MakeDirs w).
Proof.
  unfold pending, main, after_pending.
  unfold bind at 1. unfold get at 1.
  destruct (GEMINI_API_KEY w) as [[|a key]|]; try done.
  unfold bind at 1. unfold ensure_dir, modify.
  unfold bind at 1. unfold load_csv. simpl.
  destruct (DATA w) as [raw|]; [|done].
  unfold bind at 1. unfold lift at 1.
  destruct (clean_frame raw) as [|df]; [done|].
  unfold bind at 1. unfold lift at 1.
  destruct (Pd.getitem df "Priority") as [|priority]; [done|].
  unfold bind at 1. unfold lift at 1.
  destruct (Pd.getitem df "Service Category") as [|category]; [done|].
  unfold bind at 1. unfold get at 1.
  unfold bind at 1. unfold lift at 1.
  destruct (Pd.getitem df "id") as [|id_cells]; [done|].
  unfold bind at 1. unfold lift at 1.
  destruct (Pd.astype_int id_cells) as [|ids]; [done|].
  simpl.
  destruct (filter _ (seq 0 (length ids))) as [|i todo]; [by intros [= <- <- <-]|].
  unfold bind at 1. unfold lift at 1.
  destruct (Pd.getitem df "SR start date/time") as [|ts]; [done|].
  unfold bind at 1. unfold lift at 1.
  destruct (Pd.getitem df "Service Comments") as [|comments]; [done|].
  by intros [= <- <- <-].
Qed.

Lemma source_ids_pending w ids :
  source_ids w = inr ids →
  (∀ i, i ∈ ids → i ∈ read_done_ids (PRED_CSV w)) →
  ∃ schema si, pending w = inr (schema, si, []).
Proof.
  unfold source_ids, pending. intros Hids Hdone.
  destruct (GEMINI_API_KEY w) as [[|a key]|]; try done.
  destruct (DATA w) as [raw|]; [|done].
  destruct (clean_frame raw) as [|df]; [done|].
  destruct (Pd.getitem df "Priority") as [|priority]; [done|].
  destruct (Pd.getitem df "Service Category") as [|category]; [done|].
  destruct (Pd.getitem df "id") as [|id_cells]; [done|].
  rewrite Hids. rewrite filter_none; [by eexists _, _|].
  intros i Hi%elem_of_seq Hnot. apply Hnot, Hdone.
  apply list_elem_of_lookup. exists i. apply list_lookup_lookup_total_lt. lia.
Qed.




(** The early return of [main]. *)
Lemma main_nothing_pending w ids :
  source_ids w = inr ids →
  (∀ i, i ∈ ids → i ∈ read_done_ids (PRED_CSV w)) →
  main K BATCH_SIZE client w
  = (emit (Print AlreadyContainsAllIds) (emit MakeDirs w), inr ()).
Proof.
  intros Hids Hdone.
  destruct (source_ids_pending w ids Hids Hdone) as (schema & si & Hpending).
  by rewrite (main_pending w schema si [] Hpending).
Qed.

(** The ids of the source are those already done and those of the
    pending rows. *)
Lemma pending_source_ids w schema si rows :
  pending w = inr (schema, si, rows) →
  ∃ ids, source_ids w = inr ids
         ∧ ∀ i, i ∈ ids → i ∈ read_done_ids (PRED_CSV w) ∨ i ∈ p_id <$> rows.
Proof.
  unfold pending, source_ids.
  destruct (GEMINI_API_KEY w) as [[|a key]|]; try done.
  destruct (DATA w) as [raw|]; [|done].
  destruct (clean_frame raw) as [|df]; [done|].
  destruct (Pd.getitem df "Priority") as [|priority]; [done|].
  destruct (Pd.getitem df "Service Category") as [|category]; [done|].
  destruct (Pd.getitem df "id") as [|id_cells]; [done|].
  destruct (Pd.astype_int id_cells) as [|ids]; [done|].
  intros Hrows. exists ids. split; [done|]. intros i Hi.
  destruct (decide (i ∈ read_done_ids (PRED_CSV w))) as [|Hnot]; [by left|right].
  apply list_elem_of_lookup in Hi as [j Hj].
  assert (j ∈ filter (λ j, ids !!! j ∉ read_done_ids (PRED_CSV w)) (seq 0 (length ids)))
    as Hin.
  { apply list_elem_of_filter. split.
    - by rewrite (list_lookup_total_correct _ _ _ Hj).
    - apply elem_of_seq. apply lookup_lt_Some in Hj. lia. }
  destruct (filter _ (seq 0 (length ids))) as [|j0 todo] eqn:Htodo;
    [by apply elem_of_nil in Hin|].
  destruct (Pd.getitem df "SR start date/time") as [|ts]; [done|].
  destruct (Pd.getitem df "Service Comments") as [|comments]; [done|].
  injection Hrows as _ _ <-.
  apply list_elem_of_fmap.
  exists {| p_id := ids !!! j; p_ts := Pd.to_str (ts !!! j);
            p_comment := Pd.to_str (comments !!! j) |}.
  split; [simpl; by rewrite (list_lookup_total_correct _ _ _ Hj)|].
  exact (list_elem_of_fmap_2
           (λ i : nat, {| p_id := ids !!! i; p_ts := Pd.to_str (ts !!! i);
                          p_comment := Pd.to_str (comments !!! i) |}) _ _ Hin).
Qed.




End run.

(** A second run after a first one that labeled every pending record
    (no more batches than the cap, a classifier that echoes the ids it
    is sent): the first returns normally, and the second, whatever its
    classifier and constants, makes no call and leaves the snapshot and
    the log as the first left them. *)
Lemma second_run_no_calls K BATCH_SIZE client w schema si rows batches
    K2 BATCH_SIZE2 client2 :
  0 < BATCH_SIZE →
  echoes client →
  pending w = inr (schema, si, rows) →
  chunked rows BATCH_SIZE = inr batches →
  Z.of_nat (length batches) ≤ K →
  ∃ w1 w2,
    main K BATCH_SIZE client w = (w1, inr ())
    ∧ main K2 BATCH_SIZE2 client2 w1 = (w2, inr ())
    ∧ calls (trace w2) = calls (trace w1)
    ∧ PRED_CSV w2 = PRED_CSV w1
    ∧ PRED_JSONL w2 = PRED_JSONL w1.
Proof.
  intros HB Hecho Hpending Hchunk Hfit.
  destruct (pending_source_ids w schema si rows Hpending) as (ids & Hids & Hsplit).
  assert (∃ w1, main K BATCH_SIZE client w = (w1, inr ())
                ∧ source_ids w1 = inr ids
                ∧ ∀ i, i ∈ ids → i ∈ read_done_ids (PRED_CSV w1))
    as (w1 & Hrun1 & Hids1 & Hdone1).
  { rewrite (main_pending K BATCH_SIZE client w schema si rows Hpending).
    unfold after_pending. destruct rows as [|row rows].
    - eexists. split; [done|]. split; [done|]. simpl.
      intros i Hi. destruct (Hsplit i Hi) as [|Hin]; [done|].
      by apply elem_of_nil in Hin.
    - unfold bind at 1. unfold lift. rewrite Hchunk.
      destruct (label_batches_echo K client schema si batches Hecho 0 []
                  (emit MakeDirs w)) as (w' & c & recs & Hloop & Hrecs).
      assert (answers client) as Hanswers.
      { intros k req. destruct (Hecho k req) as (r & ? & _). eauto. }
      destruct (label_batches_run K client schema si batches Hanswers 0 []
                  (emit MakeDirs w))
        as (w'' & recs' & new & Hloop' & _ & Hkey & Hdata & Hcsv & _).
      rewrite Hloop in Hloop'. injection Hloop' as -> _ _.
      rewrite take_ge in Hrecs by lia.
      rewrite (chunked_concat _ _ _ HB Hchunk) in Hrecs.
      unfold bind. rewrite Hloop. simpl in *.
      pose proof (merge_predictions_ok recs w'') as Hok.
      pose proof (merge_predictions_snapshot recs w'') as Hsnap.
      assert (GEMINI_API_KEY (merge_predictions recs w'').1 = GEMINI_API_KEY w''
              ∧ DATA (merge_predictions recs w'').1 = DATA w'') as [Hkey' Hdata']
        by (by destruct recs).
      destruct (merge_predictions recs w'') as [w1 res]. simpl in *. subst res.
      exists w1. split; [done|]. split.
      + unfold source_ids in *. by rewrite Hkey', Hkey, Hdata', Hdata.
      + intros i Hi. rewrite Hsnap, Hcsv.
        assert (recs ≠ []) as Hne by (intros ->; done).
        assert (merged (PRED_CSV w) recs = Some (combined (PRED_CSV w) recs)) as ->
          by (by destruct recs).
        unfold read_done_ids at 1. apply elem_of_list_to_set.
        unfold combined.
        destruct (Hsplit i Hi) as [Hdone|Hnew].
        * unfold read_done_ids in Hdone.
          destruct (PRED_CSV w) as [existing|]; [|by apply elem_of_empty in Hdone].
          apply elem_of_list_to_set in Hdone.
          apply (drop_duplicates_keys id). rewrite fmap_app, elem_of_app. by left.
        * rewrite <-Hrecs in Hnew.
          destruct (PRED_CSV w) as [existing|]; [|done].
          apply (drop_duplicates_keys id). rewrite fmap_app, elem_of_app. by right. }
  exists w1. eexists. split; [done|].
  rewrite (main_nothing_pending K2 BATCH_SIZE2 client2 w1 ids Hids1 Hdone1).
  split; [done|]. simpl. split; [|done].
  rewrite !calls_app.
  change (calls [MakeDirs]) with 0%nat.
  change (calls [Print AlreadyContainsAllIds]) with 0%nat. lia.
Qed.

End OrchestratorFacts.

(** *** Concrete runs *)





(** That run, event by event: one call, then the cap. *)
Example quota_run_trace :
  LabelBatch.trace (LabelBatch.main 1 1 Examples.relabeling Examples.start).1
  = [LabelBatch.MakeDirs;
     LabelBatch.GenerateContent
       (Ledger.request_for [Examples.row1] Examples.schema (["High"; "Low"], ["Plumbing"]));
     LabelBatch.AppendJsonl [Examples.new1];
     LabelBatch.Sleep 13;
     LabelBatch.Print (LabelBatch.ReachedDailyCallCap 1);
     LabelBatch.ToCsv [Examples.new1];
     LabelBatch.Print (LabelBatch.SavedPredictions 1)].
Proof. reflexivity. Qed.



(** Two runs in a row: the first labels record 2, the second has
    nothing to do, makes no call and changes neither file. *)
Example resumed_twice :
  let w1 := (LabelBatch.main 20 50 Examples.echoing Examples.resumed).1 in
  let w2 := (LabelBatch.main 20 50 Examples.echoing w1).1 in
  LabelBatch.PRED_CSV w1 = Some [Examples.old1; Examples.new2]
  ∧ LabelBatch.calls (LabelBatch.trace w1) = 1%nat
  ∧ LabelBatch.calls (LabelBatch.trace w2) = 1%nat
  ∧ LabelBatch.PRED_CSV w2 = LabelBatch.PRED_CSV w1
  ∧ LabelBatch.PRED_JSONL w2 = LabelBatch.PRED_JSONL w1.
Proof. split_and!; reflexivity. Qed.

(** ** The curator: per-priority quotas *)

Module QuotaFacts.
Import Curator Quota.

Section dict_facts.
Implicit Types (d : gmap string Z) (k : string).

Lemma item_insert d k k' v :
  item (<[k:=v]> d) k' = if decide (k = k') then v else item d k'.
Proof. unfold item. rewrite lookup_insert. by case_decide. Qed.

Lemma dict_sum_empty : dict_sum ∅ = 0.
Proof. apply map_fold_empty. Qed.

Lemma dict_sum_insert_fresh d k v :
  d !! k = None → dict_sum (<[k:=v]> d) = v + dict_sum d.
Proof. intros Hk. unfold dict_sum. apply map_fold_insert_L; [intros; lia | done]. Qed.

Lemma dict_sum_insert d k v :
  dict_sum (<[k:=v]> d) = dict_sum d - item d k + v.
Proof.
  unfold item. destruct (d !! k) as [x|] eqn:Hk; simpl.
  - assert (dict_sum d = x + dict_sum (delete k d)) as ->.
    { rewrite <-(insert_delete_id d k x Hk) at 1.
      apply dict_sum_insert_fresh, lookup_delete_eq. }
    rewrite <-(insert_delete_eq d).
    rewrite dict_sum_insert_fresh by apply lookup_delete_eq. lia.
  - rewrite dict_sum_insert_fresh by done. lia.
Qed.

Lemma dict_sum_mono d1 d2 :
  dom d1 = dom d2 → (∀ k, item d1 k ≤ item d2 k) → dict_sum d1 ≤ dict_sum d2.
Proof.
  revert d2. induction d1 as [|k x d1 Hk IH] using map_ind; intros d2 Hdom Hle.
  - rewrite dom_empty_L in Hdom. symmetry in Hdom. apply dom_empty_inv_L in Hdom.
    by subst d2.
  - assert (is_Some (d2 !! k)) as [y Hy].
    { apply elem_of_dom. rewrite <-Hdom, dom_insert_L. set_solver. }
    rewrite <-(insert_delete_id d2 k y Hy).
    rewrite !dict_sum_insert_fresh by (done || apply lookup_delete_eq).
    assert (x ≤ y).
    { specialize (Hle k). unfold item in Hle.
      by rewrite lookup_insert_eq, Hy in Hle. }
    assert (dict_sum d1 ≤ dict_sum (delete k d2)); [|lia].
    apply IH.
    + rewrite dom_delete_L, <-Hdom, dom_insert_L.
      apply not_elem_of_dom in Hk. set_solver.
    + intros k'. specialize (Hle k'). unfold item in *.
      destruct (decide (k = k')) as [<-|Hne].
      * rewrite Hk, lookup_delete_eq. done.
      * by rewrite lookup_insert_ne, <-(lookup_delete_ne d2 k k') in Hle.
Qed.

Lemma keys_dom d k : k ∈ keys d ↔ k ∈ dom d.
Proof.
  unfold keys. rewrite list_elem_of_fmap, elem_of_dom. split.
  - intros ([k' x] & -> & Hin). apply elem_of_map_to_list in Hin. eauto.
  - intros [x Hx]. exists (k, x). split; [done|]. by apply elem_of_map_to_list.
Qed.

Lemma keys_NoDup d : NoDup (keys d).
Proof. apply NoDup_fst_map_to_list. Qed.

Lemma sorted_elem_of (l : list string) k : k ∈ Py.sorted l ↔ k ∈ l.
Proof. unfold Py.sorted. by rewrite merge_sort_Permutation. Qed.

Lemma sorted_NoDup (l : list string) : NoDup l → NoDup (Py.sorted l).
Proof. unfold Py.sorted. by rewrite merge_sort_Permutation. Qed.

Lemma dict_sum_list_to_map (l : list (string * Z)) :
  NoDup l.*1 → dict_sum (list_to_map l) = foldr Z.add 0 l.*2.
Proof.
  induction l as [|[k v] l IH]; intros Hnd.
  - apply dict_sum_empty.
  - rewrite fmap_cons in Hnd. apply NoDup_cons in Hnd as [Hk Hnd].
    rewrite list_to_map_cons, dict_sum_insert_fresh.
    + simpl. by rewrite IH.
    + by apply not_elem_of_list_to_map_1.
Qed.

End dict_facts.

(** *** The near-equal split *)

Section equal_split_facts.
Variables (base remainder : Z).

Lemma sum_shares (ps : list string) (s : nat) :
  0 ≤ remainder →
  foldr Z.add 0 (imap (λ i _, share base remainder (s + i)) ps)
  = Z.of_nat (length ps) * base
    + 0 `max` ((Z.of_nat (s + length ps) `min` remainder) - Z.of_nat s).
Proof.
  intros Hr. revert s. induction ps as [|p ps IH]; intros s.
  - simpl. lia.
  - rewrite imap_cons. simpl.
    rewrite (imap_ext _ (λ i _, share base remainder (S s + i))); [|intros; simpl; f_equal; lia].
    rewrite IH. unfold share. rewrite Nat.add_0_r. case_decide; lia.
Qed.

End equal_split_facts.

Lemma equal_split_alt (ps : list string) (n : Z) :
  equal_split ps n
  = list_to_map (imap (λ i p, (p, share (n `div` Z.of_nat (length ps))
                                     (n `mod` Z.of_nat (length ps)) i)) ps).
Proof. reflexivity. Qed.

Lemma imap_fst_share (ps : list string) (f : nat → Z) :
  (imap (λ i p, (p, f i)) ps).*1 = ps.
Proof.
  revert f. induction ps as [|p ps IH]; intros f; [done|].
  rewrite imap_cons. simpl. f_equal. apply (IH (f ∘ S)).
Qed.

Lemma imap_snd_share (ps : list string) (f : nat → Z) :
  (imap (λ i p, (p, f i)) ps).*2 = imap (λ i _, f i) ps.
Proof.
  revert f. induction ps as [|p ps IH]; intros f; [done|].
  rewrite !imap_cons. simpl. f_equal. apply (IH (f ∘ S)).
Qed.

Lemma equal_split_dom ps n : dom (equal_split ps n) = list_to_set ps.
Proof. rewrite equal_split_alt, dom_list_to_map_L. by rewrite imap_fst_share. Qed.

(** The [i]-th priority in sorted order gets [base], and one more when
    [i < remainder]. *)
Lemma equal_split_item ps n (i : nat) p :
  NoDup ps → ps !! i = Some p →
  item (equal_split ps n) p
  = n `div` Z.of_nat (length ps)
    + (if decide (Z.of_nat i < n `mod` Z.of_nat (length ps)) then 1 else 0).
Proof.
  intros Hnd Hi. rewrite equal_split_alt. unfold item.
  set (l := imap _ ps).
  assert ((list_to_map l : gmap string Z) !! p
          = Some (share (n `div` Z.of_nat (length ps)) (n `mod` Z.of_nat (length ps)) i))
    as Hp; [|by rewrite Hp].
  apply elem_of_list_to_map.
  - subst l. by rewrite imap_fst_share.
  - apply list_elem_of_lookup. exists i. subst l. by rewrite list_lookup_imap, Hi.
Qed.

Lemma equal_split_sum ps n :
  NoDup ps → ps ≠ [] → dict_sum (equal_split ps n) = n.
Proof.
  intros Hnd Hne. rewrite equal_split_alt.
  rewrite dict_sum_list_to_map by (by rewrite imap_fst_share).
  rewrite imap_snd_share.
  assert (0 < Z.of_nat (length ps)) as Hk
    by (destruct ps; [done|]; rewrite length_cons; lia).
  pose proof (Z.mod_pos_bound n _ Hk) as Hmod.
  pose proof (Z.div_mod n (Z.of_nat (length ps)) ltac:(lia)) as Hdiv.
  pose proof (sum_shares (n `div` Z.of_nat (length ps)) (n `mod` Z.of_nat (length ps))
                ps 0 ltac:(lia)) as Hsum.
  simpl in Hsum. rewrite Hsum. lia.
Qed.


(** *** Capping and reassignment *)

Section reassign_facts.
Variable counts : gmap string Z.
Implicit Types (t : gmap string Z) (d : Z) (ps order : list string).

Lemma cap_by_availability_from ps : ∀ t d0,
  (∀ p, p ∈ ps → p ∈ dom t) →
  ∃ t' d',
    foldl (λ '(targets, deficit) p,
             if decide (item counts p < item targets p)
             then (<[p := item counts p]> targets,
                   deficit + (item targets p - item counts p))
             else (targets, deficit)) (t, d0) ps = (t', d')
    ∧ dom t' = dom t
    ∧ d0 ≤ d'
    ∧ dict_sum t' + d' = dict_sum t + d0
    ∧ ∀ p, item t' p = if decide (p ∈ ps) then item t p `min` item counts p
                       else item t p.
Proof.
  induction ps as [|q ps IH]; intros t d0 Hdom.
  - exists t, d0. split_and!; try done; lia.
  - simpl. 
    assert (q ∈ dom t) as Hq by (apply Hdom; left).
    destruct (decide (item counts q < item t q)) as [Hlt|Hge].
    + destruct (IH (<[q := item counts q]> t) (d0 + (item t q - item counts q)))
        as (t' & d' & -> & Hd & Hle & Hsum & Hitem).
      { intros p Hp. rewrite dom_insert_L. apply elem_of_union_r, Hdom. by right. }
      exists t', d'. split_and!; [done| | lia | |].
      * rewrite Hd, dom_insert_L. set_solver.
      * rewrite Hsum, dict_sum_insert. lia.
      * intros p. rewrite Hitem, item_insert.
        destruct (decide (q = p)) as [<-|Hne].
        -- rewrite (decide_True (P := q ∈ q :: ps)) by left. case_decide; lia.
        -- destruct (decide (p ∈ ps)) as [Hin|Hnin].
           ++ by rewrite decide_True by (by right).
           ++ rewrite decide_False; [done|]. rewrite not_elem_of_cons. done.
    + destruct (IH t d0) as (t' & d' & -> & Hd & Hle & Hsum & Hitem).
      { intros p Hp. apply Hdom. by right. }
      exists t', d'. split_and!; try done.
      intros p. rewrite Hitem.
      destruct (decide (q = p)) as [<-|Hne].
      * rewrite (decide_True (P := q ∈ q :: ps)) by left. case_decide; lia.
      * destruct (decide (p ∈ ps)) as [Hin|Hnin].
        -- by rewrite decide_True by (by right).
        -- rewrite decide_False; [done|]. rewrite not_elem_of_cons. done.
Qed.

Lemma cap_by_availability_spec ps t :
  (∀ p, p ∈ ps → p ∈ dom t) →
  ∃ t' d',
    cap_by_availability counts ps t = (t', d')
    ∧ dom t' = dom t
    ∧ 0 ≤ d'
    ∧ dict_sum t' + d' = dict_sum t
    ∧ ∀ p, item t' p = if decide (p ∈ ps) then item t p `min` item counts p
                       else item t p.
Proof.
  intros Hdom. destruct (cap_by_availability_from ps t 0 Hdom)
    as (t' & d' & Heq & ? & ? & ? & ?).
  exists t', d'. split_and!; try done. lia.
Qed.

(** One pass: it keeps every quota within availability, moves
    [deficit] units at most, and either assigns at least one unit or
    finds no priority with spare capacity. *)
Lemma reassign_pass_spec order : ∀ t d b,
  0 < d →
  (∀ p, p ∈ order → p ∈ dom t) →
  (∀ p, item t p ≤ item counts p) →
  ∃ t' d' b',
    reassign_pass counts order t d b = (t', d', b')
    ∧ dom t' = dom t
    ∧ (∀ p, item t p ≤ item t' p ≤ item counts p)
    ∧ 0 ≤ d'
    ∧ dict_sum t' + d' = dict_sum t + d
    ∧ ((b' = b ∧ t' = t ∧ d' = d ∧ ∀ p, p ∈ order → item counts p ≤ item t p)
       ∨ (b' = true ∧ d' < d)).
Proof.
  induction order as [|q order IH]; intros t d b Hd Hdom Hfit.
  - exists t, d, b. split; [done|]. split; [done|].
    split; [intros p; specialize (Hfit p); lia|]. split; [lia|]. split; [lia|].
    left. split; [done|]. split; [done|]. split; [done|].
    by intros p ?%elem_of_nil.
  - simpl. assert (q ∈ dom t) as Hq by (apply Hdom; left).
    destruct (decide (item counts q - item t q ≤ 0)) as [Hno|Hspare].
    + destruct (IH t d b Hd) as (t' & d' & b' & -> & ? & ? & ? & ? & Hcase);
        [intros p Hp; apply Hdom; by right | done |].
      exists t', d', b'. do 5 (split; [done|]).
      destruct Hcase as [(-> & -> & -> & Hnone)|?]; [left|by right].
      do 3 (split; [done|]). intros p [->|?]%elem_of_cons; [lia|auto].
    + set (t1 := <[q := item t q + 1]> t).
      assert (dom t1 = dom t) as Hdom1 by (subst t1; rewrite dom_insert_L; set_solver).
      assert (∀ p, item t p ≤ item t1 p ≤ item counts p) as Hfit1.
      { intros p. subst t1. rewrite item_insert. specialize (Hfit p).
        case_decide; subst; lia. }
      assert (dict_sum t1 = dict_sum t + 1) as Hsum1
        by (subst t1; rewrite dict_sum_insert; lia).
      destruct (decide (d - 1 = 0)) as [Hz|Hnz].
      * exists t1, (d - 1), true. split; [done|]. split; [done|]. split; [done|].
        split; [lia|]. split; [lia|]. right. split; [done|lia].
      * destruct (IH t1 (d - 1) true)
          as (t' & d' & b' & -> & Hd' & Hfit' & ? & Hsum' & Hcase);
          [lia | intros p Hp; rewrite Hdom1; apply Hdom; by right
           | intros p; apply Hfit1 |].
        exists t', d', b'. split; [done|]. split; [congruence|].
        split; [intros p; specialize (Hfit1 p); specialize (Hfit' p); lia|].
        split; [done|]. split; [lia|].
        right. destruct Hcase as [(-> & -> & -> & _)|[-> ?]]; split; try done; lia.
Qed.

(** The reassignment loop, when the units still to assign fit in the
    rows available: all of them are assigned, and any [fuel] from
    [deficit] on gives the same result. *)
Lemma reassign_spec ps : ∀ fuel t d,
  0 ≤ d →
  (Z.to_nat d ≤ fuel)%nat →
  (∀ p, p ∈ ps ↔ p ∈ dom counts) →
  dom t = dom counts →
  (∀ p, item t p ≤ item counts p) →
  dict_sum t + d ≤ dict_sum counts →
  dom (reassign fuel counts ps t d) = dom counts
  ∧ (∀ p, item t p ≤ item (reassign fuel counts ps t d) p ≤ item counts p)
  ∧ dict_sum (reassign fuel counts ps t d) = dict_sum t + d
  ∧ ∀ fuel', (Z.to_nat d ≤ fuel')%nat →
             reassign fuel' counts ps t d = reassign fuel counts ps t d.
Proof.
  induction fuel as [|fuel IH]; intros t d Hd Hfuel Hps Hdom Hfit Hsum.
  - assert (d = 0) as -> by lia. simpl.
    split; [done|]. split; [intros p; specialize (Hfit p); lia|]. split; [lia|].
    intros [|fuel'] _; reflexivity.
  - simpl. destruct (decide (0 < d)) as [Hpos|Hzero].
    + set (order := merge_sort (by_target t) ps).
      assert (∀ p, p ∈ order ↔ p ∈ dom counts) as Horder.
      { intros p. subst order. by rewrite merge_sort_Permutation. }
      destruct (reassign_pass_spec order t d false Hpos)
        as (t1 & d1 & b1 & Hpass & Hdom1 & Hfit1 & Hd1 & Hsum1 & Hcase);
        [intros p Hp; rewrite Hdom; by apply Horder | done |].
      rewrite Hpass.
      destruct Hcase as [(-> & -> & -> & Hnone)|[-> Hless]].
      { exfalso. assert (dict_sum counts ≤ dict_sum t); [|lia].
        apply dict_sum_mono; [done|]. intros p.
        destruct (decide (p ∈ dom counts)) as [Hin|Hout].
        - apply Hnone. by apply Horder.
        - unfold item. apply not_elem_of_dom in Hout as Hc. rewrite Hc.
          rewrite <-Hdom in Hout. apply not_elem_of_dom in Hout. by rewrite Hout. }
      destruct (IH t1 d1) as (Hdom' & Hfit' & Hsum' & Hfuel');
        [lia | lia | done | congruence | intros p; apply Hfit1 | lia |].
      split; [done|].
      split; [intros p; specialize (Hfit1 p); specialize (Hfit' p); lia|].
      split; [lia|].
      intros [|fuel'] Hle; [lia|]. simpl.
      rewrite decide_True by done. fold order. rewrite Hpass.
      apply Hfuel'. lia.
    + assert (d = 0) as -> by lia.
      split; [done|]. split; [intros p; specialize (Hfit p); lia|]. split; [lia|].
      intros [|fuel'] _; reflexivity.
Qed.

End reassign_facts.


Lemma dict_sum_eq_pointwise (d1 d2 : gmap string Z) :
  dom d1 = dom d2 →
  (∀ k, item d1 k ≤ item d2 k) →
  dict_sum d1 = dict_sum d2 →
  ∀ k, item d1 k = item d2 k.
Proof.
  intros Hdom Hle Hsum k.
  destruct (decide (item d1 k = item d2 k)) as [|Hne]; [done|exfalso].
  assert (item d1 k < item d2 k) as Hlt by (specialize (Hle k); lia).
  assert (k ∈ dom d1) as Hk.
  { apply elem_of_dom. destruct (d1 !! k) eqn:H1; [eauto|exfalso].
    assert (d2 !! k = None) as H2 by (apply not_elem_of_dom; rewrite <-Hdom;
                                       by apply not_elem_of_dom).
    unfold item in Hlt. rewrite H1, H2 in Hlt. simpl in Hlt. lia. }
  assert (dict_sum (<[k := item d2 k]> d1) ≤ dict_sum d2) as Hbound.
  { apply dict_sum_mono.
    - rewrite dom_insert_L. set_solver.
    - intros k'. rewrite item_insert. case_decide; subst; [lia|apply Hle]. }
  rewrite dict_sum_insert in Hbound. lia.
Qed.

Section targets.
Variables (col : list string) (n : Z).

Let counts := value_counts (Py.strip <$> col).
Let priorities := Py.sorted (keys counts).
Let n' := n `min` dict_sum counts.

Lemma priorities_dom p : p ∈ priorities ↔ p ∈ dom counts.
Proof. unfold priorities. by rewrite sorted_elem_of, keys_dom. Qed.

Lemma priorities_NoDup : NoDup priorities.
Proof. apply sorted_NoDup, keys_NoDup. Qed.

(** The quotas, with the split they start from. *)
Lemma compute_priority_targets_spec :
  0 ≤ n →
  dom (_compute_priority_targets col n) = dom counts
  ∧ (∀ p, item (equal_split priorities n') p `min` item counts p
          ≤ item (_compute_priority_targets col n) p ≤ item counts p)
  ∧ dict_sum (_compute_priority_targets col n) = n'.
Proof.
  intros Hn. unfold _compute_priority_targets.
  fold counts. fold priorities. fold n'.
  pose proof priorities_dom as Hps. pose proof priorities_NoDup as Hnd.
  destruct (decide (priorities = [])) as [Hnil|Hne].
  - rewrite Hnil in Hps |- *.
    assert (dom counts = ∅) as Hempty.
    { apply set_eq. intros p. rewrite <-Hps. set_solver. }
    apply dom_empty_inv_L in Hempty as Hc.
    split; [by rewrite Hempty, dom_empty_L|].
    split; [intros p; rewrite Hc; unfold equal_split, item; simpl;
            rewrite !lookup_empty; simpl; lia|].
    subst n'. rewrite Hc, dict_sum_empty. lia.
  - assert (∀ a b : gmap string Z,
              match priorities with [] => a | _ :: _ => b end = b) as ->
      by (intros; destruct priorities; done).
    assert (dom (equal_split priorities n') = dom counts) as Hdom0.
    { rewrite equal_split_dom. apply set_eq. intros p.
      by rewrite elem_of_list_to_set, Hps. }
    destruct (cap_by_availability_spec counts priorities (equal_split priorities n'))
      as (t1 & d1 & -> & Hdom1 & Hd1 & Hsum1 & Hitem1).
    { intros p Hp. rewrite Hdom0. by apply Hps. }
    rewrite equal_split_sum in Hsum1 by done.
    assert (∀ p, item t1 p = item (equal_split priorities n') p `min` item counts p)
      as Hcap.
    { intros p. rewrite Hitem1. case_decide as Hin; [done|].
      assert (counts !! p = None) as Hc
        by (apply not_elem_of_dom; by rewrite <-Hps).
      assert (equal_split priorities n' !! p = None) as Hs
        by (apply not_elem_of_dom; rewrite Hdom0; by apply not_elem_of_dom).
      unfold item. rewrite Hc, Hs. simpl. lia. }
    destruct (reassign_spec counts priorities (Z.to_nat d1) t1 d1)
      as (Hdom' & Hfit' & Hsum' & _);
      [done | lia | done | congruence | intros p; rewrite Hcap; lia
       | subst n'; lia |].
    split; [done|]. split; [|lia].
    intros p. specialize (Hfit' p). rewrite <-Hcap. lia.
Qed.

End targets.

End QuotaFacts.

Module BalanceFacts.
Import Curator Quota QuotaFacts.

Global Instance by_target_trans targets : Transitive (by_target targets).
Proof.
  intros x y z [?|[Hxy ?]] [?|[Hyz ?]]; unfold by_target; [left; lia..|].
  right. split; [lia|]. by etrans.
Qed.

Global Instance by_target_total targets : Total (by_target targets).
Proof.
  intros x y. unfold by_target.
  destruct (Z.lt_total (item targets x) (item targets y)) as [?|[?|?]]; [auto| |auto].
  destruct (total String.le x y); auto.
Qed.

Section balance.
Variable counts : gmap string Z.
Implicit Types (t : gmap string Z) (d : Z) (rest : list string).

(** One pass keeps the quotas balanced: it visits the priorities from
    the least assigned on. [t0] is the table the pass started from. *)
Lemma reassign_pass_balanced t0 :
  balanced counts t0 →
  ∀ rest t d b,
    StronglySorted (by_target t0) rest →
    NoDup rest →
    (∀ p, p ∈ rest → p ∈ dom counts) →
    balanced counts t →
    (∀ p, p ∈ rest → item t p = item t0 p) →
    (∀ p, p ∈ dom counts → p ∉ rest →
          item t p = item t0 p + 1 ∨ item counts p ≤ item t p) →
    balanced counts (reassign_pass counts rest t d b).1.1.
Proof.
  intros Hbal0. induction rest as [|x rest IH];
    intros t d b Hsorted Hnd Hin Hbal Hsame Hdone; [done|].
  apply StronglySorted_inv in Hsorted as [Hsorted Hx].
  apply NoDup_cons in Hnd as [Hxr Hnd].
  assert (x ∈ dom counts) as Hxd by (apply Hin; left).
  simpl. destruct (decide (item counts x - item t x ≤ 0)) as [Hno|Hspare].
  - apply IH; [done|done| |done| |].
    + intros p Hp. apply Hin. by right.
    + intros p Hp. apply Hsame. by right.
    + intros p Hp Hnot. destruct (decide (p = x)) as [->|Hne]; [right; lia|].
      apply Hdone; [done|]. by apply not_elem_of_cons.
  - set (t1 := <[x := item t x + 1]> t).
    assert (Hx1 : item t1 x = item t0 x + 1).
    { subst t1. rewrite item_insert, decide_True by done.
      rewrite (Hsame x) by left. done. }
    assert (Hother : ∀ p, p ≠ x → item t1 p = item t p).
    { intros p Hp. subst t1. rewrite item_insert. by rewrite decide_False. }
    assert (balanced counts t1) as Hbal1.
    { intros p q Hpd Hq Hp.
      destruct (decide (q = x)) as [->|Hqx], (decide (p = x)) as [->|Hpx].
      - lia.
      - rewrite Hx1, (Hother p) in * by done.
        destruct (decide (p ∈ rest)) as [Hpr|Hpr].
        + rewrite (Hsame p) by (by right).
          rewrite Forall_forall in Hx. destruct (Hx p Hpr) as [?|[? _]]; lia.
        + destruct (Hdone p Hpd) as [Hinc|Hfull]; [by apply not_elem_of_cons|..];
            [|lia].
          assert (item t0 x ≤ item t0 p + 1); [|lia].
          apply Hbal0; [done|done|lia].
      - rewrite Hx1, (Hother q) by done.
        assert (item t q ≤ item t x + 1) by (apply Hbal; [done|done|lia]).
        rewrite (Hsame x) in * by left. lia.
      - rewrite (Hother p), (Hother q) in * by done. by apply Hbal. }
    destruct (decide (d - 1 = 0)); [done|].
    apply IH; [done|done| |done| |].
    + intros p Hp. apply Hin. by right.
    + intros p Hp. rewrite Hother by (intros ->; done). apply Hsame. by right.
    + intros p Hp Hnot. destruct (decide (p = x)) as [->|Hne]; [by left|].
      rewrite Hother by done. apply Hdone; [done|]. by apply not_elem_of_cons.
Qed.

Lemma reassign_balanced ps :
  NoDup ps →
  (∀ p, p ∈ ps ↔ p ∈ dom counts) →
  ∀ fuel t d, balanced counts t → balanced counts (reassign fuel counts ps t d).
Proof.
  intros Hnd Hps. induction fuel as [|fuel IH]; intros t d Hbal.
  - simpl. by case_decide.
  - simpl. case_decide; [|done].
    set (order := merge_sort (by_target t) ps).
    assert (balanced counts (reassign_pass counts order t d false).1.1) as Hpass.
    { apply (reassign_pass_balanced t Hbal); [| | |done|done|].
      - apply StronglySorted_merge_sort; apply _.
      - subst order. by rewrite merge_sort_Permutation.
      - intros p Hp. apply Hps. subst order. by rewrite merge_sort_Permutation in Hp.
      - intros p Hp Hnot. exfalso. apply Hnot. subst order.
        rewrite merge_sort_Permutation. by apply Hps. }
    destruct (reassign_pass counts order t d false) as [[t' d'] [|]]; [|done].
    by apply IH.
Qed.

(** When the units to assign are at least the rows left, the loop
    ends with every quota at availability. *)
Lemma reassign_saturates ps : ∀ fuel t d,
  0 ≤ d →
  (Z.to_nat d ≤ fuel)%nat →
  (∀ p, p ∈ ps ↔ p ∈ dom counts) →
  dom t = dom counts →
  (∀ p, item t p ≤ item counts p) →
  dict_sum counts ≤ dict_sum t + d →
  dom (reassign fuel counts ps t d) = dom counts
  ∧ ∀ p, item (reassign fuel counts ps t d) p = item counts p.
Proof.
  induction fuel as [|fuel IH]; intros t d Hd Hfuel Hps Hdom Hfit Hsum.
  - assert (d = 0) as -> by lia. simpl. split; [done|].
    apply dict_sum_eq_pointwise; [done|done|].
    pose proof (dict_sum_mono t counts Hdom Hfit). lia.
  - simpl. destruct (decide (0 < d)) as [Hpos|Hzero].
    + set (order := merge_sort (by_target t) ps).
      assert (∀ p, p ∈ order ↔ p ∈ dom counts) as Horder.
      { intros p. subst order. by rewrite merge_sort_Permutation. }
      destruct (reassign_pass_spec counts order t d false Hpos)
        as (t1 & d1 & b1 & Hpass & Hdom1 & Hfit1 & Hd1 & Hsum1 & Hcase);
        [intros p Hp; rewrite Hdom; by apply Horder | done |].
      rewrite Hpass.
      destruct Hcase as [(-> & -> & -> & Hnone)|[-> Hless]].
      * split; [done|]. intros p. specialize (Hfit p).
        destruct (decide (p ∈ dom counts)) as [Hin|Hout].
        -- apply Horder in Hin. specialize (Hnone p Hin). lia.
        -- unfold item. apply not_elem_of_dom in Hout as Hc. rewrite Hc.
           rewrite <-Hdom in Hout. apply not_elem_of_dom in Hout. by rewrite Hout.
      * apply IH; [lia | lia | done | congruence | intros p; apply Hfit1 | lia].
    + assert (d = 0) as -> by lia. split; [done|].
      apply dict_sum_eq_pointwise; [done|done|].
      pose proof (dict_sum_mono t counts Hdom Hfit). lia.
Qed.

End balance.

Lemma map_eq_item (m1 m2 : gmap string Z) :
  dom m1 = dom m2 → (∀ k, item m1 k = item m2 k) → m1 = m2.
Proof.
  intros Hdom Hitem. apply map_eq. intros k. specialize (Hitem k). unfold item in Hitem.
  destruct (m1 !! k) as [x|] eqn:H1.
  - assert (is_Some (m2 !! k)) as [y Hy]
      by (apply elem_of_dom; rewrite <-Hdom; apply elem_of_dom; eauto).
    rewrite Hy in Hitem |- *. simpl in Hitem. by subst.
  - symmetry. apply not_elem_of_dom. rewrite <-Hdom. by apply not_elem_of_dom.
Qed.

Section targets.
Variables (col : list string) (n : Z).

Let counts := value_counts (Py.strip <$> col).
Let priorities := Py.sorted (keys counts).
Let n' := n `min` dict_sum counts.

Lemma compute_priority_targets_balanced :
  balanced counts (_compute_priority_targets col n).
Proof.
  unfold _compute_priority_targets. fold counts. fold priorities. fold n'.
  pose proof (priorities_dom col) as Hps. pose proof (priorities_NoDup col) as Hnd.
  fold counts in Hps. fold priorities in Hps, Hnd.
  destruct (decide (priorities = [])) as [Hnil|Hne].
  { rewrite Hnil. intros p q Hp. exfalso. apply Hps in Hp. rewrite Hnil in Hp.
    by apply elem_of_nil in Hp. }
  assert (∀ a b : gmap string Z,
            match priorities with [] => a | _ :: _ => b end = b) as ->
    by (intros; destruct priorities; done).
  assert (dom (equal_split priorities n') = dom counts) as Hdom0.
  { rewrite equal_split_dom. apply set_eq. intros p.
    by rewrite elem_of_list_to_set, Hps. }
  destruct (cap_by_availability_spec counts priorities (equal_split priorities n'))
    as (t1 & d1 & -> & Hdom1 & Hd1 & Hsum1 & Hitem1).
  { intros p Hp. rewrite Hdom0. by apply Hps. }
  apply reassign_balanced; [done|done|].
  intros p q Hp Hq Hspare.
  apply Hps in Hp as Hp', Hq as Hq'.
  rewrite !Hitem1, !decide_True in * by done.
  apply list_elem_of_lookup in Hp' as [i Hi], Hq' as [j Hj].
  pose proof (equal_split_item priorities n' i p Hnd Hi) as Ep.
  pose proof (equal_split_item priorities n' j q Hnd Hj) as Eq.
  rewrite Ep in Hspare. rewrite Ep, Eq.
  repeat case_decide; lia.
Qed.

(** The quotas do not depend on whether the split starts from the
    requested size or from the size capped at the rows available. *)
Lemma compute_priority_targets_requested :
  0 ≤ n → _compute_priority_targets col n = quotas_from_requested_size col n.
Proof.
  intros Hn. destruct (decide (n ≤ dict_sum counts)) as [Hle|Hgt].
  { unfold _compute_priority_targets, quotas_from_requested_size.
    fold counts. by rewrite Z.min_l. }
  destruct (compute_priority_targets_spec col n Hn) as (Hdom & Hfit & Hsum).
  fold counts in Hdom, Hfit, Hsum. rewrite Z.min_r in Hsum by lia.
  assert (∀ p, item (_compute_priority_targets col n) p = item counts p) as Hcode.
  { apply dict_sum_eq_pointwise; [done| |done]. intros p. apply Hfit. }
  unfold quotas_from_requested_size. fold counts. fold priorities.
  pose proof (priorities_dom col) as Hps. pose proof (priorities_NoDup col) as Hnd.
  fold counts in Hps. fold priorities in Hps, Hnd.
  destruct (decide (priorities = [])) as [Hnil|Hne].
  { rewrite Hnil. unfold _compute_priority_targets. fold counts. fold priorities.
    by rewrite Hnil. }
  assert (∀ a b : gmap string Z,
            match priorities with [] => a | _ :: _ => b end = b) as ->
    by (intros; destruct priorities; done).
  assert (dom (equal_split priorities n) = dom counts) as Hdom0.
  { rewrite equal_split_dom. apply set_eq. intros p.
    by rewrite elem_of_list_to_set, Hps. }
  destruct (cap_by_availability_spec counts priorities (equal_split priorities n))
    as (t1 & d1 & -> & Hdom1 & Hd1 & Hsum1 & Hitem1).
  { intros p Hp. rewrite Hdom0. by apply Hps. }
  rewrite equal_split_sum in Hsum1 by done.
  destruct (reassign_saturates counts priorities (Z.to_nat d1) t1 d1)
    as (Hdom' & Hall); [done | lia | done | congruence | | lia |].
  { intros p. rewrite Hitem1. case_decide as Hin; [lia|].
    assert (counts !! p = None) as Hc
      by (apply not_elem_of_dom; by rewrite <-Hps).
    assert (equal_split priorities n !! p = None) as Hs
      by (apply not_elem_of_dom; rewrite Hdom0; by apply not_elem_of_dom).
    unfold item. rewrite Hc, Hs. done. }
  apply map_eq_item; [congruence|]. intros k. by rewrite Hcode, Hall.
Qed.

(** C6. The quotas [_compute_priority_targets] returns for a requested
    size [n >= 0]. They are the quotas of the algorithm that splits
    [n] itself ([base = n div #values], one more for the first
    [n mod #values] values in sorted order), caps at availability and
    redistributes the shortfall: the code splits [n' = min(n, rows)],
    which changes no quota. Every priority value of the table has a
    quota; no quota exceeds the rows available; the quotas sum to
    [min(n, rows)], so no slot is lost; each is at least its share of
    the split capped at availability, and exactly that share when no
    share exceeds availability; and the redistribution prefers the
    least assigned: a value that still has rows to give holds at most
    one slot fewer than any other. *)
Theorem priority_targets_quota :
  0 ≤ n →
  let base := n' `div` Z.of_nat (length priorities) in
  let remainder := n' `mod` Z.of_nat (length priorities) in
  let targets := _compute_priority_targets col n in
  targets = quotas_from_requested_size col n
  ∧ dom targets = dom counts
  ∧ (∀ p, item targets p ≤ item counts p)
  ∧ dict_sum targets = n `min` dict_sum counts
  ∧ (∀ (i : nat) p, priorities !! i = Some p →
       share base remainder i `min` item counts p ≤ item targets p)
  ∧ ((∀ (i : nat) p, priorities !! i = Some p → share base remainder i ≤ item counts p) →
     ∀ (i : nat) p, priorities !! i = Some p → item targets p = share base remainder i)
  ∧ balanced counts targets.
Proof.
  intros Hn base remainder targets.
  destruct (compute_priority_targets_spec col n Hn) as (Hdom & Hfit & Hsum).
  fold counts priorities n' targets in Hdom, Hfit, Hsum.
  pose proof (priorities_dom col) as Hps. pose proof (priorities_NoDup col) as Hnd.
  fold counts in Hps. fold priorities in Hps, Hnd.
  assert (∀ (i : nat) p, priorities !! i = Some p →
            item (equal_split priorities n') p = share base remainder i) as Hshare.
  { intros i p Hi. by apply equal_split_item. }
  split; [by apply compute_priority_targets_requested|].
  split; [done|]. split; [intros p; apply Hfit|]. split; [done|].
  split; [|split; [|apply compute_priority_targets_balanced]].
  - intros i p Hi. rewrite <-(Hshare i p Hi). apply Hfit.
  - intros Hroom i p Hi. rewrite <-(Hshare i p Hi). symmetry.
    assert (priorities ≠ []) as Hne by (intros Heq; by rewrite Heq in Hi).
    apply dict_sum_eq_pointwise.
    + rewrite Hdom, equal_split_dom. apply set_eq. intros q.
      by rewrite elem_of_list_to_set, Hps.
    + intros q. specialize (Hfit q).
      destruct (decide (q ∈ priorities)) as [Hq|Hq].
      * apply list_elem_of_lookup in Hq as [j Hj].
        specialize (Hroom j q Hj). rewrite <-(Hshare j q Hj) in Hroom. lia.
      * assert (item (equal_split priorities n') q = 0) as Hs.
        { unfold item. rewrite (proj1 (not_elem_of_dom _ _)); [done|].
          rewrite equal_split_dom, elem_of_list_to_set. done. }
        assert (item counts q = 0) as Hc.
        { unfold item. rewrite (proj1 (not_elem_of_dom _ _)); [done|].
          by rewrite <-Hps. }
        lia.
    + by rewrite equal_split_sum, Hsum by done.
Qed.

End targets.

End BalanceFacts.

(** The two populations of the specification: an even population gets an
    even split; with 5 rows of one value the other takes the 25 slots
    left. *)
Example priority_targets_even :
  map_to_list (Curator._compute_priority_targets (replicate 500 "A" ++ replicate 500 "B") 30)
  = [("A", 15); ("B", 15)].
Proof. vm_compute. reflexivity. Qed.

Example priority_targets_scarce :
  map_to_list (Curator._compute_priority_targets (replicate 5 "A" ++ replicate 995 "B") 30)
  = [("A", 5); ("B", 25)].
Proof. vm_compute. reflexivity. Qed.

Lemma priority_targets_quota_witness :
  0 ≤ 30 ∧
  let col := replicate 5 "A" ++ replicate 995 "B" in
  let counts := Curator.value_counts (Py.strip <$> col) in
  let priorities := Py.sorted (Curator.keys counts) in
  let n' := 30 `min` Curator.dict_sum counts in
  let base := n' `div` Z.of_nat (length priorities) in
  let remainder := n' `mod` Z.of_nat (length priorities) in
  let targets := Curator._compute_priority_targets col 30 in
  targets = Quota.quotas_from_requested_size col 30
  ∧ dom targets = dom counts
  ∧ (∀ p, Curator.item targets p ≤ Curator.item counts p)
  ∧ Curator.dict_sum targets = 30 `min` Curator.dict_sum counts
  ∧ (∀ (i : nat) p, priorities !! i = Some p →
       Quota.share base remainder i `min` Curator.item counts p ≤ Curator.item targets p)
  ∧ ((∀ (i : nat) p, priorities !! i = Some p →
        Quota.share base remainder i ≤ Curator.item counts p) →
     ∀ (i : nat) p, priorities !! i = Some p →
       Curator.item targets p = Quota.share base remainder i)
  ∧ Quota.balanced counts targets.
Proof.
  split; [lia|].
  apply (BalanceFacts.priority_targets_quota (replicate 5 "A" ++ replicate 995 "B") 30).
  lia.
Defined.

(** Fewer rows than requested: every row is taken, as the split of the
    requested size itself would have it. *)
Example priority_targets_short :
  map_to_list (Curator._compute_priority_targets (replicate 5 "A" ++ replicate 3 "B") 30)
  = [("A", 5); ("B", 3)]
  ∧ map_to_list (Quota.quotas_from_requested_size (replicate 5 "A" ++ replicate 3 "B") 30)
    = [("A", 5); ("B", 3)].
Proof. split; vm_compute; reflexivity. Qed.

(** ** The curator: failure paths *)

Module CuratorMainFacts.
Import Curator Demo.

Section main.
Variable permutation : Z → nat → list nat.
Variable sort_values : ∀ A : Type, (A → list Z) → list A → list A.

(** [main] from the point where the joined table is known. *)
Lemma main_joined w merged :
  joined_population w = inr merged →
  main permutation sort_values w
  = if decide (Z.of_nat (length merged) < N_EXAMPLES)
    then (w, inl (ValueError (NeedAtLeastJoinedRows N_EXAMPLES
                                (Z.of_nat (length merged)))))
    else
      match build_example_set permutation sort_values merged N_EXAMPLES SEED with
      | inl e => (w, inl e)
      | inr demo_df =>
          ({| SAMPLE_PATH := SAMPLE_PATH w; PREDICTIONS_PATH := PREDICTIONS_PATH w;
              OUT_PATH := Some demo_df;
              stdout := stdout w ++
                [SavedDemoExamples (Z.of_nat (length demo_df));
                 UniqueResidentPriorities
                   (Z.of_nat (length (remove_dups
                                        (resident_selected_priority <$> demo_df))));
                 UniqueResidentCategories
                   (Z.of_nat (length (remove_dups
                                        (resident_selected_category <$> demo_df))))] |},
           inr ())
      end.
Proof.
  unfold joined_population, main. intros Hj.
  unfold bind at 1. unfold read_csv at 1.
  destruct (SAMPLE_PATH w) as [sample_df|] eqn:Hs; [|done].
  unfold bind at 1. unfold read_csv at 1.
  destruct (PREDICTIONS_PATH w) as [predictions_df|] eqn:Hp; [|done].
  destruct (negb (subset_of_columns _ sample_df)); [done|].
  destruct (negb (subset_of_columns _ predictions_df)); [done|].
  unfold bind at 1. unfold lift at 1. rewrite Hj.
  case_decide; [done|].
  unfold bind at 1. unfold lift at 1.
  destruct (build_example_set _ _ merged N_EXAMPLES SEED) as [e|demo_df]; [done|].
  unfold bind, to_csv, print, modify. simpl. by rewrite Hs, Hp, <-!app_assoc.
Qed.

Lemma main_population_error w e :
  joined_population w = inl e → main permutation sort_values w = (w, inl e).
Proof.
  unfold joined_population, main.
  unfold bind at 1. unfold read_csv at 1.
  destruct (SAMPLE_PATH w) as [sample_df|]; [|by intros [= <-]].
  unfold bind at 1. unfold read_csv at 1.
  destruct (PREDICTIONS_PATH w) as [predictions_df|]; [|by intros [= <-]].
  destruct (negb (subset_of_columns _ sample_df)); [by intros [= <-]|].
  destruct (negb (subset_of_columns _ predictions_df)); [by intros [= <-]|].
  unfold bind at 1. unfold lift at 1. by intros ->.
Qed.

(** Whatever makes [main] fail, it fails before its only write. *)
Lemma main_failure_writes_nothing w e :
  (main permutation sort_values w).2 = inl e →
  (main permutation sort_values w).1 = w.
Proof.
  destruct (joined_population w) as [e'|merged] eqn:Hj.
  - by rewrite (main_population_error w e' Hj).
  - rewrite (main_joined w merged Hj). case_decide; [done|].
    by destruct (build_example_set _ _ merged N_EXAMPLES SEED).
Qed.

(** C9. When the joined table, after deduplication, has fewer rows
    than [N_EXAMPLES], [main] raises the error that says so (the
    [ValueError] "Need at least ... joined rows", this code's
    insufficient-data error) and the files are as they were: the
    demo-examples file is neither created nor modified. *)
Theorem insufficient_data w merged :
  joined_population w = inr merged →
  Z.of_nat (length merged) < N_EXAMPLES →
  main permutation sort_values w
  = (w, inl (ValueError (NeedAtLeastJoinedRows N_EXAMPLES (Z.of_nat (length merged))))).
Proof.
  intros Hj Hfew. rewrite (main_joined w merged Hj). by rewrite decide_True.
Qed.

End main.

End CuratorMainFacts.

Lemma insufficient_data_witness :
  Demo.joined_population Examples.ten_rows = inr Examples.ten_joined
  ∧ Z.of_nat (length Examples.ten_joined) < Curator.N_EXAMPLES
  ∧ Curator.main Curator.rotation Curator.merge_sort_values Examples.ten_rows
    = (Examples.ten_rows,
       inl (ValueError (NeedAtLeastJoinedRows Curator.N_EXAMPLES
                          (Z.of_nat (length Examples.ten_joined))))).
Proof.
  split; [reflexivity|]. split; [reflexivity|].
  apply (CuratorMainFacts.insufficient_data Curator.rotation Curator.merge_sort_values
           Examples.ten_rows Examples.ten_joined); reflexivity.
Defined.

(** The ten joined rows, with their text normalised. *)
Example ten_joined_rows :
  length Examples.ten_joined = 10%nat
  ∧ Curator.resident_selected_priority <$> Examples.ten_joined
    = replicate 5 "High" ++ replicate 5 "Low"
  ∧ Curator.comment <$> Examples.ten_joined = replicate 9 "leak" ++ [""].
Proof. split_and!; reflexivity. Qed.

(** ** The curator: determinism *)

Module SelectionFacts.
Import Curator Quota QuotaFacts.

Lemma key_le_trans : Transitive key_le.
Proof.
  intros k1. induction k1 as [|a k1 IH]; intros [|b k2] [|c k3]; simpl; try done.
  intros [?|[-> ?]] [?|[-> ?]]; [left; lia..|]. right. split; [done|]. by eapply IH.
Qed.

Lemma key_le_antisym k1 k2 : key_le k1 k2 → key_le k2 k1 → k1 = k2.
Proof.
  revert k2. induction k1 as [|a k1 IH]; intros [|b k2]; simpl; try done.
  intros [?|[-> ?]] [?|[? ?]]; try lia. f_equal. by apply IH.
Qed.

Global Instance by_key_trans {A} (key : A → list Z) : Transitive (by_key key).
Proof. intros x y z. unfold by_key. apply key_le_trans. Qed.

Lemma key_le_total : Total key_le.
Proof.
  intros k1. induction k1 as [|a k1 IH]; intros [|b k2]; simpl; try (by left); [by right|].
  destruct (IH k2); destruct (Z.lt_total a b) as [?|[->|?]]; auto.
Qed.

Global Instance by_key_total {A} (key : A → list Z) : Total (by_key key).
Proof. intros x y. unfold by_key. apply key_le_total. Qed.

Lemma NoDup_fmap_inj_on {A B} (f : A → B) (l : list A) x y :
  NoDup (f <$> l) → x ∈ l → y ∈ l → f x = f y → x = y.
Proof.
  induction l as [|z l IH]; [by intros _ ?%elem_of_nil|].
  rewrite fmap_cons, NoDup_cons. intros [Hz Hnd] Hx Hy Hxy.
  apply elem_of_cons in Hx as [->|Hx], Hy as [->|Hy]; [done| | |by apply IH].
  - exfalso. apply Hz. rewrite Hxy. by apply list_elem_of_fmap_2.
  - exfalso. apply Hz. rewrite <-Hxy. by apply list_elem_of_fmap_2.
Qed.

(** Rows whose keys end in pairwise distinct numbers have pairwise
    distinct keys. *)
Lemma keyed_NoDup {A} (key : A → list Z) (g : A → Z) (l : list A) :
  (∀ x, last (key x) = Some (g x)) → NoDup (g <$> l) → NoDup (key <$> l).
Proof.
  intros Hlast Hnd. apply NoDup_fmap_2_strong; [|by eapply NoDup_fmap_1].
  intros x y Hx Hy Hxy. apply (NoDup_fmap_inj_on g l); [done..|].
  assert (Some (g x) = Some (g y)) as [= ->]; [|done].
  by rewrite <-!Hlast, Hxy.
Qed.

(** On rows with pairwise distinct keys, every lawful sort returns the
    same list. *)
Lemma sorts_agree sortA sortB :
  sorts sortA → sorts sortB →
  ∀ A (key : A → list Z) (l : list A),
    NoDup (key <$> l) → sortA A key l = sortB A key l.
Proof.
  intros HA HB A key l Hnd.
  destruct (HA A key l) as [PA SA], (HB A key l) as [PB SB].
  apply (Sorted_unique_strong (by_key key)); [|done|done|by rewrite PA, PB].
  intros x y Hx Hy Hxy Hyx. rewrite PA in Hx. rewrite PB in Hy.
  apply (NoDup_fmap_inj_on key l); [done..|]. by apply key_le_antisym.
Qed.

Lemma merge_sort_values_sorts : sorts merge_sort_values.
Proof.
  intros A key l. split; [apply merge_sort_Permutation|].
  apply (Sorted_merge_sort (by_key key)).
Qed.

Lemma swapping_sort_values_sorts : sorts swapping_sort_values.
Proof.
  intros A key l. destruct (merge_sort_values_sorts A key l) as [Hperm Hsorted].
  unfold swapping_sort_values.
  destruct (merge_sort_values A key l) as [|a [|b rest]]; [done..|].
  case_decide as Hba; [|done]. split; [by rewrite <-Hperm, Permutation_swap|].
  apply Sorted_inv in Hsorted as [Hsorted Hab].
  apply Sorted_inv in Hsorted as [Hrest Hb].
  apply HdRel_inv in Hab.
  constructor; [constructor; [done|]|by constructor].
  destruct Hb as [|c rest Hbc]; constructor. by etrans.
Qed.

End SelectionFacts.

Module DeterminismFacts.
Import Curator Quota QuotaFacts SelectionFacts.

Section agree.
Variables sortA sortB : ∀ A : Type, (A → list Z) → list A → list A.
Hypothesis HA : sorts sortA.
Hypothesis HB : sorts sortB.
Variable rng : list (Z * example).
Hypothesis Hrng : NoDup rng.*1.

Lemma filter_rng_NoDup (P : Z * example → Prop) `{!∀ r, Decision (P r)} :
  NoDup (filter P rng).*1.
Proof. eapply sublist_NoDup; [exact Hrng|]. apply fmap_sublist, sublist_filter. Qed.

Lemma pick_agree priority st made_pick :
  pick sortA rng priority st made_pick = pick sortB rng priority st made_pick.
Proof.
  unfold pick. case_decide; [done|].
  set (candidates := filter _ rng).
  rewrite (sorts_agree sortA sortB HA HB _ (candidate_key st priority) candidates);
    [done|].
  apply (keyed_NoDup _ fst); [done|]. apply filter_rng_NoDup.
Qed.

Lemma pick_each_agree priorities : ∀ st made_pick,
  pick_each sortA rng priorities st made_pick
  = pick_each sortB rng priorities st made_pick.
Proof.
  induction priorities as [|p ps IH]; intros st b; [done|].
  simpl. rewrite pick_agree.
  destruct (pick sortB rng p st b) as [e|[st' b']]; [done|]. apply IH.
Qed.

Lemma round_robin_agree fuel priorities : ∀ st,
  round_robin sortA fuel rng priorities st = round_robin sortB fuel rng priorities st.
Proof.
  induction fuel as [|fuel IH]; intros st; [done|].
  simpl. case_decide; [|done]. rewrite pick_each_agree.
  destruct (pick_each sortB rng priorities st false) as [e|[st' [|]]]; [done| |done].
  apply IH.
Qed.

Lemma top_up_agree st n : top_up sortA rng st n = top_up sortB rng st n.
Proof.
  unfold top_up. case_decide; [|done].
  set (remaining_rows := filter _ rng).
  rewrite (sorts_agree sortA sortB HA HB _ (top_up_key st) remaining_rows); [done|].
  apply (keyed_NoDup _ fst); [done|]. apply filter_rng_NoDup.
Qed.

End agree.

Lemma imap_order_fst {A} (l : list A) (s : nat) :
  (imap (λ i r, (Z.of_nat (s + i), r)) l).*1 = Z.of_nat <$> seq s (length l).
Proof.
  revert s. induction l as [|x l IH]; intros s; [done|].
  change (seq s (length (x :: l))) with (s :: seq (S s) (length l)).
  rewrite imap_cons, !fmap_cons, <-(IH (S s)). cbn [fst]. rewrite Nat.add_0_r.
  do 2 f_equal. apply imap_ext. intros i y _. simpl. do 2 f_equal. lia.
Qed.

(** The [_order] column numbers the shuffled rows: no two alike. *)
Lemma order_NoDup {A} (l : list A) : NoDup (imap (λ i r, (Z.of_nat i, r)) l).*1.
Proof.
  pose proof (imap_order_fst l 0) as Hfst. simpl in Hfst. rewrite Hfst.
  apply NoDup_fmap_2; [apply _|apply NoDup_seq].
Qed.

(** C8. [build_example_set] is a function of the rows, of [n] and of
    the seed alone: with the order that the seed draws for a number of
    rows fixed ([permutation]), two invocations on the same rows with
    the same [n] and seed return the same examples in the same order,
    whichever lawful sort each of them runs and whatever that sort does
    with equal keys. The keys end in [_order], which numbers the rows, so
    ties do not occur; the sets are used for membership only. *)
Theorem build_example_set_deterministic
    (permutation : Z → nat → list nat)
    (sortA sortB : ∀ A : Type, (A → list Z) → list A → list A)
    (df : list example) (n seed : Z) :
  sorts sortA → sorts sortB →
  build_example_set permutation sortA df n seed
  = build_example_set permutation sortB df n seed.
Proof.
  intros HA HB. unfold build_example_set. destruct df as [|r df]; [done|].
  set (rng := imap _ (sample permutation (r :: df) seed)).
  pose proof (order_NoDup (sample permutation (r :: df) seed)) as Hrng.
  fold rng in Hrng.
  rewrite (round_robin_agree sortA sortB HA HB rng Hrng).
  destruct (round_robin sortB _ rng _ _) as [e|st]; [done|].
  by rewrite (top_up_agree sortA sortB HA HB rng Hrng).
Qed.


(** *** The selection loop returns, and its fuel is enough *)

Section total.
Variable sort_values : ∀ A : Type, (A → list Z) → list A → list A.
Hypothesis Hsort : sorts sort_values.
Variable rng : list (Z * example).

(** One step of a pass: it does not raise, it never raises the sum of
    the quotas left, and it lowers that sum when it makes the first
    pick of the pass. *)
Lemma pick_total priority st made_pick :
  ∃ st' made_pick',
    pick sort_values rng priority st made_pick = inr (st', made_pick')
    ∧ dict_sum (remaining st') ≤ dict_sum (remaining st)
    ∧ (made_pick' = made_pick
       ∨ (made_pick' = true ∧ dict_sum (remaining st') < dict_sum (remaining st))).
Proof.
  unfold pick. case_decide as Hrem.
  { exists st, made_pick. split; [done|]. split; [lia|by left]. }
  set (candidates := filter _ rng).
  destruct candidates as [|c cs] eqn:Hc.
  { eexists _, _. split; [done|]. simpl. rewrite dict_sum_insert.
    split; [lia|by left]. }
  destruct (Hsort _ (candidate_key st priority) (c :: cs)) as [Hperm _].
  destruct (sort_values _ (candidate_key st priority) (c :: cs)) as [|row rows].
  { by apply Permutation_nil_cons in Hperm. }
  eexists _, _. split; [done|]. simpl. rewrite dict_sum_insert.
  split; [lia|]. right. split; [done|lia].
Qed.

Lemma pick_each_total priorities : ∀ st made_pick,
  ∃ st' made_pick',
    pick_each sort_values rng priorities st made_pick = inr (st', made_pick')
    ∧ dict_sum (remaining st') ≤ dict_sum (remaining st)
    ∧ (made_pick' = made_pick
       ∨ (made_pick' = true ∧ dict_sum (remaining st') < dict_sum (remaining st))).
Proof.
  induction priorities as [|p ps IH]; intros st b.
  { exists st, b. split; [done|]. split; [lia|by left]. }
  simpl. destruct (pick_total p st b) as (st1 & b1 & -> & Hle1 & Hcase1).
  destruct (IH st1 b1) as (st' & b' & -> & Hle & Hcase).
  exists st', b'. split; [done|]. split; [lia|].
  destruct Hcase as [->|[-> ?]], Hcase1 as [->|[-> ?]]; auto; right; split; (done || lia).
Qed.

(** The loop does not raise, and from [sum(remaining.values())] on
    every [fuel] gives the same state: the loop leaves through its own
    exits. *)
Lemma round_robin_total priorities : ∀ fuel st,
  (Z.to_nat (dict_sum (remaining st)) ≤ fuel)%nat →
  ∃ st',
    round_robin sort_values fuel rng priorities st = inr st'
    ∧ ∀ fuel', (fuel ≤ fuel')%nat →
               round_robin sort_values fuel' rng priorities st = inr st'.
Proof.
  induction fuel as [|fuel IH]; intros st Hfuel.
  - exists st. simpl. case_decide; [lia|]. split; [done|].
    intros [|fuel'] _; simpl; by rewrite decide_False.
  - simpl. case_decide as Hpos.
    + destruct (pick_each_total priorities st false) as (st1 & b1 & Hpass & Hle & Hcase).
      rewrite Hpass. destruct Hcase as [->|[-> Hlt]].
      * exists st1. split; [done|].
        intros [|fuel'] Hle'; [lia|]. simpl.
        by rewrite decide_True, Hpass by done.
      * destruct (IH st1) as (st' & Hrun & Hmore); [lia|].
        exists st'. split; [done|].
        intros [|fuel'] Hle'; [lia|]. simpl.
        rewrite decide_True, Hpass by done. apply Hmore. lia.
    + exists st. split; [done|].
      intros [|fuel'] _; simpl; by rewrite decide_False.
Qed.

End total.

(** With a lawful sort [build_example_set] returns a table: the
    [IndexError] of [.iloc[0]] cannot occur. *)
Lemma build_example_set_total permutation sort_values df n seed :
  sorts sort_values →
  ∃ examples, build_example_set permutation sort_values df n seed = inr examples.
Proof.
  intros Hsort. unfold build_example_set. destruct df as [|r df]; [by eexists|].
  match goal with
  | |- context [round_robin _ ?fuel ?rng ?ps ?st] =>
      destruct (round_robin_total sort_values Hsort rng ps fuel st) as (st' & -> & _);
        [done|]
  end.
  by eexists.
Qed.

End DeterminismFacts.

(** Five examples out of eight tickets: two, two and one per priority,
    over four categories. *)
Example build_example_set_ids :
  match Curator.build_example_set Curator.rotation Curator.merge_sort_values
          Examples.population 5 42 with
  | inr examples => Curator.id <$> examples
  | inl _ => []
  end = [8; 1; 5; 3; 4].
Proof. vm_compute. reflexivity. Qed.

Lemma build_example_set_deterministic_witness :
  Curator.sorts Curator.merge_sort_values
  ∧ Curator.sorts Curator.swapping_sort_values
  ∧ Curator.build_example_set Curator.rotation Curator.merge_sort_values
      Examples.population 5 42
    = Curator.build_example_set Curator.rotation Curator.swapping_sort_values
        Examples.population 5 42.
Proof.
  split; [exact SelectionFacts.merge_sort_values_sorts|].
  split; [exact SelectionFacts.swapping_sort_values_sorts|].
  apply (DeterminismFacts.build_example_set_deterministic Curator.rotation
           Curator.merge_sort_values Curator.swapping_sort_values
           Examples.population 5 42).
  - exact SelectionFacts.merge_sort_values_sorts.
  - exact SelectionFacts.swapping_sort_values_sorts.
Defined.

(** ** More on the batcher *)

Section chunked_more.
Context {A : Type}.
Implicit Types (xs g : list A) (n S : Z).



Lemma chunked_sizes xs S groups g :
  0 < S → chunked xs S = inr groups → g ∈ groups → 0 < Z.of_nat (length g) ≤ S.
Proof.
  intros HS. replace S with (Z.of_nat (Z.to_nat S)) by lia.
  rewrite chunked_pos by lia. intros [= <-] (k & -> & Hk)%list_elem_of_fmap.
  apply elem_of_seq in Hk. rewrite length_take, length_drop.
  pose proof (range_length_ceil (Z.of_nat (length xs)) (Z.of_nat (Z.to_nat S))
                ltac:(lia) ltac:(lia)) as Hlen.
  pose proof (ceil_bounds (Z.of_nat (length xs)) (Z.of_nat (Z.to_nat S))
                ltac:(lia) ltac:(lia)) as Hceil.
  rewrite Hlen in Hk.
  set (m := (Z.of_nat (length xs) + Z.of_nat (Z.to_nat S) - 1) `div` Z.of_nat (Z.to_nat S))
    in *.
  assert (0 ≤ m) by (apply Z.div_pos; lia). clearbody m.
  assert (Z.of_nat k * Z.of_nat (Z.to_nat S) < Z.of_nat (length xs)) by nia.
  nia.
Qed.

(** X1. The element at position [i] of the sequence is the element at
    offset [i mod S] of group [i div S]: for a positive size, looking
    an element up through the groups gives what the sequence holds
    at that position, and nothing beyond its end. *)
Theorem chunked_lookup xs S groups (i : nat) :
  0 < S →
  chunked xs S = inr groups →
  groups !! Z.to_nat (Z.of_nat i `div` S) ≫= (.!! Z.to_nat (Z.of_nat i `mod` S))
  = xs !! i.
Proof.
  intros HS. replace S with (Z.of_nat (Z.to_nat S)) by lia.
  set (s := Z.to_nat S). assert (0 < s)%nat as Hs by lia. clearbody s.
  rewrite chunked_pos by lia. intros [= <-].
  pose proof (range_length_ceil (Z.of_nat (length xs)) (Z.of_nat s)
                ltac:(lia) ltac:(lia)) as Hlen.
  pose proof (ceil_bounds (Z.of_nat (length xs)) (Z.of_nat s)
                ltac:(lia) ltac:(lia)) as Hceil.
  rewrite Hlen.
  set (m := (Z.of_nat (length xs) + Z.of_nat s - 1) `div` Z.of_nat s) in *.
  assert (0 ≤ m) by (apply Z.div_pos; lia). clearbody m.
  pose proof (Z.div_mod (Z.of_nat i) (Z.of_nat s) ltac:(lia)) as Hdm.
  pose proof (Z.mod_pos_bound (Z.of_nat i) (Z.of_nat s) ltac:(lia)) as Hmod.
  assert (0 ≤ Z.of_nat i `div` Z.of_nat s) as Hq by (apply Z.div_pos; lia).
  set (q := Z.of_nat i `div` Z.of_nat s) in *.
  set (r := Z.of_nat i `mod` Z.of_nat s) in *. clearbody q r.
  rewrite list_lookup_fmap.
  destruct (decide (i < length xs)%nat) as [Hi|Hi].
  - assert (Z.to_nat q < Z.to_nat m)%nat as Hqm by nia.
    rewrite (lookup_seq_lt _ _ _ Hqm). simpl.
    rewrite lookup_take_lt by lia. rewrite lookup_drop. f_equal. nia.
  - rewrite (lookup_ge_None_2 xs i) by lia.
    destruct (seq 0 (Z.to_nat m) !! Z.to_nat q) as [k|] eqn:Hk; [|done].
    apply lookup_seq in Hk as [-> _]. simpl.
    destruct (decide (Z.to_nat r < s)%nat); [|lia].
    rewrite lookup_take_lt by lia. rewrite lookup_drop.
    apply lookup_ge_None_2. nia.
Qed.

End chunked_more.

Lemma chunked_lookup_witness :
  0 < 2
  ∧ chunked [10; 20; 30; 40; 50] 2 = inr [[10; 20]; [30; 40]; [50]]
  ∧ [[10; 20]; [30; 40]; [50]] !! Z.to_nat (Z.of_nat 4 `div` 2)
      ≫= (.!! Z.to_nat (Z.of_nat 4 `mod` 2))
    = [10; 20; 30; 40; 50] !! 4%nat.
Proof.
  split; [lia|]. split; [reflexivity|].
  apply (chunked_lookup [10; 20; 30; 40; 50] 2 [[10; 20]; [30; 40]; [50]] 4);
    [lia|reflexivity].
Defined.

(** ** More on the text normalisation *)

Module TextFacts.
Import Text.

Lemma string_app_cons c (s t : string) : String c s +:+ t = String c (s +:+ t).
Proof. reflexivity. Qed.

Lemma string_app_nil_l (s : string) : EmptyString +:+ s = s.
Proof. reflexivity. Qed.

Lemma string_app_nil_r (s : string) : s +:+ EmptyString = s.
Proof. induction s as [|c s IH]; [done|]. by rewrite string_app_cons, IH. Qed.

Lemma string_app_assoc (s t u : string) : (s +:+ t) +:+ u = s +:+ t +:+ u.
Proof. induction s as [|c s IH]; [done|]. by rewrite !string_app_cons, IH. Qed.

Lemma string_rev_app_app (s t : string) : String.rev_app s t = String.rev s +:+ t.
Proof.
  unfold String.rev. revert t. induction s as [|c s IH]; intros t; [done|].
  simpl. rewrite (IH (String c t)), (IH (String c EmptyString)).
  by rewrite string_app_assoc.
Qed.

Lemma string_rev_cons c (s : string) : String.rev (String c s) = String.rev s +:+ String c EmptyString.
Proof. unfold String.rev at 1. simpl. apply string_rev_app_app. Qed.

Lemma string_rev_app (s t : string) : String.rev (s +:+ t) = String.rev t +:+ String.rev s.
Proof.
  induction s as [|c s IH].
  - by rewrite string_app_nil_l, string_app_nil_r.
  - by rewrite string_app_cons, !string_rev_cons, IH, string_app_assoc.
Qed.

Lemma string_rev_involutive (s : string) : String.rev (String.rev s) = s.
Proof.
  induction s as [|c s IH]; [done|]. by rewrite string_rev_cons, string_rev_app, IH.
Qed.

Lemma all_space_app (s t : string) : all_space (s +:+ t) ↔ all_space s ∧ all_space t.
Proof.
  induction s as [|c s IH]; [simpl; tauto|]. rewrite string_app_cons. simpl. tauto.
Qed.

Lemma all_space_rev (s : string) : all_space (String.rev s) ↔ all_space s.
Proof.
  induction s as [|c s IH]; [done|]. rewrite string_rev_cons, all_space_app, IH. simpl. tauto.
Qed.

Lemma lstrip_no_leading_space (s : string) : no_leading_space (Py.lstrip s).
Proof.
  induction s as [|c s IH]; [done|]. simpl.
  destruct (Py.isspace c) eqn:Hc; [done|]. exact Hc.
Qed.

Lemma lstrip_id (s : string) : no_leading_space s → Py.lstrip s = s.
Proof. destruct s as [|c s]; [done|]. simpl. by intros ->. Qed.

(** [lstrip] takes a prefix of whitespace away. *)
Lemma lstrip_split (s : string) : ∃ l, s = l +:+ Py.lstrip s ∧ all_space l.
Proof.
  induction s as [|c s (l & Hl & Hsp)]; [by exists EmptyString|]. simpl.
  destruct (Py.isspace c) eqn:Hc.
  - exists (String c l). by rewrite string_app_cons, <-Hl.
  - by exists EmptyString.
Qed.

Lemma lstrip_app_cons (s : string) c t :
  Py.isspace c = false → Py.lstrip (s +:+ String c t) = Py.lstrip s +:+ String c t.
Proof.
  intros Hc. induction s as [|a s IH].
  - rewrite string_app_nil_l. simpl. by rewrite Hc.
  - rewrite string_app_cons. simpl. destruct (Py.isspace a); [done|]. by rewrite string_app_cons.
Qed.

(** Taking the whitespace at the end away leaves the start as it is. *)
Lemma rstrip_no_leading_space (t : string) :
  no_leading_space t → no_leading_space (String.rev (Py.lstrip (String.rev t))).
Proof.
  destruct t as [|c t]; [done|]. simpl. intros Hc.
  rewrite string_rev_cons, lstrip_app_cons by done.
  rewrite string_rev_app. by rewrite string_rev_cons.
Qed.

Lemma strip_trimmed (s : string) : trimmed (Py.strip s).
Proof.
  unfold trimmed, Py.strip. split.
  - apply rstrip_no_leading_space, lstrip_no_leading_space.
  - rewrite string_rev_involutive. apply lstrip_no_leading_space.
Qed.

Lemma strip_id (s : string) : trimmed s → Py.strip s = s.
Proof.
  intros [Hl Hr]. unfold Py.strip. rewrite (lstrip_id s Hl), (lstrip_id _ Hr).
  apply string_rev_involutive.
Qed.

Lemma strip_idemp (s : string) : Py.strip (Py.strip s) = Py.strip s.
Proof. apply strip_id, strip_trimmed. Qed.

(** [strip] takes whitespace away at both ends, and nothing else. *)
Lemma strip_split (s : string) :
  ∃ l r, s = l +:+ Py.strip s +:+ r ∧ all_space l ∧ all_space r.
Proof.
  destruct (lstrip_split s) as (l & Hl & Hlsp).
  destruct (lstrip_split (String.rev (Py.lstrip s))) as (r & Hr & Hrsp).
  exists l, (String.rev r). split_and!; [|done|by apply all_space_rev].
  rewrite Hl at 1. f_equal. unfold Py.strip.
  rewrite <-string_rev_app, <-Hr. by rewrite string_rev_involutive.
Qed.

Lemma strip_empty : Py.strip EmptyString = EmptyString.
Proof. reflexivity. Qed.

(** One cell through [.fillna("").astype(str).str.strip()]. *)
Lemma normalize_cell (c : cell) :
  ∃ t, Pd.str_strip (Pd.astype_str (Pd.fillna "" c)) = CStr t ∧ cleaned c t.
Proof.
  destruct c as [|s|z]; simpl.
  - exists EmptyString. split; [done|]. split; [|done]. apply (strip_trimmed EmptyString).
  - exists (Py.strip s). split; [done|]. split; [apply strip_trimmed|apply strip_split].
  - exists (Py.strip (pretty z)). split; [done|]. split; [apply strip_trimmed|done].
Qed.

Lemma normalize_cell_idemp (c : cell) :
  let c' := Pd.str_strip (Pd.astype_str (Pd.fillna "" c)) in
  Pd.str_strip (Pd.astype_str (Pd.fillna "" c')) = c'.
Proof. destruct c as [|s|z]; simpl; by rewrite ?strip_idemp. Qed.

Lemma normalize_text_idemp (col : list cell) :
  Pd.normalize_text (Pd.normalize_text col) = Pd.normalize_text col.
Proof.
  unfold Pd.normalize_text. rewrite <-list_fmap_compose.
  apply list_fmap_ext. intros _ c _. apply normalize_cell_idemp.
Qed.

Lemma normalize_text_dropna (col : list cell) :
  Pd.dropna (Pd.normalize_text col) = Pd.normalize_text col.
Proof.
  unfold Pd.dropna. apply filter_all.
  intros c (c0 & -> & _)%list_elem_of_fmap.
  by destruct (normalize_cell c0) as (t & -> & _).
Qed.

End TextFacts.

Module CleanFacts.
Import Text TextFacts.

Implicit Types (df : frame) (c : string) (col : list cell).

Lemma filter_label_columns c df :
  (filter (λ kv : string * list cell, kv.1 = c) df).*1
  = filter (λ x, x = c) (Pd.columns df).
Proof.
  unfold Pd.columns. induction df as [|kv df IH]; [done|].
  rewrite fmap_cons. destruct (decide (kv.1 = c)) as [Hc|Hc].
  - rewrite !filter_cons_True by done. by rewrite fmap_cons, IH.
  - by rewrite !filter_cons_False by done.
Qed.

(** A guarded statement of [clean_text] goes through exactly when its
    label is carried by at most one column. *)
Lemma clean_column_succeeds c df :
  (∃ df', clean_column c df = inr df')
  ↔ (length (filter (λ x, x = c) (Pd.columns df)) ≤ 1)%nat.
Proof.
  rewrite <-filter_label_columns, length_fmap.
  unfold clean_column. case_decide as Hc.
  - unfold Pd.getitem.
    destruct (filter _ df) as [|kv0 [|kv1 rest]] eqn:Hf; simpl.
    + split; [lia|]. intros _. exfalso.
      unfold Pd.columns in Hc. apply list_elem_of_fmap in Hc as (kv & -> & Hkv).
      assert (kv ∈ filter (λ kv' : string * list cell, kv'.1 = kv.1) df) as Hin
        by (apply list_elem_of_filter; done).
      rewrite Hf in Hin. by apply elem_of_nil in Hin.
    + split; [lia|]. intros _. by eexists.
    + split; [by intros [? ?]|lia].
  - rewrite filter_label_nil by done. simpl. split; [lia|]. intros _. by eexists.
Qed.

Lemma normalize_column_columns c df :
  Pd.columns (normalize_column c df) = Pd.columns df.
Proof.
  unfold normalize_column, Pd.columns. rewrite <-list_fmap_compose.
  apply list_fmap_ext. intros _ [c' col] _. simpl. by case_decide.
Qed.

(** Whether [clean_text] raises depends on the labels alone. *)
Lemma clean_frame_succeeds df :
  (∃ df', clean_frame df = inr df')
  ↔ ∀ c, c ∈ text_columns → (length (filter (λ x, x = c) (Pd.columns df)) ≤ 1)%nat.
Proof.
  unfold clean_frame, text_columns. split.
  - intros [df' Hdf'].
    destruct (clean_column "Service Comments" df) as [|df1] eqn:E1; [done|].
    destruct (clean_column "Priority" df1) as [|df2] eqn:E2; [done|].
    pose proof (clean_column_ok _ _ _ E1) as ->.
    pose proof (clean_column_ok _ _ _ E2) as ->.
    assert (∃ d, clean_column "Service Comments" df = inr d) as H1 by eauto.
    assert (∃ d, clean_column "Priority" (normalize_column "Service Comments" df) = inr d)
      as H2 by eauto.
    assert (∃ d, clean_column "Service Category"
                   (normalize_column "Priority"
                      (normalize_column "Service Comments" df)) = inr d) as H3 by eauto.
    apply clean_column_succeeds in H1, H2, H3.
    rewrite normalize_column_columns in H2. rewrite !normalize_column_columns in H3.
    intros c Hc. rewrite !elem_of_cons, elem_of_nil in Hc.
    destruct Hc as [->|[->|[->|[]]]]; done.
  - intros Hall.
    assert (∃ d, clean_column "Service Comments" df = inr d) as [df1 E1].
    { apply clean_column_succeeds, Hall. set_solver. }
    rewrite E1. pose proof (clean_column_ok _ _ _ E1) as ->.
    assert (∃ d, clean_column "Priority" (normalize_column "Service Comments" df) = inr d)
      as [df2 E2].
    { apply clean_column_succeeds. rewrite normalize_column_columns. apply Hall. set_solver. }
    rewrite E2. pose proof (clean_column_ok _ _ _ E2) as ->.
    apply clean_column_succeeds. rewrite !normalize_column_columns. apply Hall. set_solver.
Qed.

Lemma clean_frame_fmap df df' :
  clean_frame df = inr df' → df' = clean_entry <$> df.
Proof. apply clean_frame_ok. Qed.

Lemma clean_entry_columns df : Pd.columns (clean_entry <$> df) = Pd.columns df.
Proof.
  unfold Pd.columns. rewrite <-list_fmap_compose. apply list_fmap_ext.
  intros _ [c col] _. unfold clean_entry. simpl. by case_decide.
Qed.

Lemma filter_NoDup_length (c : string) (l : list string) :
  NoDup l → (length (filter (λ x, x = c) l) ≤ 1)%nat.
Proof.
  induction 1 as [|x l Hx Hnd IH]; [simpl; lia|].
  destruct (decide (x = c)) as [->|Hne].
  - rewrite filter_cons_True by done. rewrite filter_none; [simpl; lia|].
    intros y Hy ->. done.
  - by rewrite filter_cons_False.
Qed.

(** On pairwise distinct labels [clean_text] goes through. *)
Lemma clean_frame_NoDup df :
  NoDup (Pd.columns df) → clean_frame df = inr (clean_entry <$> df).
Proof.
  intros Hnd.
  assert (∃ df', clean_frame df = inr df') as [df' Hdf'].
  { apply clean_frame_succeeds. intros c _. by apply filter_NoDup_length. }
  by rewrite Hdf', (clean_frame_fmap df df' Hdf').
Qed.


Lemma getitem_elem_of df c col : Pd.getitem df c = inr col → (c, col) ∈ df.
Proof.
  unfold Pd.getitem. destruct (filter _ df) as [|kv0 [|kv1 rest]] eqn:Hf; try done.
  intros [= <-].
  assert (kv0 ∈ filter (λ kv : string * list cell, kv.1 = c) df) as Hin
    by (rewrite Hf; apply list_elem_of_here).
  apply list_elem_of_filter in Hin as [<- Hin]. by destruct kv0.
Qed.

Lemma getitem_clean_entry df c col :
  Pd.getitem df c = inr col →
  Pd.getitem (clean_entry <$> df) c
  = inr (if decide (c ∈ text_columns) then Pd.normalize_text col else col).
Proof.
  unfold Pd.getitem.
  assert (filter (λ kv : string * list cell, kv.1 = c) (clean_entry <$> df)
          = clean_entry <$> filter (λ kv : string * list cell, kv.1 = c) df) as ->.
  { induction df as [|kv df IH]; [done|]. rewrite fmap_cons.
    assert ((clean_entry kv).1 = kv.1) as Hfst by (unfold clean_entry; by case_decide).
    destruct (decide (kv.1 = c)) as [Hc|Hc].
    - rewrite !filter_cons_True by congruence. by rewrite fmap_cons, IH.
    - rewrite !filter_cons_False by congruence. done. }
  destruct (filter _ df) as [|[c0 col0] [|kv1 rest]] eqn:Hf; try done.
  intros [= <-]. simpl.
  assert ((c0, col0) ∈ filter (λ kv : string * list cell, kv.1 = c) df) as Hin
    by (rewrite Hf; apply list_elem_of_here).
  apply list_elem_of_filter in Hin as [Hc _]. simpl in Hc. subst c0.
  unfold clean_entry. simpl. by case_decide.
Qed.

Lemma clean_entry_idemp kv : clean_entry (clean_entry kv) = clean_entry kv.
Proof.
  unfold clean_entry. destruct kv as [c col]. simpl.
  destruct (decide (c ∈ text_columns)) as [Hc|Hc]; simpl.
  - by rewrite decide_True, normalize_text_idemp.
  - by rewrite decide_False.
Qed.

(** X2. On a frame whose column labels are pairwise
    distinct, as [pd.read_csv] gives them, [clean_text] does not raise,
    whichever of the three text columns are there or missing. *)
Theorem clean_text_total (h : heap) (df : loc) (f : frame) :
  h !! df = Some f →
  NoDup (Pd.columns f) →
  ∃ h' (df' : loc), clean_text df h = (h', inr df').
Proof.
  intros Hdf Hnd. destruct (clean_text_heap h df f Hdf) as (h' & r & Hrun & _ & Hr).
  destruct r as [e|df'].
  - rewrite (clean_frame_NoDup f Hnd) in Hr. discriminate Hr.
  - by exists h', df'.
Qed.

(** X3. In the frame [clean_text] returns, each of
    the three text columns has as many cells as in the input, none of
    them missing: every cell is a text with no whitespace at either
    end, the empty text where the input cell was missing, and where
    the input cell was a text, that text less the whitespace around it
    (nothing inside the text is touched). *)
Theorem clean_text_trims (h h' : heap) (df df' : loc) (f : frame) :
  h !! df = Some f →
  clean_text df h = (h', inr df') →
  ∃ f', h' !! df' = Some f'
    ∧ ∀ (i : nat) c col', f' !! i = Some (c, col') → c ∈ text_columns →
        ∃ col, f !! i = Some (c, col)
               ∧ Forall2 (λ cell cell', ∃ t, cell' = CStr t ∧ cleaned cell t) col col'.
Proof.
  intros Hdf Hrun.
  destruct (clean_text_heap h df f Hdf) as (h1 & r & Hrun' & _ & Hr).
  rewrite Hrun in Hrun'. injection Hrun' as <- <-.
  destruct Hr as (_ & f' & Hf' & Hlook). exists f'. split; [done|].
  apply clean_frame_fmap in Hf' as ->.
  intros i c col' Hi Hc. rewrite list_lookup_fmap in Hi.
  destruct (f !! i) as [[c0 col]|]; [|done]. simpl in Hi. unfold clean_entry in Hi.
  simpl in Hi. case_decide as Hc0; simplify_eq; [|done].
  exists col. split; [done|]. unfold Pd.normalize_text.
  apply Forall2_fmap_r, Forall_Forall2_diag, Forall_forall. intros cell _.
  destruct (normalize_cell cell) as (t & Ht & Hclean). eauto.
Qed.

(** X4. Cleaning twice is cleaning once: when
    [clean_text] returns a frame, [clean_text] on that frame returns,
    in one more new object, a frame with the same columns and cells. *)
Theorem clean_text_idempotent (h h1 : heap) (df df1 : loc) (f : frame) :
  h !! df = Some f →
  clean_text df h = (h1, inr df1) →
  ∃ h2 (df2 : loc),
    clean_text df1 h1 = (h2, inr df2)
    ∧ df2 ≠ df1
    ∧ h2 !! df2 = h1 !! df1.
Proof.
  intros Hdf Hrun.
  destruct (clean_text_heap h df f Hdf) as (h1' & r & Hrun' & _ & Hr).
  rewrite Hrun in Hrun'. injection Hrun' as <- <-.
  destruct Hr as (_ & f1 & Hf1 & Hlook1).
  assert (clean_frame f1 = inr f1) as Hf2.
  { assert (∃ f2, clean_frame f1 = inr f2) as [f2 Hf2].
    { apply clean_frame_succeeds. intros c Hc.
      rewrite (clean_frame_fmap f f1 Hf1), clean_entry_columns.
      revert c Hc. apply clean_frame_succeeds. eauto. }
    rewrite Hf2. f_equal. rewrite (clean_frame_fmap f1 f2 Hf2).
    rewrite (clean_frame_fmap f f1 Hf1), <-list_fmap_compose.
    apply list_fmap_ext. intros _ kv _. apply clean_entry_idemp. }
  destruct (clean_text_heap h1 df1 f1 Hlook1) as (h2 & r & Hrun2 & Hkeep & Hr).
  destruct r as [e|df2]; [congruence|].
  destruct Hr as (Hfresh & f2 & Hf2' & Hlook2).
  exists h2, df2. split; [done|]. split.
  - intros ->. apply Hfresh. apply elem_of_dom. eauto.
  - rewrite Hlook2, Hlook1. congruence.
Qed.

End CleanFacts.

Lemma clean_text_total_witness :
  let f : frame := [("id", [CInt 1; CInt 2]); ("Priority", [CStr " High "; CNa])] in
  let h : heap := {[ 0%nat := f ]} in
  h !! 0%nat = Some f
  ∧ NoDup (Pd.columns f)
  ∧ ∃ h' (df' : loc), clean_text 0%nat h = (h', inr df').
Proof.
  intros f h. split; [reflexivity|].
  assert (NoDup (Pd.columns f)) as Hnd by compute_done.
  split; [exact Hnd|].
  apply (CleanFacts.clean_text_total h 0%nat f); [reflexivity|exact Hnd].
Defined.

Lemma clean_text_trims_witness :
  let f : frame := [("id", [CInt 1; CInt 2]); ("Priority", [CStr " High "; CNa])] in
  let f1 : frame := [("id", [CInt 1; CInt 2]); ("Priority", [CStr "High"; CStr ""])] in
  let h : heap := {[ 0%nat := f ]} in
  let h' : heap := <[ 1%nat := f1 ]> h in
  h !! 0%nat = Some f
  ∧ clean_text 0%nat h = (h', inr 1%nat)
  ∧ ∃ f', h' !! 1%nat = Some f'
      ∧ ∀ (i : nat) c col', f' !! i = Some (c, col') → c ∈ text_columns →
          ∃ col, f !! i = Some (c, col)
                 ∧ Forall2 (λ cell cell', ∃ t, cell' = CStr t ∧ Text.cleaned cell t)
                     col col'.
Proof.
  intros f f1 h h'. split; [reflexivity|]. split; [vm_compute; reflexivity|].
  apply (CleanFacts.clean_text_trims h h' 0%nat 1%nat f);
    [reflexivity|vm_compute; reflexivity].
Defined.

Lemma clean_text_idempotent_witness :
  let f : frame := [("id", [CInt 1; CInt 2]); ("Priority", [CStr " High "; CNa])] in
  let f1 : frame := [("id", [CInt 1; CInt 2]); ("Priority", [CStr "High"; CStr ""])] in
  let h : heap := {[ 0%nat := f ]} in
  let h1 : heap := <[ 1%nat := f1 ]> h in
  h !! 0%nat = Some f
  ∧ clean_text 0%nat h = (h1, inr 1%nat)
  ∧ ∃ h2 (df2 : loc),
      clean_text 1%nat h1 = (h2, inr df2)
      ∧ df2 ≠ 1%nat
      ∧ h2 !! df2 = h1 !! 1%nat.
Proof.
  intros f f1 h h1. split; [reflexivity|]. split; [vm_compute; reflexivity|].
  apply (CleanFacts.clean_text_idempotent h h1 0%nat 1%nat f);
    [reflexivity|vm_compute; reflexivity].
Defined.

(** ** The labeling run, whatever the classifier answers *)

Module RunFacts.
Import Schemas LabelBatch Ledger LedgerFacts Run.

Lemma calls_batches schema si (batches : list (list payload_row))
    (answered : list (list LabeledRequest)) :
  (length answered ≤ length batches)%nat →
  calls (concat (zip_with (batch_events schema si) batches answered)) = length answered.
Proof.
  revert answered. induction batches as [|b batches IH]; intros [|r answered] Hlen;
    cbn [zip_with concat length] in *; try done; try lia.
  rewrite calls_app. change (calls (batch_events schema si b r)) with 1%nat.
  rewrite IH by lia. done.
Qed.

Lemma requests_app t1 t2 : requests (t1 ++ t2) = requests t1 ++ requests t2.
Proof. unfold requests. apply omap_app. Qed.

Lemma requests_batches schema si (batches : list (list payload_row))
    (answered : list (list LabeledRequest)) :
  (length answered ≤ length batches)%nat →
  requests (concat (zip_with (batch_events schema si) batches answered))
  = (λ b, request_for b schema si) <$> take (length answered) batches.
Proof.
  revert answered. induction batches as [|b batches IH]; intros [|r answered] Hlen;
    cbn [zip_with concat length take] in *; try done; try lia.
  rewrite fmap_cons, requests_app. change (requests (batch_events schema si b r))
    with [request_for b schema si].
  rewrite IH by lia. done.
Qed.

Lemma requests_no_calls t : calls t = 0%nat → requests t = [].
Proof.
  induction t as [|e t IH]; [done|]. destruct e; try (intros H; apply IH, H).
  intros H. discriminate H.
Qed.

Lemma log_after_snoc log answered records :
  log_after (Some (default [] log ++ records)) answered
  = log_after log (records :: answered).
Proof.
  unfold log_after. destruct answered as [|r answered]; simpl.
  - by rewrite app_nil_r.
  - by rewrite <-!app_assoc.
Qed.

Section loop.
Variable K : Z.
Variable BATCH_SIZE : Z.
Variable client : genai_client.

(** One turn of the loop. *)
Lemma label_batches_cons schema si batch rest calls_made all_records w :
  label_batches K client schema si (batch :: rest) calls_made all_records w
  = if decide (K ≤ calls_made)
    then (emit (Print (ReachedDailyCallCap K)) w, inr (calls_made, all_records))
    else
      let w1 := emit (GenerateContent (request_for batch schema si)) w in
      match model_validate_json (client (calls (trace w)) (request_for batch schema si))
      with
      | inl e => (w1, inl e)
      | inr out =>
          label_batches K client schema si rest (calls_made + 1)
            (all_records ++ results out)
            (emit (Sleep RPM_SLEEP_SECONDS)
               (emit (AppendJsonl (results out))
                  {| GEMINI_API_KEY := GEMINI_API_KEY w1; DATA := DATA w1;
                     PRED_CSV := PRED_CSV w1;
                     PRED_JSONL := Some (default [] (PRED_JSONL w1) ++ results out);
                     trace := trace w1 |}))
      end.
Proof.
  simpl. case_decide; [done|].
  unfold bind at 1. rewrite AdapterFacts.label_one_batch_unfold.
  destruct (model_validate_json _) as [e|r]; [done|]. reflexivity.
Qed.

(** The loop, whatever the classifier answers: the batches it got an
    answer for, each with its call, its append and its pause, and
    then either the end of the loop (with or without the report of
    the cap) or the call whose answer did not validate. *)
Lemma label_batches_shape schema si batches :
  ∀ calls_made all_records w,
  ∃ (answered : list (list LabeledRequest)) (tail : list event),
    let out := label_batches K client schema si batches calls_made all_records w in
    (length answered ≤ length batches)%nat
    ∧ trace out.1
      = trace w ++ concat (zip_with (batch_events schema si) batches answered) ++ tail
    ∧ GEMINI_API_KEY out.1 = GEMINI_API_KEY w
    ∧ DATA out.1 = DATA w
    ∧ PRED_CSV out.1 = PRED_CSV w
    ∧ PRED_JSONL out.1 = log_after (PRED_JSONL w) answered
    ∧ ((out.2 = inr (calls_made + Z.of_nat (length answered),
                     all_records ++ concat answered)
        ∧ ((tail = [] ∧ length answered = length batches)
           ∨ (tail = [Print (ReachedDailyCallCap K)]
              ∧ K ≤ calls_made + Z.of_nat (length answered)
              ∧ (length answered < length batches)%nat)))
       ∨ (out.2 = inl ValidationError
          ∧ ∃ b, batches !! length answered = Some b
                 ∧ tail = [GenerateContent (request_for b schema si)])).
Proof.
  induction batches as [|batch rest IH]; intros c all w.
  - exists [], []. simpl. unfold ret. simpl.
    rewrite !app_nil_r, Z.add_0_r. split_and!; try done. left. split; [done|]. by left.
  - rewrite label_batches_cons. destruct (decide (K ≤ c)) as [Hcap|Hcap].
    + exists [], [Print (ReachedDailyCallCap K)]. simpl.
      rewrite !app_nil_r, Z.add_0_r. split_and!; try done; try lia.
      left. split; [done|]. right. split_and!; [done|lia|lia].
    + cbv zeta. destruct (model_validate_json _) as [e|r] eqn:Hv.
      { apply AdapterFacts.model_validate_json_error in Hv as ->.
        exists [], [GenerateContent (request_for batch schema si)]. simpl.
        split_and!; try done; try lia. right. split; [done|]. by exists batch. }
      match goal with
      | |- context [label_batches _ _ _ _ rest ?c1 ?all1 ?w1] =>
          destruct (IH c1 all1 w1)
            as (answered & tail & Hlen & Htr & Hkey & Hdata & Hcsv & Hlog & Hout);
          set (w2 := w1) in *
      end.
      cbv zeta in *.
      exists (results r :: answered), tail.
      destruct (label_batches K client schema si rest (c + 1) (all ++ results r) w2)
        as [w' res].
      subst w2. simpl in *.
      split_and!.
      * lia.
      * rewrite Htr. by rewrite <-!app_assoc.
      * done.
      * done.
      * done.
      * rewrite Hlog. apply log_after_snoc.
      * destruct Hout as [[Hout Htail]|[Hout Htail]]; [left|right].
        -- split.
           ++ rewrite Hout. do 2 f_equal; [lia|by rewrite <-app_assoc].
           ++ destruct Htail as [[-> ?]|(-> & ? & ?)]; [left|right].
              ** split; [done|lia].
              ** split_and!; [done|lia|lia].
        -- done.
Qed.

(** [main] against [pending]: the exception [pending] computes is
    the one [main] raises, after at most the creation of the
    directory; otherwise [main] goes on with the pending rows. *)
Lemma main_unfold w :
  main K BATCH_SIZE client w
  = match pending w with
    | inl e =>
        (match GEMINI_API_KEY w with
         | None | Some EmptyString => w
         | Some _ => emit MakeDirs w
         end, inl e)
    | inr (schema, si, rows) =>
        after_pending K BATCH_SIZE client schema si rows (emit MakeDirs w)
    end.
Proof.
  unfold pending, main, after_pending.
  unfold bind at 1. unfold get at 1.
  destruct (GEMINI_API_KEY w) as [[|a key]|]; try done.
  unfold bind at 1. unfold ensure_dir, modify.
  unfold bind at 1. unfold load_csv. simpl.
  destruct (DATA w) as [raw|]; [|done].
  unfold bind at 1. unfold lift at 1.
  destruct (clean_frame raw) as [|df]; [done|].
  unfold bind at 1. unfold lift at 1.
  destruct (Pd.getitem df "Priority") as [|priority]; [done|].
  unfold bind at 1. unfold lift at 1.
  destruct (Pd.getitem df "Service Category") as [|category]; [done|].
  unfold bind at 1. unfold get at 1.
  unfold bind at 1. unfold lift at 1.
  destruct (Pd.getitem df "id") as [|id_cells]; [done|].
  unfold bind at 1. unfold lift at 1.
  destruct (Pd.astype_int id_cells) as [|ids]; [done|].
  simpl.
  destruct (filter _ (seq 0 (length ids))) as [|i todo]; [done|].
  unfold bind at 1. unfold lift at 1.
  destruct (Pd.getitem df "SR start date/time") as [|ts]; [done|].
  unfold bind at 1. unfold lift at 1.
  destruct (Pd.getitem df "Service Comments") as [|comments]; done.
Qed.

(** [main] from the pending rows on, whatever the classifier answers. *)
Lemma after_pending_shape w schema si rows batches :
  rows ≠ [] →
  chunked rows BATCH_SIZE = inr batches →
  ∃ (answered : list (list LabeledRequest)) (tail : list event),
    let out := after_pending K BATCH_SIZE client schema si rows w in
    (length answered ≤ length batches)%nat
    ∧ trace out.1
      = trace w ++ concat (zip_with (batch_events schema si) batches answered) ++ tail
    ∧ GEMINI_API_KEY out.1 = GEMINI_API_KEY w
    ∧ DATA out.1 = DATA w
    ∧ PRED_JSONL out.1 = log_after (PRED_JSONL w) answered
    ∧ ((out.2 = inr ()
        ∧ calls tail = 0%nat
        ∧ PRED_CSV out.1 = merged (PRED_CSV w) (concat answered)
        ∧ (length answered = length batches
           ∨ (K ≤ Z.of_nat (length answered)
              ∧ (length answered < length batches)%nat
              ∧ Print (ReachedDailyCallCap K) ∈ tail)))
       ∨ (out.2 = inl ValidationError
          ∧ PRED_CSV out.1 = PRED_CSV w
          ∧ ∃ b, batches !! length answered = Some b
                 ∧ tail = [GenerateContent (request_for b schema si)])).
Proof.
  intros Hrows Hchunk. unfold after_pending.
  destruct rows as [|row rows]; [done|].
  unfold bind at 1. unfold lift. rewrite Hchunk.
  destruct (label_batches_shape schema si batches 0 [] w)
    as (answered & tail & Hlen & Htr & Hkey & Hdata & Hcsv & Hlog & Hout).
  cbv zeta in *. exists answered. unfold bind.
  destruct (label_batches K client schema si batches 0 [] w) as [w1 res].
  simpl in *. destruct Hout as [[-> Htail]|[-> Htail]].
  - destruct (merge_predictions_trace (concat answered) w1)
      as (new' & Htr' & Hcalls' & Hcap).
    pose proof (merge_predictions_ok (concat answered) w1) as Hok.
    pose proof (merge_predictions_snapshot (concat answered) w1) as Hsnap.
    pose proof (merge_predictions_log (concat answered) w1) as Hlog'.
    assert (GEMINI_API_KEY (merge_predictions (concat answered) w1).1
            = GEMINI_API_KEY w1
            ∧ DATA (merge_predictions (concat answered) w1).1 = DATA w1)
      as [Hkey' Hdata'] by (by destruct (concat answered)).
    destruct (merge_predictions (concat answered) w1) as [w' res]. simpl in *.
    subst res. exists (tail ++ new'). split_and!.
    + done.
    + by rewrite Htr', Htr, <-!app_assoc.
    + by rewrite Hkey', Hkey.
    + by rewrite Hdata', Hdata.
    + by rewrite Hlog', Hlog.
    + left. split; [done|]. rewrite calls_app, Hcalls', Hsnap, Hcsv.
      destruct Htail as [[-> ?]|(-> & ? & ?)].
      * split_and!; [done|done|by left].
      * split_and!; [done|done|]. right. split_and!; [lia|done|].
        apply elem_of_app. left. apply list_elem_of_here.
  - exists tail. split_and!; try done. by right.
Qed.


(** The requests of a run are those of the first batches, in order. *)
Lemma main_requests w :
  ∃ new,
    trace (main K BATCH_SIZE client w).1 = trace w ++ new
    ∧ (requests new = []
       ∨ ∃ schema si rows batches (k : nat),
           pending w = inr (schema, si, rows)
           ∧ chunked rows BATCH_SIZE = inr batches
           ∧ requests new = (λ b, request_for b schema si) <$> take k batches).
Proof.
  rewrite main_unfold.
  destruct (pending w) as [e|[[schema si] rows]] eqn:Hp.
  { destruct (GEMINI_API_KEY w) as [[|a key]|].
    - exists []. rewrite app_nil_r. split; [done|by left].
    - exists [MakeDirs]. split; [done|by left].
    - exists []. rewrite app_nil_r. split; [done|by left]. }
  destruct (decide (rows = [])) as [->|Hrows].
  { exists [MakeDirs; Print AlreadyContainsAllIds]. simpl.
    split; [by rewrite <-app_assoc|by left]. }
  destruct (chunked rows BATCH_SIZE) as [e|batches] eqn:Hchunk.
  { exists [MakeDirs]. unfold after_pending. destruct rows; [done|].
    unfold bind, lift. rewrite Hchunk. split; [done|by left]. }
  destruct (after_pending_shape (emit MakeDirs w) schema si rows batches Hrows Hchunk)
    as (answered & tail & Hlen & Htr & _ & _ & _ & Hout).
  cbv zeta in *.
  exists (MakeDirs :: concat (zip_with (batch_events schema si) batches answered) ++ tail).
  split; [rewrite Htr; simpl; by rewrite <-app_assoc|].
  right. exists schema, si, rows, batches.
  change (requests (MakeDirs :: ?t)) with (requests t).
  rewrite requests_app, requests_batches by done.
  destruct Hout as [(_ & Hcalls & _)|(_ & _ & b & Hb & ->)].
  - exists (length answered). rewrite (requests_no_calls tail Hcalls), app_nil_r.
    done.
  - exists (S (length answered)). split; [done|]. split; [done|].
    rewrite (take_S_r _ _ _ Hb), fmap_app. done.
Qed.

End loop.

End RunFacts.

(** ** What a labeling run guarantees *)

Module RunGuarantees.
Import Schemas LabelBatch Ledger LedgerFacts Run RunFacts.


Lemma submitted_items_requests schema si (batches : list (list payload_row)) :
  ((λ b, request_for b schema si) <$> batches)
    ≫= (λ req, user_contents (req_contents req))
  = concat batches.
Proof.
  induction batches as [|b batches IH]; [done|].
  rewrite fmap_cons, bind_cons, IH. done.
Qed.


Lemma concat_take_prefix {A} (ls : list (list A)) k :
  concat (take k ls) `prefix_of` concat ls.
Proof.
  exists (concat (drop k ls)). by rewrite <-concat_app, take_drop.
Qed.

Section run.
Variable K : Z.
Variable BATCH_SIZE : Z.
Variable client : genai_client.


(** X6. With a positive batch size, the items a
    run submits, taken in the order of the calls, are a prefix of the
    pending rows: no row is sent twice, none is skipped, their order is
    kept. Every request carries between one and [BATCH_SIZE] items,
    with the schema and the instruction computed before the loop, for
    the model [MODEL] at temperature 0. This holds whatever the
    classifier answers. *)
Theorem main_submits_prefix w schema si rows :
  0 < BATCH_SIZE →
  pending w = inr (schema, si, rows) →
  ∃ new,
    trace (main K BATCH_SIZE client w).1 = trace w ++ new
    ∧ submitted_items new `prefix_of` rows
    ∧ ∀ req, req ∈ requests new →
        req = request_for (user_contents (req_contents req)) schema si
        ∧ 0 < Z.of_nat (length (user_contents (req_contents req))) ≤ BATCH_SIZE.
Proof.
  intros HB Hp.
  destruct (main_requests K BATCH_SIZE client w)
    as (new & Htr & [Hnone|(schema' & si' & rows' & batches & k & Hp' & Hchunk & Hreq)]).
  { exists new. split; [done|]. unfold submitted_items. rewrite Hnone.
    split; [apply prefix_nil|]. by intros req ?%elem_of_nil. }
  rewrite Hp in Hp'. injection Hp' as <- <- <-.
  exists new. split; [done|]. unfold submitted_items. rewrite Hreq. split.
  - rewrite submitted_items_requests.
    rewrite <-(chunked_concat rows BATCH_SIZE batches HB Hchunk) at 1.
    apply concat_take_prefix.
  - intros req (b & -> & Hb)%list_elem_of_fmap. split; [done|]. simpl.
    apply (chunked_sizes rows BATCH_SIZE batches b HB Hchunk).
    eapply elem_of_sublist; [exact Hb|apply sublist_take].
Qed.


(** A run, whatever its outcome: the snapshot and the log it leaves. *)
Lemma main_files w :
  ((main K BATCH_SIZE client w).2 = inr ()
   ∧ ∃ recs, PRED_CSV (main K BATCH_SIZE client w).1 = merged (PRED_CSV w) recs)
  ∨ ((∃ e, (main K BATCH_SIZE client w).2 = inl e)
     ∧ PRED_CSV (main K BATCH_SIZE client w).1 = PRED_CSV w).
Proof.
  rewrite main_unfold.
  destruct (pending w) as [e|[[schema si] rows]] eqn:Hp.
  { right. split; [by exists e|]. by destruct (GEMINI_API_KEY w) as [[|a key]|]. }
  destruct (decide (rows = [])) as [->|Hrows].
  { left. split; [done|]. by exists []. }
  destruct (chunked rows BATCH_SIZE) as [e|batches] eqn:Hchunk.
  { right. unfold after_pending. destruct rows; [done|].
    unfold bind, lift. rewrite Hchunk. split; [by exists e|done]. }
  destruct (after_pending_shape K BATCH_SIZE client (emit MakeDirs w) schema si rows
              batches Hrows Hchunk)
    as (answered & tail & _ & _ & _ & _ & _ & Hout).
  cbv zeta in *. destruct Hout as [(? & _ & ? & _)|(? & ? & _)].
  - left. split; [done|]. by exists (concat answered).
  - right. split; [by exists ValidationError|done].
Qed.

(** X8. A run that raises, whatever it
    raises and wherever, leaves the snapshot as it found it: the
    results received before the failure are in the log only. *)
Theorem main_failure_keeps_snapshot w e :
  (main K BATCH_SIZE client w).2 = inl e →
  PRED_CSV (main K BATCH_SIZE client w).1 = PRED_CSV w.
Proof.
  intros He. destruct (main_files w) as [[Hok _]|[_ Hcsv]]; [|done].
  rewrite He in Hok. discriminate Hok.
Qed.


(** X10. The log is append-only: whatever the outcome
    of a run and whatever the classifier answers, what the log held
    before the run is a prefix of what it holds after it, and a log
    that existed still exists. *)
Theorem main_log_grows w :
  default [] (PRED_JSONL w)
    `prefix_of` default [] (PRED_JSONL (main K BATCH_SIZE client w).1)
  ∧ (is_Some (PRED_JSONL w) → is_Some (PRED_JSONL (main K BATCH_SIZE client w).1)).
Proof.
  assert (∃ answered, PRED_JSONL (main K BATCH_SIZE client w).1
                      = log_after (PRED_JSONL w) answered) as [answered ->].
  { rewrite main_unfold.
    destruct (pending w) as [e|[[schema si] rows]] eqn:Hp.
    { exists []. by destruct (GEMINI_API_KEY w) as [[|a key]|]. }
    destruct (decide (rows = [])) as [->|Hrows]; [by exists []|].
    destruct (chunked rows BATCH_SIZE) as [e|batches] eqn:Hchunk.
    { exists []. unfold after_pending. destruct rows; [done|].
      unfold bind, lift. by rewrite Hchunk. }
    destruct (after_pending_shape K BATCH_SIZE client (emit MakeDirs w) schema si rows
                batches Hrows Hchunk)
      as (answered & tail & _ & _ & _ & _ & Hlog & _).
    by exists answered. }
  unfold log_after. destruct answered as [|a answered]; [done|].
  split; [by eexists|by eexists].
Qed.

(** X11. With records pending, a batch
    size of zero makes the run fail with the [ValueError] of [range]
    before any call; a negative batch size makes no batch at all: the
    run makes no call, writes nothing, reports that no new prediction
    was generated and returns normally, however many records are
    pending. *)
Theorem main_nonpositive_batch_size w schema si rows :
  BATCH_SIZE ≤ 0 →
  pending w = inr (schema, si, rows) →
  rows ≠ [] →
  main K BATCH_SIZE client w
  = if decide (BATCH_SIZE = 0)
    then (emit MakeDirs w, inl (ValueError RangeStepZero))
    else (emit (Print NoNewPredictions) (emit MakeDirs w), inr ()).
Proof.
  intros HB Hp Hrows. rewrite main_unfold, Hp. unfold after_pending.
  destruct rows as [|row rows]; [done|].
  unfold bind at 1. unfold lift, chunked, Py.range.
  destruct (decide (BATCH_SIZE = 0)) as [->|Hne]; [done|].
  unfold Py.range_length. rewrite decide_False by lia.
  rewrite decide_False by lia. reflexivity.
Qed.


End run.

End RunGuarantees.

(** ** The inputs of a labeling run *)

Module RunInputs.
Import Schemas LabelBatch Ledger LedgerFacts Run RunFacts Text TextFacts CleanFacts Labels.


Lemma allowed_labels (col : list cell) :
  allowed (Py.sorted (remove_dups (Pd.to_str <$> Pd.dropna (Pd.normalize_text col)))) col.
Proof.
  rewrite normalize_text_dropna. unfold allowed. split_and!.
  - unfold Py.sorted. apply StronglySorted_merge_sort; apply _.
  - apply QuotaFacts.sorted_NoDup, NoDup_remove_dups.
  - intros s. rewrite QuotaFacts.sorted_elem_of, elem_of_remove_dups.
    unfold Pd.normalize_text. rewrite <-list_fmap_compose, list_elem_of_fmap.
    split; intros (c & ? & ?); exists c; done.
Qed.

Section run.
Variable K : Z.
Variable BATCH_SIZE : Z.
Variable client : genai_client.

(** X13. The labels a run allows, in the schema
    and in the instruction alike, are read off the source after
    [clean_text]: for each of the two columns, one label for each
    distinct normalised text, in ascending order, none twice. A
    missing cell has become the empty text by then, so the [dropna()]
    drops nothing and the empty text is among the allowed labels
    whenever a cell is missing or blank. The length bound of the
    suggested action is 140. *)
Theorem main_allowed_labels w schema si rows raw priority category :
  pending w = inr (schema, si, rows) →
  DATA w = Some raw →
  Pd.getitem raw "Priority" = inr priority →
  Pd.getitem raw "Service Category" = inr category →
  si = (enum_Priority schema, enum_Service_Category schema)
  ∧ allowed (enum_Priority schema) priority
  ∧ allowed (enum_Service_Category schema) category
  ∧ (CNa ∈ priority → EmptyString ∈ enum_Priority schema)
  ∧ maxLength_Suggested_Actions schema = 140.
Proof.
  unfold pending. intros Hp Hraw Hprio Hcat.
  destruct (GEMINI_API_KEY w) as [[|a key]|]; try done.
  rewrite Hraw in Hp.
  destruct (clean_frame raw) as [|df] eqn:Hdf; [done|].
  apply clean_frame_fmap in Hdf as ->.
  rewrite (getitem_clean_entry raw "Priority" priority Hprio) in Hp.
  rewrite (getitem_clean_entry raw "Service Category" category Hcat) in Hp.
  rewrite !decide_True in Hp by (unfold text_columns; set_solver).
  set (schema0 := make_response_schema _ _) in Hp.
  assert (schema = schema0 ∧ si = (enum_Priority schema0, enum_Service_Category schema0))
    as [-> ->].
  { destruct (Pd.getitem _ "id") as [|id_cells]; [done|].
    destruct (Pd.astype_int id_cells) as [|ids]; [done|].
    destruct (filter _ (seq 0 (length ids))) as [|j0 todo]; [by injection Hp as <- <- _|].
    destruct (Pd.getitem _ "SR start date/time") as [|ts]; [done|].
    destruct (Pd.getitem _ "Service Comments") as [|comments]; [done|].
    by injection Hp as <- <- _. }
  subst schema0. simpl.
  pose proof (allowed_labels priority) as Hallowed.
  split_and!; [done|done|apply allowed_labels| |done].
  intros Hna. apply Hallowed. by exists CNa.
Qed.


End run.

End RunInputs.

(** *** Concrete runs, continued *)


(** That run, event by event: the first batch is labeled, logged and
    paced; the answer to the second does not validate; the snapshot is
    not written. *)
Example failed_run_trace :
  let out := LabelBatch.main 20 1 RunExamples.once Examples.start in
  LabelBatch.trace out.1
  = [LabelBatch.MakeDirs;
     LabelBatch.GenerateContent
       (Ledger.request_for [Examples.row1] Examples.schema (["High"; "Low"], ["Plumbing"]));
     LabelBatch.AppendJsonl [RunExamples.echo1];
     LabelBatch.Sleep 13;
     LabelBatch.GenerateContent
       (Ledger.request_for [Examples.row2] Examples.schema (["High"; "Low"], ["Plumbing"]))]
  ∧ out.2 = inl ValidationError
  ∧ LabelBatch.PRED_JSONL out.1 = Some [RunExamples.echo1]
  ∧ LabelBatch.PRED_CSV out.1 = None.
Proof. split_and!; reflexivity. Qed.

Lemma main_submits_prefix_witness :
  0 < 1
  ∧ Ledger.pending Examples.start
    = inr (Examples.schema, (["High"; "Low"], ["Plumbing"]), Examples.submitted)
  ∧ ∃ new,
      LabelBatch.trace (LabelBatch.main 20 1 RunExamples.once Examples.start).1
      = LabelBatch.trace Examples.start ++ new
      ∧ Run.submitted_items new `prefix_of` Examples.submitted
      ∧ ∀ req, req ∈ Run.requests new →
          req = Ledger.request_for
                  (LabelBatch.user_contents (LabelBatch.req_contents req))
                  Examples.schema (["High"; "Low"], ["Plumbing"])
          ∧ 0 < Z.of_nat (length (LabelBatch.user_contents (LabelBatch.req_contents req)))
            ≤ 1.
Proof.
  split; [lia|]. split; [reflexivity|].
  apply (RunGuarantees.main_submits_prefix 20 1 RunExamples.once Examples.start
           Examples.schema (["High"; "Low"], ["Plumbing"]) Examples.submitted);
    [lia|reflexivity].
Defined.

Lemma main_failure_keeps_snapshot_witness :
  (LabelBatch.main 20 1 RunExamples.once Examples.start).2 = inl ValidationError
  ∧ LabelBatch.PRED_CSV (LabelBatch.main 20 1 RunExamples.once Examples.start).1
    = LabelBatch.PRED_CSV Examples.start.
Proof.
  split; [reflexivity|].
  apply (RunGuarantees.main_failure_keeps_snapshot 20 1 RunExamples.once Examples.start
           ValidationError).
  reflexivity.
Defined.


Lemma main_nonpositive_batch_size_witness :
  -5 ≤ 0
  ∧ Ledger.pending Examples.start
    = inr (Examples.schema, (["High"; "Low"], ["Plumbing"]), Examples.submitted)
  ∧ Examples.submitted ≠ []
  ∧ LabelBatch.main 20 (-5) Examples.echoing Examples.start
    = if decide (-5 = 0)
      then (LabelBatch.emit LabelBatch.MakeDirs Examples.start,
            inl (ValueError RangeStepZero))
      else (LabelBatch.emit (LabelBatch.Print LabelBatch.NoNewPredictions)
              (LabelBatch.emit LabelBatch.MakeDirs Examples.start), inr ()).
Proof.
  split; [lia|]. split; [reflexivity|]. split; [discriminate|].
  apply (RunGuarantees.main_nonpositive_batch_size 20 (-5) Examples.echoing Examples.start
           Examples.schema (["High"; "Low"], ["Plumbing"]) Examples.submitted);
    [lia|reflexivity|discriminate].
Defined.



Lemma main_allowed_labels_witness :
  Ledger.pending Examples.start
  = inr (Examples.schema, (["High"; "Low"], ["Plumbing"]), Examples.submitted)
  ∧ LabelBatch.DATA Examples.start = Some Examples.source
  ∧ Pd.getitem Examples.source "Priority" = inr [CStr "High"; CStr "Low"]
  ∧ Pd.getitem Examples.source "Service Category" = inr [CStr "Plumbing"; CStr "Plumbing"]
  ∧ (["High"; "Low"], ["Plumbing"])
    = (Schemas.enum_Priority Examples.schema, Schemas.enum_Service_Category Examples.schema)
  ∧ Labels.allowed (Schemas.enum_Priority Examples.schema) [CStr "High"; CStr "Low"]
  ∧ Labels.allowed (Schemas.enum_Service_Category Examples.schema)
      [CStr "Plumbing"; CStr "Plumbing"]
  ∧ (CNa ∈ [CStr "High"; CStr "Low"] → EmptyString ∈ Schemas.enum_Priority Examples.schema)
  ∧ Schemas.maxLength_Suggested_Actions Examples.schema = 140.
Proof.
  split; [reflexivity|]. split; [reflexivity|]. split; [reflexivity|].
  split; [reflexivity|].
  apply (RunInputs.main_allowed_labels Examples.start Examples.schema
           (["High"; "Low"], ["Plumbing"]) Examples.submitted Examples.source
           [CStr "High"; CStr "Low"] [CStr "Plumbing"; CStr "Plumbing"]); reflexivity.
Defined.


(** ** The curator: what the selection returns *)

Module CountFacts.
Import Curator Quota QuotaFacts Selection.

Lemma value_counts_from (col : list string) : ∀ (d : gmap string Z) s,
  item (foldl (λ d s, <[s := item d s + 1]> d) d col) s
  = item d s + Z.of_nat (length (filter (λ x, x = s) col)).
Proof.
  induction col as [|x col IH]; intros d s; simpl; [lia|].
  rewrite IH, item_insert. destruct (decide (x = s)) as [->|Hne].
  - rewrite filter_cons_True by done. simpl. lia.
  - by rewrite filter_cons_False by done.
Qed.

(** [value_counts] counts the occurrences of each value. *)
Lemma value_counts_item (col : list string) s :
  item (value_counts col) s = Z.of_nat (length (filter (λ x, x = s) col)).
Proof.
  unfold value_counts. rewrite value_counts_from.
  assert (item (∅ : gmap string Z) s = 0) as -> by (unfold item; by rewrite lookup_empty).
  lia.
Qed.

Lemma value_counts_dom_from (col : list string) : ∀ (d : gmap string Z),
  dom (foldl (λ d s, <[s := item d s + 1]> d) d col) = dom d ∪ list_to_set col.
Proof.
  induction col as [|x col IH]; intros d; simpl; [set_solver|].
  rewrite IH, dom_insert_L. set_solver.
Qed.

Lemma value_counts_dom (col : list string) : dom (value_counts col) = list_to_set col.
Proof. unfold value_counts. rewrite value_counts_dom_from. set_solver. Qed.

Lemma value_counts_sum_from (col : list string) : ∀ (d : gmap string Z),
  dict_sum (foldl (λ d s, <[s := item d s + 1]> d) d col)
  = dict_sum d + Z.of_nat (length col).
Proof.
  induction col as [|x col IH]; intros d; simpl; [lia|].
  rewrite IH, dict_sum_insert. lia.
Qed.

(** The counts add up to the number of rows. *)
Lemma value_counts_sum (col : list string) :
  dict_sum (value_counts col) = Z.of_nat (length col).
Proof. unfold value_counts. rewrite value_counts_sum_from, dict_sum_empty. lia. Qed.

(** The counts do not depend on the order of the rows. *)
Lemma value_counts_Permutation (col1 col2 : list string) :
  col1 ≡ₚ col2 → value_counts col1 = value_counts col2.
Proof.
  intros Hperm. apply BalanceFacts.map_eq_item.
  - rewrite !value_counts_dom. apply set_eq. intros s.
    by rewrite !elem_of_list_to_set, Hperm.
  - intros s. by rewrite !value_counts_item, Hperm.
Qed.

Lemma compute_priority_targets_Permutation (col1 col2 : list string) n :
  col1 ≡ₚ col2 → _compute_priority_targets col1 n = _compute_priority_targets col2 n.
Proof.
  intros Hperm. unfold _compute_priority_targets.
  by rewrite (value_counts_Permutation (Py.strip <$> col1) (Py.strip <$> col2))
    by (by rewrite Hperm).
Qed.

Lemma dict_sum_nonneg (d : gmap string Z) : (∀ k, 0 ≤ item d k) → 0 ≤ dict_sum d.
Proof.
  induction d as [|k x d Hk IH] using map_ind; intros Hall.
  - by rewrite dict_sum_empty.
  - rewrite dict_sum_insert_fresh by done.
    assert (0 ≤ x).
    { specialize (Hall k). by rewrite item_insert, decide_True in Hall. }
    assert (0 ≤ dict_sum d); [|lia].
    apply IH. intros k'. specialize (Hall k'). rewrite item_insert in Hall.
    case_decide; [|done]. subst. unfold item. by rewrite Hk.
Qed.

Lemma dict_sum_pos (d : gmap string Z) :
  0 < dict_sum d → ∃ k, k ∈ dom d ∧ 0 < item d k.
Proof.
  induction d as [|k x d Hk IH] using map_ind.
  - rewrite dict_sum_empty. lia.
  - rewrite dict_sum_insert_fresh by done. intros Hpos.
    destruct (decide (0 < x)) as [Hx|Hx].
    + exists k. rewrite dom_insert_L, item_insert, decide_True by done.
      split; [set_solver|done].
    + destruct IH as (k' & Hk' & Hpos'); [lia|].
      exists k'. rewrite dom_insert_L, item_insert.
      split; [set_solver|]. case_decide; [|done]. subst.
      apply elem_of_dom in Hk' as [? Hk']. congruence.
Qed.

Lemma dict_sum_zero (d : gmap string Z) :
  (∀ k, 0 ≤ item d k) → dict_sum d ≤ 0 → ∀ k, item d k = 0.
Proof.
  induction d as [|k x d Hk IH] using map_ind; intros Hall Hsum k'.
  - done.
  - rewrite dict_sum_insert_fresh in Hsum by done.
    assert (0 ≤ x).
    { specialize (Hall k). by rewrite item_insert, decide_True in Hall. }
    assert (∀ k0, 0 ≤ item d k0) as Hall'.
    { intros k0. specialize (Hall k0). rewrite item_insert in Hall.
      case_decide; [|done]. subst. unfold item. by rewrite Hk. }
    pose proof (dict_sum_nonneg d Hall').
    rewrite item_insert. case_decide; [lia|]. apply IH; [done|lia].
Qed.

End CountFacts.

Module SelectFacts.
Import Curator Quota QuotaFacts Selection CountFacts SelectionFacts DeterminismFacts.

Lemma omap_lookup_seq {A} (l : list A) (s : nat) (k : list A) :
  length k = s → omap (λ i, (k ++ l) !! i) (seq s (length l)) = l.
Proof.
  revert s k. induction l as [|x l IH]; intros s k Hk; [done|].
  simpl. rewrite lookup_app_r by lia. rewrite <-Hk, Nat.sub_diag. simpl.
  f_equal. rewrite (cons_middle x k l), app_assoc. apply IH.
  rewrite length_app. simpl. lia.
Qed.

(** A lawful shuffle returns the rows it was given, in some order. *)
Lemma sample_Permutation {A} permutation (df : list A) seed :
  shuffles permutation → sample permutation df seed ≡ₚ df.
Proof.
  intros Hperm. unfold sample. rewrite (Hperm seed (length df)).
  pose proof (omap_lookup_seq df 0 [] eq_refl) as Hall. simpl in Hall.
  by rewrite Hall.
Qed.

Lemma rotation_shuffles : shuffles rotation.
Proof.
  intros seed m. unfold rotation, rotate.
  rewrite Permutation_app_comm. by rewrite take_drop.
Qed.

Lemma imap_order_snd {A} (l : list A) (s : nat) :
  (imap (λ i r, (Z.of_nat (s + i), r)) l).*2 = l.
Proof.
  revert s. induction l as [|x l IH]; intros s; [done|].
  rewrite imap_cons, fmap_cons. cbn [snd]. f_equal.
  rewrite <-(IH (S s)) at 2. f_equal. apply imap_ext. intros i y _. simpl.
  do 2 f_equal. lia.
Qed.

(** The rows of the shuffled table, without their [_order]. *)
Lemma order_snd {A} (l : list A) : (imap (λ i r, (Z.of_nat i, r)) l).*2 = l.
Proof. apply (imap_order_snd l 0). Qed.

Lemma head_take {A} (rows : list A) (n : Z) :
  0 ≤ n → Pd.head rows n = take (Z.to_nat n) rows.
Proof.
  intros Hn. unfold Pd.head.
  pose proof (slice_nonneg rows 0 (Z.to_nat n)) as Hs.
  rewrite Z2Nat.id in Hs by done. change (Z.of_nat 0) with 0 in Hs.
  rewrite Z.add_0_l in Hs. by rewrite Hs.
Qed.

Section pick.
Variable sort_values : ∀ A : Type, (A → list Z) → list A → list A.
Hypothesis Hsort : sorts sort_values.
Variable rng : list (Z * example).
Hypothesis Hids : NoDup ((λ r, id r.2) <$> rng).

(** The three ways through the body of the loop. *)
Lemma pick_cases priority st b st' b' :
  pick sort_values rng priority st b = inr (st', b') →
  (st' = st ∧ b' = b ∧ item (remaining st) priority ≤ 0)
  ∨ (st' = set_remaining st (<[priority := 0]> (remaining st)) ∧ b' = b
     ∧ 0 < item (remaining st) priority
     ∧ filter (λ r, resident_selected_priority r.2 = priority
                    ∧ id r.2 ∉ selected_ids st) rng = [])
  ∨ (∃ row, st' = select st priority row ∧ b' = true
            ∧ 0 < item (remaining st) priority
            ∧ row ∈ rng ∧ resident_selected_priority row.2 = priority
            ∧ id row.2 ∉ selected_ids st).
Proof.
  unfold pick. case_decide as Hrem.
  { intros [= <- <-]. by left. }
  set (candidates := filter _ rng).
  destruct candidates as [|c cs] eqn:Hc.
  { intros [= <- <-]. right. left. split_and!; [done|done|lia|done]. }
  destruct (Hsort _ (candidate_key st priority) (c :: cs)) as [Hperm _].
  destruct (sort_values _ (candidate_key st priority) (c :: cs)) as [|row rows];
    [done|].
  intros [= <- <-]. right. right. exists row.
  assert (row ∈ candidates) as Hin.
  { rewrite Hc, <-Hperm. apply list_elem_of_here. }
  apply list_elem_of_filter in Hin as [[? ?] ?].
  split_and!; [done|done|lia|done|done|done].
Qed.

Lemma select_consistent st priority row :
  consistent rng st → row ∈ rng → id row.2 ∉ selected_ids st →
  consistent rng (select st priority row).
Proof.
  intros (Hnd & Hin & Hset) Hrow Hfresh. unfold consistent. simpl.
  rewrite fmap_app. simpl. split_and!.
  - apply NoDup_app. split; [done|]. split; [|apply NoDup_singleton].
    intros i Hi Hi'. apply list_elem_of_singleton in Hi' as ->.
    apply Hfresh. rewrite Hset. by apply elem_of_list_to_set.
  - intros r [?|Hr]%elem_of_app; [by apply Hin|].
    by apply list_elem_of_singleton in Hr as ->.
  - rewrite Hset, list_to_set_app_L. simpl. set_solver.
Qed.

Lemma pick_consistent priority st b st' b' :
  pick sort_values rng priority st b = inr (st', b') →
  consistent rng st → consistent rng st'.
Proof.
  intros Hpick Hst.
  destruct (pick_cases priority st b st' b' Hpick)
    as [(-> & _)|[(-> & _)|(row & -> & _ & _ & ? & _ & ?)]]; [done|done|].
  by apply select_consistent.
Qed.

Lemma pick_each_consistent priorities : ∀ st b st' b',
  pick_each sort_values rng priorities st b = inr (st', b') →
  consistent rng st → consistent rng st'.
Proof.
  induction priorities as [|p ps IH]; intros st b st' b'; simpl.
  { by intros [= <- <-]. }
  destruct (pick sort_values rng p st b) as [e|[st1 b1]] eqn:Hpick; [done|].
  intros Hrest Hst. eapply IH; [exact Hrest|]. by eapply pick_consistent.
Qed.

Lemma round_robin_consistent priorities : ∀ fuel st st',
  round_robin sort_values fuel rng priorities st = inr st' →
  consistent rng st → consistent rng st'.
Proof.
  induction fuel as [|fuel IH]; intros st st'; simpl.
  { case_decide; by intros [= <-]. }
  case_decide; [|by intros [= <-]].
  destruct (pick_each sort_values rng priorities st false) as [e|[st1 b1]] eqn:Hpass;
    [done|].
  intros Hrest Hst.
  assert (consistent rng st1) by (by eapply pick_each_consistent).
  destruct b1; [by eapply IH|]. by injection Hrest as <-.
Qed.

(** The rows not yet selected: as many as the table has more than
    the selection. *)
Lemma not_selected_length st :
  consistent rng st →
  (length (filter (λ r, id r.2 ∉ selected_ids st) rng)
   + length (selected_rows st) = length rng)%nat.
Proof.
  intros (Hnd & Hin & Hset).
  assert (NoDup rng) as Hrng by (by eapply NoDup_fmap_1).
  assert (NoDup (selected_rows st)) as Hsel by (by eapply NoDup_fmap_1).
  assert (filter (λ r, id r.2 ∈ selected_ids st) rng ≡ₚ selected_rows st) as Hperm.
  { apply NoDup_Permutation; [by apply NoDup_filter|done|].
    intros r. rewrite list_elem_of_filter, Hset, elem_of_list_to_set. split.
    - intros [(r' & Heq & Hr')%list_elem_of_fmap Hr].
      assert (r = r') as ->; [|done].
      apply (NoDup_fmap_inj_on (λ r, id r.2) rng); [done|done|by apply Hin|done].
    - intros Hr. split; [|by apply Hin]. apply list_elem_of_fmap. eauto. }
  rewrite <-Hperm.
  clear. induction rng as [|r l IH]; [done|].
  destruct (decide (id r.2 ∈ selected_ids st)).
  - rewrite filter_cons_False, filter_cons_True by tauto. simpl. lia.
  - rewrite filter_cons_True, filter_cons_False by tauto. simpl. lia.
Qed.

(** The table after the fallback: at least [n] rows when the
    shuffled table has that many, all of them rows of the shuffled
    table, no id twice. *)
Lemma top_up_spec st n :
  consistent rng st →
  0 ≤ n ≤ Z.of_nat (length rng) →
  n ≤ Z.of_nat (length (top_up sort_values rng st n))
  ∧ NoDup (id <$> top_up sort_values rng st n)
  ∧ ∀ e, e ∈ top_up sort_values rng st n → e ∈ rng.*2.
Proof.
  intros Hst Hn. pose proof (not_selected_length st Hst) as Hlen.
  destruct Hst as (Hnd & Hin & Hset).
  assert (NoDup (id <$> (selected_rows st).*2)) as Hnd'
    by (by rewrite <-list_fmap_compose).
  assert (∀ e, e ∈ (selected_rows st).*2 → e ∈ rng.*2) as Hin'.
  { intros e (r & -> & Hr)%list_elem_of_fmap. apply list_elem_of_fmap. eauto. }
  unfold top_up. case_decide as Hshort; rewrite length_fmap in Hshort;
    [|split_and!; [rewrite length_fmap; lia|done|done]].
  set (remaining_rows := filter (λ r, id r.2 ∉ selected_ids st) rng) in *.
  assert (∀ a b : list example,
            match remaining_rows with [] => a | _ :: _ => b end = b) as ->.
  { intros a b. destruct remaining_rows; [simpl in Hlen; lia|done]. }
  destruct (Hsort _ (top_up_key st) remaining_rows) as [Hperm _].
  set (sorted := sort_values _ (top_up_key st) remaining_rows) in *.
  rewrite (length_fmap snd (selected_rows st)).
  rewrite head_take by lia.
  assert (length sorted = length remaining_rows) as Hlen' by (by rewrite Hperm).
  split_and!.
  - rewrite length_app, !length_fmap, length_take. lia.
  - rewrite fmap_app. apply NoDup_app. split; [done|]. split.
    + intros i Hi (e & -> & (r & -> & Hr)%list_elem_of_fmap)%list_elem_of_fmap.
      apply elem_of_take in Hr as (j & Hr & _). apply list_elem_of_lookup_2 in Hr.
      rewrite Hperm in Hr. apply list_elem_of_filter in Hr as [Hr _].
      apply Hr. rewrite Hset. apply elem_of_list_to_set.
      by rewrite <-list_fmap_compose in Hi.
    + rewrite <-list_fmap_compose.
      eapply sublist_NoDup; [|apply fmap_sublist, sublist_take].
      rewrite Hperm. eapply sublist_NoDup; [exact Hids|].
      apply fmap_sublist, sublist_filter.
  - intros e [?|(r & -> & Hr)%list_elem_of_fmap]%elem_of_app; [by apply Hin'|].
    apply list_elem_of_fmap. exists r. split; [done|].
    apply elem_of_take in Hr as (j & Hr & _). apply list_elem_of_lookup_2 in Hr.
    rewrite Hperm in Hr. by apply list_elem_of_filter in Hr as [_ Hr].
Qed.

End pick.

End SelectFacts.

Module BuildFacts.
Import Curator Quota QuotaFacts Selection CountFacts SelectionFacts DeterminismFacts
  SelectFacts.

Section build.
Variable permutation : Z → nat → list nat.
Variable sort_values : ∀ A : Type, (A → list Z) → list A → list A.
Hypothesis Hperm : shuffles permutation.
Hypothesis Hsort : sorts sort_values.

Lemma start_consistent rng targets :
  consistent rng
    {| selected_rows := []; selected_ids := ∅; global_cat_counts := ∅;
       prio_cat_counts := ∅; seen_categories := ∅; remaining := targets |}.
Proof.
  unfold consistent. simpl. split_and!; [apply NoDup_nil_2| |done].
  by intros r ?%elem_of_nil.
Qed.

(** The shuffled table: the rows of [df], no id twice. *)
Lemma rng_ids (df : list example) seed :
  NoDup (id <$> df) →
  let rng := imap (λ i r, (Z.of_nat i, r)) (sample permutation df seed) in
  rng.*2 ≡ₚ df
  ∧ NoDup ((λ r, id r.2) <$> rng)
  ∧ length rng = length df.
Proof.
  intros Hnd rng.
  assert (rng.*2 ≡ₚ df) as Hrows.
  { subst rng. rewrite order_snd. by apply sample_Permutation. }
  split_and!; [done| |].
  - assert ((λ r : Z * example, id r.2) <$> rng = id <$> rng.*2) as ->
      by (by rewrite <-list_fmap_compose).
    by rewrite Hrows.
  - by rewrite <-(length_fmap snd rng), Hrows.
Qed.

(** What [build_example_set] returns: the first rows of a shuffle of
    a table that has enough rows, all from [df], no id twice. *)
Lemma build_example_set_spec (df : list example) (n seed : Z) :
  NoDup (id <$> df) →
  0 ≤ n →
  ∃ out,
    build_example_set permutation sort_values df n seed
    = inr (take (Z.to_nat (n `min` Z.of_nat (length df)))
             (sample permutation out seed))
    ∧ n `min` Z.of_nat (length df) ≤ Z.of_nat (length out)
    ∧ NoDup (id <$> out)
    ∧ ∀ e, e ∈ out → e ∈ df.
Proof.
  intros Hnd Hn. unfold build_example_set.
  destruct (decide (df = [])) as [->|Hne].
  { exists [].
    assert (sample permutation ([] : list example) seed = []) as ->
      by (apply Permutation_nil_r; by rewrite sample_Permutation).
    simpl. rewrite take_nil. split_and!; [done|lia|apply NoDup_nil_2|done]. }
  assert (∀ a b : result (list example),
            match df with [] => a | _ :: _ => b end = b) as ->
    by (intros; by destruct df).
  destruct (rng_ids df seed Hnd) as (Hrows & Hids & Hlen).
  set (rng := imap (λ i r, (Z.of_nat i, r)) (sample permutation df seed)) in *.
  set (n' := n `min` Z.of_nat (length df)).
  set (targets := _compute_priority_targets _ n').
  match goal with
  | |- context [round_robin _ ?fuel rng ?ps ?st] =>
      destruct (round_robin_total sort_values Hsort rng ps fuel st) as (st' & Hrun & _);
        [done|];
      assert (consistent rng st') as Hst
        by (eapply round_robin_consistent; eauto using start_consistent);
      rewrite Hrun
  end.
  destruct (top_up_spec sort_values Hsort rng Hids st' n' Hst) as (Hsize & Hout & Hin);
    [subst n'; lia|].
  exists (top_up sort_values rng st' n'). rewrite head_take by (subst n'; lia).
  split_and!; [done|done|done|].
  intros e He. rewrite <-Hrows. by apply Hin.
Qed.

Lemma build_example_set_length (df : list example) (n seed : Z) :
  NoDup (id <$> df) →
  0 ≤ n →
  ∃ examples,
    build_example_set permutation sort_values df n seed = inr examples
    ∧ Z.of_nat (length examples) = n `min` Z.of_nat (length df).
Proof.
  intros Hnd Hn.
  destruct (build_example_set_spec df n seed Hnd Hn) as (out & -> & Hsize & _).
  eexists. split; [done|].
  rewrite length_take, (sample_Permutation permutation out seed Hperm). lia.
Qed.

(** X15. With a lawful shuffle and a lawful
    sort, on a table in which no id occurs twice, [build_example_set]
    returns exactly [min(n, len(df))] rows for every [n >= 0]: the
    quotas and, where they fall short, the fallback fill the set. *)
Theorem build_example_set_size (df : list example) (n seed : Z) :
  NoDup (id <$> df) →
  0 ≤ n →
  ∃ examples,
    build_example_set permutation sort_values df n seed = inr examples
    ∧ Z.of_nat (length examples) = n `min` Z.of_nat (length df).
Proof. apply build_example_set_length. Qed.

Lemma build_example_set_rows (df examples : list example) (n seed : Z) :
  NoDup (id <$> df) →
  0 ≤ n →
  build_example_set permutation sort_values df n seed = inr examples →
  NoDup (id <$> examples) ∧ examples ⊆+ df.
Proof.
  intros Hnd Hn.
  destruct (build_example_set_spec df n seed Hnd Hn) as (out & -> & _ & Hout & Hin).
  intros [= <-].
  assert (NoDup (id <$> take (Z.to_nat (n `min` Z.of_nat (length df)))
                          (sample permutation out seed))) as Hex.
  { eapply sublist_NoDup; [|apply fmap_sublist, sublist_take].
    by rewrite (sample_Permutation permutation out seed Hperm). }
  split; [done|]. apply NoDup_submseteq; [by eapply NoDup_fmap_1|].
  intros e He. apply Hin.
  rewrite <-(sample_Permutation permutation out seed Hperm).
  eapply elem_of_sublist; [exact He|apply sublist_take].
Qed.

(** X16. With a lawful shuffle and a lawful
    sort, on a table in which no id occurs twice, the rows
    [build_example_set] returns are rows of the table, each at most
    once: no id occurs twice among the examples and every example is
    a row of the input, unchanged. *)
Theorem build_example_set_subset (df examples : list example) (n seed : Z) :
  NoDup (id <$> df) →
  0 ≤ n →
  build_example_set permutation sort_values df n seed = inr examples →
  NoDup (id <$> examples) ∧ examples ⊆+ df.
Proof. apply build_example_set_rows. Qed.

End build.

End BuildFacts.

Module QuotaSelectionFacts.
Import Curator Quota QuotaFacts Selection CountFacts SelectionFacts DeterminismFacts
  SelectFacts BuildFacts.

Lemma with_priority_app p (l1 l2 : list example) :
  with_priority p (l1 ++ l2) = with_priority p l1 ++ with_priority p l2.
Proof. unfold with_priority. apply filter_app. Qed.

Lemma filter_fmap_length {A} (f : A → string) p (l : list A) :
  length (filter (λ x, x = p) (f <$> l)) = length (filter (λ r, f r = p) l).
Proof.
  induction l as [|r l IH]; [done|]. rewrite fmap_cons.
  destruct (decide (f r = p)).
  - rewrite !filter_cons_True by done. simpl. by rewrite IH.
  - by rewrite !filter_cons_False by done.
Qed.

Section quota.
Variable sort_values : ∀ A : Type, (A → list Z) → list A → list A.
Hypothesis Hsort : sorts sort_values.
Variable rng : list (Z * example).
Hypothesis Hids : NoDup ((λ r, id r.2) <$> rng).
Variable targets : gmap string Z.
Hypothesis Havail :
  ∀ p, item targets p ≤ Z.of_nat (length (with_priority p rng.*2)).

(** While the quota of a priority is not used up, a row of that
    priority is left to pick. *)
Lemma candidates_left st p :
  consistent rng st → on_quota targets st →
  0 < item (remaining st) p →
  filter (λ r, resident_selected_priority r.2 = p ∧ id r.2 ∉ selected_ids st) rng ≠ [].
Proof.
  intros (Hnd & Hin & Hset) (_ & _ & Hcount & _) Hpos Hnone.
  specialize (Hcount p). specialize (Havail p).
  assert (NoDup rng.*2) as Hrng.
  { apply (NoDup_fmap_1 id). by rewrite <-list_fmap_compose. }
  assert (with_priority p rng.*2 ⊆+ with_priority p (snd <$> selected_rows st)) as Hsub.
  { apply NoDup_submseteq; [by apply NoDup_filter|].
    intros e [Hp (r & -> & Hr)%list_elem_of_fmap]%list_elem_of_filter.
    apply list_elem_of_filter. split; [done|].
    assert (r ∉ filter (λ r, resident_selected_priority r.2 = p
                             ∧ id r.2 ∉ selected_ids st) rng) as Hnot
      by (rewrite Hnone; apply not_elem_of_nil).
    rewrite list_elem_of_filter in Hnot.
    assert (id r.2 ∈ selected_ids st) as Hsel.
    { destruct (decide (id r.2 ∈ selected_ids st)); [done|]. exfalso. by apply Hnot. }
    rewrite Hset, elem_of_list_to_set in Hsel.
    apply list_elem_of_fmap in Hsel as (r' & Heq & Hr').
    assert (r = r') as ->.
    { apply (NoDup_fmap_inj_on (λ r, id r.2) rng); [done|done|by apply Hin|done]. }
    by apply list_elem_of_fmap_2. }
  apply submseteq_length in Hsub. lia.
Qed.

Lemma pick_on_quota p st b st' b' :
  pick sort_values rng p st b = inr (st', b') →
  consistent rng st → on_quota targets st →
  on_quota targets st'
  ∧ (0 < item (remaining st) p → b' = true)
  ∧ (b = true → b' = true)
  ∧ (∀ q, q ≠ p → item (remaining st') q = item (remaining st) q).
Proof.
  intros Hpick Hst Hq.
  destruct (pick_cases sort_values Hsort rng p st b st' b' Hpick)
    as [(-> & -> & Hle)|[(-> & -> & Hpos & Hnone)|(row & -> & -> & Hpos & Hrow & Hp & Hnew)]].
  - split_and!; [done|lia|done|done].
  - exfalso. by apply (candidates_left st p).
  - split_and!; [|done|done|].
    + destruct Hq as (Hdom & Hnn & Hcount & Hsum). unfold on_quota. simpl.
      split_and!.
      * rewrite dom_insert_L, <-Hdom.
        assert (p ∈ dom (remaining st)); [|set_solver].
        apply elem_of_dom. unfold item in Hpos.
        destruct (remaining st !! p); [eauto|simpl in Hpos; lia].
      * intros q. rewrite item_insert. case_decide; [lia|apply Hnn].
      * intros q. rewrite fmap_app, with_priority_app, length_app, item_insert.
        specialize (Hcount q). unfold with_priority at 2. simpl.
        destruct (decide (p = q)) as [<-|Hne].
        -- rewrite filter_cons_True by done. simpl. lia.
        -- rewrite filter_cons_False by congruence. simpl. lia.
      * rewrite length_app, dict_sum_insert. simpl. lia.
    + intros q Hne. simpl. rewrite item_insert. by rewrite decide_False.
Qed.

Lemma pick_each_on_quota priorities : ∀ st b st' b',
  NoDup priorities →
  pick_each sort_values rng priorities st b = inr (st', b') →
  consistent rng st → on_quota targets st →
  consistent rng st' ∧ on_quota targets st'
  ∧ ((b = true ∨ ∃ p, p ∈ priorities ∧ 0 < item (remaining st) p) → b' = true).
Proof.
  induction priorities as [|p ps IH]; intros st b st' b' Hnd; simpl.
  { intros [= <- <-] ? ?. split_and!; [done|done|].
    intros [?|(p & ?%elem_of_nil & _)]; done. }
  apply NoDup_cons in Hnd as [Hp Hnd].
  destruct (pick sort_values rng p st b) as [e|[st1 b1]] eqn:Hpick; [done|].
  intros Hrest Hst Hq.
  destruct (pick_on_quota p st b st1 b1 Hpick Hst Hq) as (Hq1 & Hpos & Hkeep & Hother).
  assert (consistent rng st1) as Hst1 by (by eapply pick_consistent).
  destruct (IH st1 b1 st' b' Hnd Hrest Hst1 Hq1) as (? & ? & Hb').
  split_and!; [done|done|].
  intros [Hb|(q & [->|Hq']%elem_of_cons & Hqpos)]; apply Hb'.
  - left. by apply Hkeep.
  - left. by apply Hpos.
  - right. exists q. split; [done|]. rewrite Hother; [done|]. by intros ->.
Qed.

(** The loop, when every quota can be met: it leaves with every
    quota used up. *)
Lemma round_robin_on_quota priorities :
  NoDup priorities →
  (∀ p, p ∈ priorities ↔ p ∈ dom targets) →
  ∀ fuel st,
    (Z.to_nat (dict_sum (remaining st)) ≤ fuel)%nat →
    consistent rng st → on_quota targets st →
    ∃ st',
      round_robin sort_values fuel rng priorities st = inr st'
      ∧ consistent rng st' ∧ on_quota targets st'
      ∧ dict_sum (remaining st') ≤ 0.
Proof.
  intros Hnd Hps. induction fuel as [|fuel IH]; intros st Hfuel Hst Hq.
  { exists st. simpl. case_decide; [lia|]. split_and!; [done|done|done|lia]. }
  simpl. case_decide as Hpos; [|exists st; split_and!; [done|done|done|lia]].
  destruct (pick_each_total sort_values Hsort rng priorities st false)
    as (st1 & b1 & Hpass & Hle & Hcase).
  rewrite Hpass.
  destruct (pick_each_on_quota priorities st false st1 b1 Hnd Hpass Hst Hq)
    as (Hst1 & Hq1 & Hb1).
  assert (b1 = true) as ->.
  { apply Hb1. right. destruct (dict_sum_pos _ Hpos) as (p & Hp & Hppos).
    exists p. split; [|done]. apply Hps. destruct Hq as (<- & _). done. }
  destruct Hcase as [?|[_ Hlt]]; [done|].
  apply IH; [lia|done|done].
Qed.

End quota.

End QuotaSelectionFacts.

Module QuotaTheorems.
Import Curator Quota QuotaFacts Selection CountFacts SelectionFacts DeterminismFacts
  SelectFacts BuildFacts QuotaSelectionFacts.

Lemma equal_split_nonneg (ps : list string) (n : Z) p :
  NoDup ps → 0 ≤ n → 0 ≤ item (equal_split ps n) p.
Proof.
  intros Hnd Hn. destruct (decide (p ∈ ps)) as [Hp|Hp].
  - apply list_elem_of_lookup in Hp as [i Hi].
    rewrite (equal_split_item ps n i p Hnd Hi).
    assert (0 ≤ n `div` Z.of_nat (length ps)).
    { apply Z.div_pos; [done|]. apply lookup_lt_Some in Hi. lia. }
    case_decide; lia.
  - unfold item.
    assert (equal_split ps n !! p = None) as ->; [|done].
    apply not_elem_of_dom. rewrite equal_split_dom. by rewrite elem_of_list_to_set.
Qed.

(** The size asked for counts up to the number of rows only. *)
Lemma compute_priority_targets_min (col : list string) (n : Z) :
  _compute_priority_targets col (n `min` Z.of_nat (length col))
  = _compute_priority_targets col n.
Proof.
  unfold _compute_priority_targets.
  destruct (Py.sorted (keys (value_counts (Py.strip <$> col)))) as [|p ps]; [done|].
  cbv zeta. rewrite value_counts_sum, length_fmap.
  by replace ((n `min` Z.of_nat (length col)) `min` Z.of_nat (length col))
    with (n `min` Z.of_nat (length col)) by lia.
Qed.

Lemma compute_priority_targets_nonneg (col : list string) (n : Z) p :
  0 ≤ n → 0 ≤ item (_compute_priority_targets col n) p.
Proof.
  intros Hn. destruct (compute_priority_targets_spec col n Hn) as (_ & Hfit & _).
  cbv zeta in Hfit. specialize (Hfit p). destruct Hfit as [Hlow _].
  assert (0 ≤ item (value_counts (Py.strip <$> col)) p)
    by (rewrite value_counts_item; lia).
  assert (0 ≤ item (equal_split (Py.sorted (keys (value_counts (Py.strip <$> col))))
                      (n `min` dict_sum (value_counts (Py.strip <$> col)))) p).
  { apply equal_split_nonneg; [apply priorities_NoDup|].
    rewrite value_counts_sum. lia. }
  lia.
Qed.

Section build.
Variable permutation : Z → nat → list nat.
Variable sort_values : ∀ A : Type, (A → list Z) → list A → list A.
Hypothesis Hperm : shuffles permutation.
Hypothesis Hsort : sorts sort_values.

Lemma build_example_set_on_quota (df : list example) (n seed : Z) :
  NoDup (id <$> df) →
  0 ≤ n →
  (∀ e, e ∈ df →
        Py.strip (resident_selected_priority e) = resident_selected_priority e) →
  ∃ examples,
    build_example_set permutation sort_values df n seed = inr examples
    ∧ ∀ p, Z.of_nat (length (with_priority p examples))
           = item (_compute_priority_targets (resident_selected_priority <$> df) n) p.
Proof.
  intros Hnd Hn Htrim. unfold build_example_set.
  destruct (decide (df = [])) as [->|Hne].
  { exists []. split; [done|]. intros p. simpl.
    unfold _compute_priority_targets, value_counts. simpl.
    assert (Py.sorted (keys (∅ : gmap string Z)) = []) as -> by (by vm_compute).
    done. }
  assert (∀ a b : result (list example),
            match df with [] => a | _ :: _ => b end = b) as ->
    by (intros; by destruct df).
  destruct (rng_ids permutation Hperm df seed Hnd) as (Hrows & Hids & Hlen).
  set (rng := imap (λ i r, (Z.of_nat i, r)) (sample permutation df seed)) in *.
  set (n' := n `min` Z.of_nat (length df)).
  assert (0 ≤ n') as Hn' by (subst n'; lia).
  set (col := (λ r : Z * example, resident_selected_priority r.2) <$> rng).
  assert (col = resident_selected_priority <$> rng.*2) as Hcol
    by (subst col; by rewrite <-list_fmap_compose).
  assert (Py.strip <$> col = col) as Hstrip.
  { rewrite Hcol, <-list_fmap_compose. apply list_fmap_ext.
    intros _ e He%list_elem_of_lookup_2. simpl. apply Htrim. by rewrite <-Hrows. }
  assert (length col = length df) as Hcollen
    by (subst col; by rewrite length_fmap).
  set (targets := _compute_priority_targets col n').
  destruct (compute_priority_targets_spec col n' Hn') as (Hdom & Hfit & Hsum).
  cbv zeta in Hdom, Hfit, Hsum. fold targets in Hdom, Hfit, Hsum.
  rewrite Hstrip in Hdom, Hfit, Hsum.
  rewrite value_counts_sum, Hcollen in Hsum.
  assert (dict_sum targets = n') as Hsum' by (subst n'; lia).
  assert (∀ p, item targets p ≤ Z.of_nat (length (with_priority p rng.*2))) as Havail.
  { intros p. destruct (Hfit p) as [_ Hle]. rewrite value_counts_item in Hle.
    rewrite Hcol, filter_fmap_length in Hle. done. }
  set (start := {| selected_rows := []; selected_ids := ∅; global_cat_counts := ∅;
                   prio_cat_counts := ∅; seen_categories := ∅;
                   remaining := targets |}).
  assert (on_quota targets start) as Hq.
  { unfold on_quota. simpl. split_and!; [done| |intros; lia|lia].
    intros p. by apply compute_priority_targets_nonneg. }
  destruct (round_robin_on_quota sort_values Hsort rng Hids targets Havail
              (Py.sorted (keys targets)))
    with (fuel := Z.to_nat (dict_sum targets)) (st := start)
    as (st & Hrun & Hst & Hq' & Hdone).
  { apply sorted_NoDup, keys_NoDup. }
  { intros p. by rewrite sorted_elem_of, keys_dom. }
  { done. }
  { apply start_consistent. }
  { done. }
  rewrite Hrun.
  destruct Hq' as (_ & Hnn & Hcount & Htotal).
  pose proof (dict_sum_zero _ Hnn Hdone) as Hzero.
  pose proof (dict_sum_nonneg _ Hnn) as Hge.
  assert (Z.of_nat (length (selected_rows st)) = n') as Hpicked by lia.
  assert (top_up sort_values rng st n' = snd <$> selected_rows st) as ->.
  { unfold top_up. rewrite decide_False; [done|]. rewrite length_fmap. lia. }
  rewrite head_take by done.
  pose proof (sample_Permutation permutation (snd <$> selected_rows st) seed Hperm)
    as Hshuffle.
  rewrite take_ge by (rewrite Hshuffle, length_fmap; lia).
  eexists. split; [done|]. intros p. unfold with_priority at 1.
  rewrite Hshuffle. specialize (Hcount p). rewrite Hzero in Hcount.
  unfold with_priority in Hcount. rewrite Z.add_0_r in Hcount. rewrite Hcount.
  subst targets n'. f_equal.
  rewrite (compute_priority_targets_Permutation col (resident_selected_priority <$> df))
    by (by rewrite Hcol, Hrows).
  rewrite <-(length_fmap resident_selected_priority df).
  apply compute_priority_targets_min.
Qed.

(** X17. With a lawful shuffle and a lawful
    sort, on a table in which no id occurs twice and whose priorities
    carry no whitespace at either end (as [main] has them), the
    examples [build_example_set] returns hold, for every priority,
    exactly the quota [_compute_priority_targets] gives it for the
    priority column of the table and [n]: the round-robin meets
    every quota and the fallback adds nothing. *)
Theorem build_example_set_quotas (df : list example) (n seed : Z) :
  NoDup (id <$> df) →
  0 ≤ n →
  (∀ e, e ∈ df →
        Py.strip (resident_selected_priority e) = resident_selected_priority e) →
  ∃ examples,
    build_example_set permutation sort_values df n seed = inr examples
    ∧ ∀ p, Z.of_nat (length (with_priority p examples))
           = item (_compute_priority_targets (resident_selected_priority <$> df) n) p.
Proof. apply build_example_set_on_quota. Qed.

End build.

End QuotaTheorems.

(** ** The curator: the join *)

Module JoinFacts.
Import Curator Join.

Lemma joined_unfold (sample_df predictions_df : frame) :
  joined sample_df predictions_df
  = match sample_table sample_df with
    | inl e => inl e
    | inr sample_rows =>
        match prediction_table predictions_df with
        | inl e => inl e
        | inr prediction_rows =>
            inr (Pd.drop_duplicates id
                   (merge sample_rows (Pd.drop_duplicates_last key prediction_rows)))
        end
    end.
Proof.
  unfold joined, sample_table, prediction_table.
  repeat (match goal with
          | |- context [match Pd.getitem ?df ?c with _ => _ end] =>
              destruct (Pd.getitem df c)
          end; try reflexivity).
Qed.

Section keyed.
Context {A : Type} (k : A → Z).

(** In a table without duplicate keys, the rows for a key: its
    first row or none. *)
Lemma filter_key_NoDup (l : list A) i :
  NoDup (k <$> l) →
  filter (λ r, k r = i) l = option_list (head (filter (λ r, k r = i) l)).
Proof.
  induction l as [|r l IH]; [done|]. rewrite fmap_cons, NoDup_cons.
  intros [Hr Hnd]. destruct (decide (k r = i)) as [Hi|Hi].
  - rewrite !filter_cons_True by done. simpl. f_equal.
    apply filter_none. intros r' Hr' Heq. apply Hr.
    rewrite Hi, <-Heq. by apply list_elem_of_fmap_2.
  - rewrite !filter_cons_False by done. by apply IH.
Qed.

Lemma filter_drop_duplicates (l : list A) i :
  filter (λ r, k r = i) (Pd.drop_duplicates k l)
  = option_list (head (filter (λ r, k r = i) l)).
Proof.
  rewrite filter_key_NoDup by apply drop_duplicates_NoDup.
  by rewrite head_filter_drop_duplicates.
Qed.

(** With [keep="last"], the row that stays for a key is its last. *)
Lemma filter_drop_duplicates_last (l : list A) i :
  filter (λ r, k r = i) (Pd.drop_duplicates_last k l)
  = option_list (last (filter (λ r, k r = i) l)).
Proof.
  unfold Pd.drop_duplicates_last.
  rewrite filter_reverse, filter_drop_duplicates, filter_reverse, head_reverse.
  by destruct (last _).
Qed.

Lemma elem_of_NoDup_head (l : list A) x :
  NoDup (k <$> l) → x ∈ l ↔ head (filter (λ r, k r = k x) l) = Some x.
Proof.
  intros Hnd. split.
  - intros Hx.
    assert (x ∈ filter (λ r, k r = k x) l) as Hin by (by apply list_elem_of_filter).
    rewrite filter_key_NoDup in Hin by done.
    destruct (head _) as [y|]; [|by apply elem_of_nil in Hin].
    simpl in Hin. by apply list_elem_of_singleton in Hin as ->.
  - intros Hx. apply head_Some_elem_of in Hx.
    by apply list_elem_of_filter in Hx as [_ ?].
Qed.

End keyed.

Lemma merge_cons (s : row) (S P : list row) :
  merge (s :: S) P
  = (P ≫= λ p, if decide (key s = key p) then [join_row s p] else []) ++ merge S P.
Proof.
  unfold merge. rewrite bind_cons. f_equal.
  destruct s as [[[i p] c] m]. apply list_bind_ext; [|done].
  intros [[[i' ap] ac] sa]. unfold key, join_row. simpl. done.
Qed.

Lemma filter_merge_row (s : row) (P : list row) i :
  filter (λ e, id e = i)
    (P ≫= λ p, if decide (key s = key p) then [join_row s p] else [])
  = if decide (key s = i)
    then filter (λ r, key r = i) P ≫= λ p, [join_row s p]
    else [].
Proof.
  induction P as [|p P IHP]; [by case_decide|].
  rewrite bind_cons, filter_app, IHP.
  destruct (decide (key s = key p)) as [Hsp|Hsp], (decide (key s = i)) as [Hi|Hi].
  - rewrite filter_cons_True by done.
    rewrite (filter_cons_True (λ r, key r = i)) by congruence.
    by rewrite bind_cons.
  - by rewrite filter_cons_False by done.
  - by rewrite (filter_cons_False (λ r, key r = i)) by congruence.
  - done.
Qed.

(** The rows of the join for an id: the rows of the left table for
    that id, each with the rows of the right table for that id. *)
Lemma filter_merge (S P : list row) i :
  filter (λ e, id e = i) (merge S P)
  = filter (λ r, key r = i) S
      ≫= λ s, filter (λ r, key r = i) P ≫= λ p, [join_row s p].
Proof.
  induction S as [|s S IH]; [done|].
  rewrite merge_cons, filter_app, IH, filter_merge_row.
  destruct (decide (key s = i)) as [Hi|Hi].
  - rewrite filter_cons_True by done. by rewrite bind_cons.
  - by rewrite filter_cons_False by done.
Qed.

(** Which rows the join holds. *)
Lemma merged_rows (S P : list row) e :
  e ∈ Pd.drop_duplicates id (merge S (Pd.drop_duplicates_last key P))
  ↔ ∃ sr pr, first_for (id e) S = Some sr ∧ last_for (id e) P = Some pr
             ∧ e = join_row sr pr.
Proof.
  rewrite (elem_of_NoDup_head id) by apply drop_duplicates_NoDup.
  rewrite head_filter_drop_duplicates, filter_merge, filter_drop_duplicates_last.
  unfold first_for, last_for.
  destruct (last (filter (λ r, key r = id e) P)) as [pr|]; simpl.
  - assert (∀ l : list row, head (l ≫= λ s, [join_row s pr] ++ [])
                            = (λ s, join_row s pr) <$> head l) as ->
      by (by intros [|??]).
    destruct (head (filter (λ r, key r = id e) S)) as [sr|]; simpl.
    + split; [intros [= <-]; eauto|]. by intros (? & ? & [= <-] & [= <-] & ->).
    + split; [done|]. by intros (? & ? & ? & _).
  - assert (∀ l : list row, l ≫= (λ _ : row, @nil example) = []) as ->
      by (induction l; [done|by rewrite bind_cons]).
    split; [done|]. by intros (? & ? & _ & ? & _).
Qed.

(** The texts of a prepared table carry no whitespace at either end. *)
Lemma text_trimmed (c : cell) : Py.strip (text c) = text c.
Proof.
  unfold text. destruct (TextFacts.normalize_cell c) as (t & -> & Htrim & _). simpl.
  by apply TextFacts.strip_id.
Qed.

Lemma rows_of_texts (ids c1 c2 c3 : list cell) (r : row) :
  r ∈ rows_of ids c1 c2 c3 →
  ∃ x1 x2 x3, r.1.1.2 = text x1 ∧ r.1.2 = text x2 ∧ r.2 = text x3.
Proof.
  unfold rows_of. intros (i & _ & Hr)%list_elem_of_omap.
  destruct (Pd.to_numeric (ids !!! i)) as [z|]; [|done]. simpl in Hr.
  injection Hr as <-. simpl. by eexists _, _, _.
Qed.

Lemma joined_spec (sample_df predictions_df : frame) merged :
  joined sample_df predictions_df = inr merged →
  NoDup (id <$> merged)
  ∧ ∀ e, e ∈ merged →
         Py.strip (resident_selected_priority e) = resident_selected_priority e.
Proof.
  rewrite joined_unfold.
  destruct (sample_table sample_df) as [|S] eqn:HS; [done|].
  destruct (prediction_table predictions_df) as [|P]; [done|].
  intros [= <-]. split; [apply drop_duplicates_NoDup|].
  intros e (sr & pr & Hsr & _ & ->)%merged_rows. simpl.
  apply head_Some_elem_of, list_elem_of_filter in Hsr as [_ Hsr].
  unfold sample_table in HS.
  repeat (match type of HS with
          | context [match Pd.getitem ?df ?c with _ => _ end] =>
              destruct (Pd.getitem df c); try done
          end).
  injection HS as <-.
  destruct (rows_of_texts _ _ _ _ sr Hsr) as (x1 & _ & _ & -> & _).
  apply text_trimmed.
Qed.

(** X18. The table [main] joins from its two files is an
    inner join on the id that keeps one row for an id: an id is in it
    exactly when both prepared tables hold it, no id is in it twice, and
    its row for an id is made of the first row of the sample table for
    that id and of the last row of the predictions table for that id
    (for the predictions the last write wins). *)
Theorem joined_rows (sample_df predictions_df : frame) S P :
  sample_table sample_df = inr S →
  prediction_table predictions_df = inr P →
  ∃ merged,
    joined sample_df predictions_df = inr merged
    ∧ NoDup (id <$> merged)
    ∧ (∀ i, i ∈ id <$> merged ↔ i ∈ key <$> S ∧ i ∈ key <$> P)
    ∧ ∀ e, e ∈ merged ↔
           ∃ sr pr, first_for (id e) S = Some sr ∧ last_for (id e) P = Some pr
                    ∧ e = join_row sr pr.
Proof.
  intros HS HP. rewrite joined_unfold, HS, HP. eexists. split; [done|].
  split; [apply drop_duplicates_NoDup|]. split; [|apply merged_rows].
  intros i. rewrite list_elem_of_fmap. split.
  - intros (e & -> & (sr & pr & Hsr & Hpr & ->)%merged_rows). simpl in *.
    apply head_Some_elem_of, list_elem_of_filter in Hsr as [Hk Hsr].
    apply last_Some_elem_of, list_elem_of_filter in Hpr as [Hk' Hpr].
    split; apply list_elem_of_fmap; [by exists sr|by exists pr].
  - intros [(s & -> & Hs)%list_elem_of_fmap (p & Hp & Hin)%list_elem_of_fmap].
    assert (∃ sr, first_for (key s) S = Some sr) as [sr Hsr].
    { unfold first_for. destruct (filter _ S) as [|sr ?] eqn:Hf; [|by eexists].
      assert (s ∈ filter (λ r, key r = key s) S) as Hin'
        by (by apply list_elem_of_filter).
      rewrite Hf in Hin'. by apply elem_of_nil in Hin'. }
    assert (∃ pr, last_for (key s) P = Some pr) as [pr Hpr].
    { unfold last_for.
      assert (p ∈ filter (λ r, key r = key s) P) as Hin'
        by (by apply list_elem_of_filter).
      destruct (filter _ P) as [|p0 ps] using rev_ind; [by apply elem_of_nil in Hin'|].
      rewrite last_snoc. by eexists. }
    assert (key sr = key s) as Hk.
    { apply head_Some_elem_of, list_elem_of_filter in Hsr as [? _]. done. }
    exists (join_row sr pr). split; [done|].
    apply merged_rows. exists sr, pr. simpl. fold (key sr). by rewrite Hk.
Qed.

End JoinFacts.

(** ** The curator: a successful run *)

Module CuratorRunFacts.
Import Curator Demo Join Selection JoinFacts BuildFacts QuotaTheorems CuratorMainFacts.

Lemma joined_population_joined w merged :
  joined_population w = inr merged →
  ∃ sample_df predictions_df,
    SAMPLE_PATH w = Some sample_df ∧ PREDICTIONS_PATH w = Some predictions_df
    ∧ joined sample_df predictions_df = inr merged.
Proof.
  unfold joined_population.
  destruct (SAMPLE_PATH w) as [sample_df|]; [|done].
  destruct (PREDICTIONS_PATH w) as [predictions_df|]; [|done].
  destruct (negb _); [done|]. destruct (negb _); [done|]. eauto.
Qed.

Section main.
Variable permutation : Z → nat → list nat.
Variable sort_values : ∀ A : Type, (A → list Z) → list A → list A.
Hypothesis Hperm : shuffles permutation.
Hypothesis Hsort : sorts sort_values.

(** X19. With a lawful shuffle and a lawful
    sort, when the joined table has at least [N_EXAMPLES] rows the
    curator returns normally; the two input files are as they were;
    the file it writes holds exactly [N_EXAMPLES] rows of the joined
    table, no id twice, with for every priority the quota that
    [_compute_priority_targets] gives it; and it prints the number of
    rows saved and the numbers of distinct priorities and categories
    among them, in this order. *)
Theorem curator_main_success w merged :
  joined_population w = inr merged →
  N_EXAMPLES ≤ Z.of_nat (length merged) →
  ∃ demo_df,
    main permutation sort_values w
    = ({| SAMPLE_PATH := SAMPLE_PATH w; PREDICTIONS_PATH := PREDICTIONS_PATH w;
          OUT_PATH := Some demo_df;
          stdout := stdout w ++
            [SavedDemoExamples N_EXAMPLES;
             UniqueResidentPriorities
               (Z.of_nat (length (remove_dups
                                    (resident_selected_priority <$> demo_df))));
             UniqueResidentCategories
               (Z.of_nat (length (remove_dups
                                    (resident_selected_category <$> demo_df))))] |},
       inr ())
    ∧ Z.of_nat (length demo_df) = N_EXAMPLES
    ∧ NoDup (id <$> demo_df)
    ∧ demo_df ⊆+ merged
    ∧ ∀ p, Z.of_nat (length (with_priority p demo_df))
           = item (_compute_priority_targets
                     (resident_selected_priority <$> merged) N_EXAMPLES) p.
Proof.
  intros Hj Hmany.
  destruct (joined_population_joined w merged Hj) as (s & p & _ & _ & Hjoined).
  destruct (joined_spec s p merged Hjoined) as [Hnd Htrim].
  assert (0 ≤ N_EXAMPLES) as Hn by done.
  destruct (build_example_set_on_quota permutation sort_values Hperm Hsort merged
              N_EXAMPLES SEED Hnd Hn Htrim) as (demo_df & Hbuild & Hquota).
  destruct (build_example_set_length permutation sort_values Hperm Hsort merged
              N_EXAMPLES SEED Hnd Hn) as (demo_df' & Hbuild' & Hlen).
  rewrite Hbuild in Hbuild'. injection Hbuild' as <-.
  destruct (build_example_set_rows permutation sort_values Hperm Hsort merged demo_df
              N_EXAMPLES SEED Hnd Hn Hbuild) as [Hids Hsub].
  rewrite Z.min_l in Hlen by done.
  exists demo_df. rewrite (main_joined permutation sort_values w merged Hj).
  rewrite decide_False by lia. rewrite Hbuild, Hlen. done.
Qed.

End main.

End CuratorRunFacts.

(** *** Concrete selections *)

Lemma population_ids : NoDup (Curator.id <$> Examples.population).
Proof. compute_done. Qed.

Lemma population_trimmed e :
  e ∈ Examples.population →
  Py.strip (Curator.resident_selected_priority e) = Curator.resident_selected_priority e.
Proof.
  intros He. repeat (apply elem_of_cons in He as [->|He]; [reflexivity|]).
  by apply elem_of_nil in He.
Qed.

Lemma build_example_set_size_witness :
  Selection.shuffles Curator.rotation
  ∧ Curator.sorts Curator.merge_sort_values
  ∧ NoDup (Curator.id <$> Examples.population)
  ∧ 0 ≤ 5
  ∧ ∃ examples,
      Curator.build_example_set Curator.rotation Curator.merge_sort_values
        Examples.population 5 42 = inr examples
      ∧ Z.of_nat (length examples) = 5 `min` Z.of_nat (length Examples.population).
Proof.
  split; [exact SelectFacts.rotation_shuffles|].
  split; [exact SelectionFacts.merge_sort_values_sorts|].
  split; [exact population_ids|]. split; [lia|].
  apply (BuildFacts.build_example_set_size Curator.rotation Curator.merge_sort_values
           SelectFacts.rotation_shuffles SelectionFacts.merge_sort_values_sorts
           Examples.population 5 42 population_ids).
  lia.
Defined.

Lemma build_example_set_subset_witness :
  let examples := Examples.ticket 8 "C" "w" :: Examples.ticket 1 "A" "x"
                    :: Examples.ticket 5 "B" "z" :: Examples.ticket 3 "A" "y"
                    :: Examples.ticket 4 "B" "x" :: [] in
  Selection.shuffles Curator.rotation
  ∧ Curator.sorts Curator.merge_sort_values
  ∧ NoDup (Curator.id <$> Examples.population)
  ∧ 0 ≤ 5
  ∧ Curator.build_example_set Curator.rotation Curator.merge_sort_values
      Examples.population 5 42 = inr examples
  ∧ NoDup (Curator.id <$> examples) ∧ examples ⊆+ Examples.population.
Proof.
  intros examples.
  split; [exact SelectFacts.rotation_shuffles|].
  split; [exact SelectionFacts.merge_sort_values_sorts|].
  split; [exact population_ids|]. split; [lia|].
  split; [vm_compute; reflexivity|].
  apply (BuildFacts.build_example_set_subset Curator.rotation Curator.merge_sort_values
           SelectFacts.rotation_shuffles SelectionFacts.merge_sort_values_sorts
           Examples.population examples 5 42 population_ids);
    [lia|vm_compute; reflexivity].
Defined.

Lemma build_example_set_quotas_witness :
  Selection.shuffles Curator.rotation
  ∧ Curator.sorts Curator.merge_sort_values
  ∧ NoDup (Curator.id <$> Examples.population)
  ∧ 0 ≤ 5
  ∧ (∀ e, e ∈ Examples.population →
          Py.strip (Curator.resident_selected_priority e)
          = Curator.resident_selected_priority e)
  ∧ ∃ examples,
      Curator.build_example_set Curator.rotation Curator.merge_sort_values
        Examples.population 5 42 = inr examples
      ∧ ∀ p, Z.of_nat (length (Selection.with_priority p examples))
             = Curator.item
                 (Curator._compute_priority_targets
                    (Curator.resident_selected_priority <$> Examples.population) 5) p.
Proof.
  split; [exact SelectFacts.rotation_shuffles|].
  split; [exact SelectionFacts.merge_sort_values_sorts|].
  split; [exact population_ids|]. split; [lia|]. split; [exact population_trimmed|].
  apply (QuotaTheorems.build_example_set_quotas Curator.rotation Curator.merge_sort_values
           SelectFacts.rotation_shuffles SelectionFacts.merge_sort_values_sorts
           Examples.population 5 42 population_ids);
    [lia|exact population_trimmed].
Defined.

(** The quotas of that selection: two, two and one. *)
Example population_quotas :
  let targets := Curator._compute_priority_targets
                   (Curator.resident_selected_priority <$> Examples.population) 5 in
  Curator.item targets "A" = 2 ∧ Curator.item targets "B" = 2
  ∧ Curator.item targets "C" = 1.
Proof. split_and!; vm_compute; reflexivity. Qed.

Lemma joined_rows_witness :
  Join.sample_table CuratorExamples.few_samples = inr CuratorExamples.few_sample_rows
  ∧ Join.prediction_table CuratorExamples.few_predictions
    = inr CuratorExamples.few_prediction_rows
  ∧ ∃ merged,
      Curator.joined CuratorExamples.few_samples CuratorExamples.few_predictions
      = inr merged
      ∧ NoDup (Curator.id <$> merged)
      ∧ (∀ i, i ∈ Curator.id <$> merged
              ↔ i ∈ Join.key <$> CuratorExamples.few_sample_rows
                ∧ i ∈ Join.key <$> CuratorExamples.few_prediction_rows)
      ∧ ∀ e, e ∈ merged ↔
             ∃ sr pr,
               Join.first_for (Curator.id e) CuratorExamples.few_sample_rows = Some sr
               ∧ Join.last_for (Curator.id e) CuratorExamples.few_prediction_rows = Some pr
               ∧ e = Join.join_row sr pr.
Proof.
  split; [vm_compute; reflexivity|]. split; [vm_compute; reflexivity|].
  apply (JoinFacts.joined_rows CuratorExamples.few_samples CuratorExamples.few_predictions
           CuratorExamples.few_sample_rows CuratorExamples.few_prediction_rows);
    vm_compute; reflexivity.
Defined.

(** The join of that example: ticket 1 with its first sample row and
    its last prediction, ticket 2; ticket 3 has no prediction. *)
Example few_joined :
  Curator.joined CuratorExamples.few_samples CuratorExamples.few_predictions
  = inr [ {| Curator.id := 1; Curator.resident_selected_priority := "High";
             Curator.resident_selected_category := "Plumbing"; Curator.comment := "leak";
             Curator.ai_priority := "High"; Curator.ai_service_category := "Plumbing";
             Curator.suggested_actions := "second" |};
          {| Curator.id := 2; Curator.resident_selected_priority := "Low";
             Curator.resident_selected_category := "Plumbing"; Curator.comment := "noise";
             Curator.ai_priority := "Low"; Curator.ai_service_category := "Plumbing";
             Curator.suggested_actions := "wait" |} ].
Proof. vm_compute. reflexivity. Qed.

Lemma many_joined_population :
  Demo.joined_population CuratorExamples.many_rows = inr CuratorExamples.many_joined.
Proof. vm_compute. reflexivity. Qed.

Lemma many_joined_enough :
  Curator.N_EXAMPLES ≤ Z.of_nat (length CuratorExamples.many_joined).
Proof. vm_compute. intros H. discriminate H. Qed.

Lemma curator_main_success_witness :
  Selection.shuffles Curator.rotation
  ∧ Curator.sorts Curator.merge_sort_values
  ∧ Demo.joined_population CuratorExamples.many_rows = inr CuratorExamples.many_joined
  ∧ Curator.N_EXAMPLES ≤ Z.of_nat (length CuratorExamples.many_joined)
  ∧ ∃ demo_df,
      Curator.main Curator.rotation Curator.merge_sort_values CuratorExamples.many_rows
      = ({| Curator.SAMPLE_PATH := Curator.SAMPLE_PATH CuratorExamples.many_rows;
            Curator.PREDICTIONS_PATH := Curator.PREDICTIONS_PATH CuratorExamples.many_rows;
            Curator.OUT_PATH := Some demo_df;
            Curator.stdout := Curator.stdout CuratorExamples.many_rows ++
              [Curator.SavedDemoExamples Curator.N_EXAMPLES;
               Curator.UniqueResidentPriorities
                 (Z.of_nat (length (remove_dups
                                      (Curator.resident_selected_priority <$> demo_df))));
               Curator.UniqueResidentCategories
                 (Z.of_nat (length (remove_dups
                                      (Curator.resident_selected_category <$> demo_df))))] |},
         inr ())
      ∧ Z.of_nat (length demo_df) = Curator.N_EXAMPLES
      ∧ NoDup (Curator.id <$> demo_df)
      ∧ demo_df ⊆+ CuratorExamples.many_joined
      ∧ ∀ p, Z.of_nat (length (Selection.with_priority p demo_df))
             = Curator.item
                 (Curator._compute_priority_targets
                    (Curator.resident_selected_priority <$> CuratorExamples.many_joined)
                    Curator.N_EXAMPLES) p.
Proof.
  split; [exact SelectFacts.rotation_shuffles|].
  split; [exact SelectionFacts.merge_sort_values_sorts|].
  split; [exact many_joined_population|]. split; [exact many_joined_enough|].
  apply (CuratorRunFacts.curator_main_success Curator.rotation Curator.merge_sort_values
           SelectFacts.rotation_shuffles SelectionFacts.merge_sort_values_sorts
           CuratorExamples.many_rows CuratorExamples.many_joined
           many_joined_population many_joined_enough).
Defined.

(** The quotas of the thirty examples: ten for each of the three
    priorities. *)
Example many_quotas :
  let targets := Curator._compute_priority_targets
                   (Curator.resident_selected_priority <$> CuratorExamples.many_joined)
                   Curator.N_EXAMPLES in
  Curator.item targets "High" = 10 ∧ Curator.item targets "Low" = 10
  ∧ Curator.item targets "Medium" = 10.
Proof. split_and!; vm_compute; reflexivity. Qed.

(** ** The schema document *)

Module SchemaDocFacts.
Import Schemas SchemaDoc TextFacts.

(** *** Strings *)

Lemma startswith_spec (s pre : string) :
  startswith s pre = true ↔ ∃ rest, s = pre +:+ rest.
Proof.
  revert s. induction pre as [|a pre IH]; intros s; simpl.
  - split; [intros _; exists s; by rewrite string_app_nil_l|by destruct s].
  - destruct s as [|b s]; simpl.
    + split; [done|]. by intros (rest & ?).
    + rewrite andb_true_iff, bool_decide_eq_true, IH. split.
      * intros [-> (rest & ->)]. by exists rest.
      * intros (rest & Heq). rewrite string_app_cons in Heq.
        injection Heq as -> ->. eauto.
Qed.

Lemma endswith_spec (s suf : string) :
  endswith s suf = true ↔ ∃ pre, s = pre +:+ suf.
Proof.
  unfold endswith. rewrite startswith_spec. split.
  - intros (rest & Heq). exists (String.rev rest).
    rewrite <-(string_rev_involutive s), Heq, string_rev_app.
    by rewrite string_rev_involutive.
  - intros (pre & ->). exists (String.rev pre). apply string_rev_app.
Qed.

(** The last part of a split is where the string ends. *)
Lemma split_last (sep : Ascii.ascii) (k : string) :
  ∃ parts x pre,
    split sep k = parts ++ [x] ∧ k = pre +:+ x ∧ (parts = [] → pre = EmptyString).
Proof.
  induction k as [|c k (parts & x & pre & Hsplit & Hk & Hpre)].
  - by exists [], EmptyString, EmptyString.
  - simpl. rewrite Hsplit. case_decide.
    + exists (EmptyString :: parts), x, (String c pre).
      split; [done|]. split; [by rewrite string_app_cons, <-Hk|done].
    + destruct parts as [|p ps]; simpl.
      * exists [], (String c x), EmptyString.
        split; [done|]. split; [|done]. rewrite Hk, Hpre by done. done.
      * exists (String c p :: ps), x, (String c pre).
        split; [done|]. split; [by rewrite string_app_cons, <-Hk|done].
Qed.

Lemma split_last_endswith (sep : Ascii.ascii) (k x : string) :
  last (split sep k) = Some x → endswith k x = true.
Proof.
  destruct (split_last sep k) as (parts & x' & pre & -> & Hk & _).
  rewrite last_snoc. intros [= ->]. apply endswith_spec. eauto.
Qed.

(** The first test of the loop is implied by the second. *)
Lemma names_labeled_request_endswith (k : string) :
  names_labeled_request k ↔ endswith k "LabeledRequest" = true.
Proof.
  unfold names_labeled_request. split; [|by right].
  intros [?|?]; [by eapply split_last_endswith|done].
Qed.

(** *** Dictionaries *)

Lemma get_elem_of k (d : dict) v : get k d = Some v → (k, v) ∈ d.
Proof.
  unfold get. destruct (head _) as [[k' v']|] eqn:Hh; [|done]. simpl. intros [= ->].
  apply head_Some_elem_of, list_elem_of_filter in Hh as [Hk ?]. simpl in Hk. by subst.
Qed.

Lemma get_is_Some k (d : dict) : k ∈ d.*1 ↔ is_Some (get k d).
Proof.
  unfold get. split.
  - intros ([k' v] & -> & Hin)%list_elem_of_fmap.
    assert ((k', v) ∈ filter (λ kv : string * json, kv.1 = (k', v).1) d) as Hf
      by (by apply list_elem_of_filter).
    destruct (filter _ d) as [|kv l]; [by apply elem_of_nil in Hf|]. by eexists.
  - intros [v Hv]. apply list_elem_of_fmap. exists (k, v). split; [done|].
    by apply get_elem_of.
Qed.

Lemma get_set_eq k v (d : dict) : get k (set k v d) = Some v.
Proof.
  unfold get, set. case_decide as Hk.
  - induction d as [|[k' v'] d IH]; [by apply elem_of_nil in Hk|].
    rewrite fmap_cons. simpl. destruct (decide (k' = k)) as [->|Hne].
    + by rewrite filter_cons_True.
    + rewrite filter_cons_False by done. apply IH.
      rewrite fmap_cons in Hk. apply elem_of_cons in Hk as [?|?]; [by subst|done].
  - rewrite filter_app, filter_none, filter_cons_True by done || (intros [k' v'] Hin Heq;
      apply Hk; simpl in Heq; subst; by apply (list_elem_of_fmap_2 fst _ (k, v'))).
    done.
Qed.

Lemma get_set_ne k k' v (d : dict) : k' ≠ k → get k' (set k v d) = get k' d.
Proof.
  intros Hne. unfold get, set. case_decide as Hk.
  - f_equal. f_equal. clear Hk. induction d as [|[k0 v0] d IH]; [done|].
    rewrite fmap_cons. simpl. destruct (decide (k0 = k)) as [->|Hne0].
    + rewrite !filter_cons_False by (simpl; congruence). apply IH.
    + destruct (decide (k0 = k')) as [->|Hne'].
      * rewrite !filter_cons_True by done. by rewrite IH.
      * rewrite !filter_cons_False by done. apply IH.
  - rewrite filter_app. rewrite (filter_cons_False _ (k, v)) by (simpl; congruence).
    by rewrite filter_nil, app_nil_r.
Qed.

(** *** Paths *)

Lemma parts_from_cons x (p q : list string) :
  parts_from (x :: p) (x :: q) → parts_from p q.
Proof.
  intros (i & a & b & Hp & Hq & Hne). destruct i as [|i]; simpl in *.
  - congruence.
  - by exists i, a, b.
Qed.

Lemma parts_from_head x y (p q : list string) : x ≠ y → parts_from (x :: p) (y :: q).
Proof. intros Hne. by exists 0%nat, x, y. Qed.

Lemma parts_from_nil (q : list string) : ¬ parts_from [] q.
Proof. by intros (i & a & b & Hp & _). Qed.

Lemma at_path_set_eq k v (d : dict) p :
  at_path (k :: p) (JObj (set k v d)) = at_path p v.
Proof. simpl. by rewrite get_set_eq. Qed.

Lemma at_path_set_ne k k' v (d : dict) p :
  k' ≠ k → at_path (k' :: p) (JObj (set k v d)) = at_path (k' :: p) (JObj d).
Proof. intros Hne. simpl. by rewrite get_set_ne. Qed.

(** Replacing the value of a key by one that reads the same away from
    some paths gives a dictionary that reads the same away from those
    paths below the key. *)
Lemma frame_step k v v0 (d : dict) (Q : list (list string)) :
  Q ≠ [] →
  get k d = Some v0 →
  (∀ p, (∀ q, q ∈ Q → parts_from p q) → at_path p v = at_path p v0) →
  ∀ p, (∀ q, q ∈ Q → parts_from p (k :: q)) →
       at_path p (JObj (set k v d)) = at_path p (JObj d).
Proof.
  intros HQ Hk Hin p Hp. destruct Q as [|q0 Q]; [done|].
  destruct p as [|x p].
  { exfalso. apply (parts_from_nil (k :: q0)). apply Hp. left. }
  destruct (decide (x = k)) as [->|Hne].
  - rewrite at_path_set_eq. simpl. rewrite Hk. simpl. apply Hin.
    intros q Hq. by apply (parts_from_cons k), Hp.
  - by apply at_path_set_ne.
Qed.

(** Writing a key leaves what is read away from it as it was. *)
Lemma frame_leaf k v (d : dict) p :
  parts_from p [k] → at_path p (JObj (set k v d)) = at_path p (JObj d).
Proof.
  intros (i & a & b & Hp & Hq & Hne). destruct i as [|i]; [|done].
  destruct p as [|x p]; [done|]. simpl in *. simplify_eq.
  by rewrite get_set_ne.
Qed.

End SchemaDocFacts.

Module SchemaTheorems.
Import Schemas SchemaDoc TextFacts SchemaDocFacts.

Lemma find_spec (d : dict) :
  match _find_labeled_request_def_key (JObj d) with
  | inr k =>
      k ∈ d.*1
      ∧ endswith k "LabeledRequest" = true
      ∧ ("LabeledRequest" ∈ d.*1 → k = "LabeledRequest")
      ∧ ∃ i : nat, d.*1 !! i = Some k
          ∧ ("LabeledRequest" ∉ d.*1 →
             ∀ (j : nat) k', (j < i)%nat → d.*1 !! j = Some k' →
                             endswith k' "LabeledRequest" = false)
  | inl e =>
      e = KeyError not_found
      ∧ ∀ k, k ∈ d.*1 → endswith k "LabeledRequest" = false
  end.
Proof.
  unfold _find_labeled_request_def_key.
  destruct (decide ("LabeledRequest" ∈ d.*1)) as [Hin|Hnot].
  - split; [done|]. split; [by vm_compute|]. split; [done|].
    destruct (proj1 (list_elem_of_lookup _ _) Hin) as [i Hi]. exists i.
    split; [done|]. by intros Hnot.
  - destruct (list_find names_labeled_request d.*1) as [[i k]|] eqn:Hfind.
    + apply list_find_Some in Hfind as (Hi & Hk & Hbefore).
      split; [by eapply list_elem_of_lookup_2|].
      split; [by apply names_labeled_request_endswith|]. split; [done|].
      exists i. split; [done|]. intros _ j k' Hj Hk'.
      specialize (Hbefore j k' Hk' Hj). rewrite names_labeled_request_endswith in Hbefore.
      by destruct (endswith k' "LabeledRequest").
    + split; [done|]. intros k Hk.
      apply list_find_None in Hfind. rewrite Forall_forall in Hfind.
      specialize (Hfind k Hk). rewrite names_labeled_request_endswith in Hfind.
      by destruct (endswith k "LabeledRequest").
Qed.

(** X20. On a dictionary of definitions,
    [_find_labeled_request_def_key] returns the key ["LabeledRequest"]
    when it is there, and otherwise the first key, in the order of
    the dictionary, that ends with ["LabeledRequest"]; it raises
    [KeyError] exactly when no key ends with ["LabeledRequest"]. The
    test on the last dotted component never decides: a key that passes
    it ends with ["LabeledRequest"]. *)
Theorem find_labeled_request_def_key_spec (d : dict) :
  match _find_labeled_request_def_key (JObj d) with
  | inr k =>
      k ∈ d.*1
      ∧ endswith k "LabeledRequest" = true
      ∧ ("LabeledRequest" ∈ d.*1 → k = "LabeledRequest")
      ∧ ∃ i : nat, d.*1 !! i = Some k
          ∧ ("LabeledRequest" ∉ d.*1 →
             ∀ (j : nat) k', (j < i)%nat → d.*1 !! j = Some k' →
                             endswith k' "LabeledRequest" = false)
  | inl e =>
      e = KeyError not_found
      ∧ ∀ k, k ∈ d.*1 → endswith k "LabeledRequest" = false
  end.
Proof. apply find_spec. Qed.

(** *** [make_response_schema] *)

Lemma inject_spec field name value props props' :
  inject field name value props = inr props' →
  ∃ pm fm, props = JObj pm ∧ get field pm = Some (JObj fm)
           ∧ props' = JObj (set field (JObj (set name value fm)) pm).
Proof.
  unfold inject, getitem, setitem. destruct props as [| | | | |pm]; try done.
  destruct (get field pm) as [entry|] eqn:Hf; [|done].
  destruct entry as [| | | | |fm]; try done. intros [= <-]. eauto.
Qed.

Lemma inject_read field name value props props' :
  inject field name value props = inr props' →
  at_path [field; name] props' = Some value.
Proof.
  intros (pm & fm & -> & Hf & ->)%inject_spec.
  rewrite at_path_set_eq. simpl. by rewrite get_set_eq.
Qed.

Lemma inject_frame field name value props props' p :
  inject field name value props = inr props' →
  parts_from p [field; name] →
  at_path p props' = at_path p props.
Proof.
  intros (pm & fm & -> & Hf & ->)%inject_spec Hp.
  apply (frame_step field _ (JObj fm) pm [[name]]); [done|done| |].
  - intros p' Hp'. apply frame_leaf, Hp'. left.
  - intros q ->%list_elem_of_singleton. done.
Qed.

(** The container [_get_defs_container] returns is in the document,
    under [container_key], whenever a key can be found in it. *)
Lemma container_in_document (schema : dict) k :
  _find_labeled_request_def_key (_get_defs_container schema) = inr k →
  get (container_key schema) schema = Some (_get_defs_container schema).
Proof.
  unfold _get_defs_container, container_key.
  destruct (get "$defs" schema) as [v|] eqn:H1.
  - destruct (truthy v); [done|].
    destruct (get "definitions" schema) as [v'|] eqn:H2; [|done].
    destruct (truthy v'); [done|]. done.
  - destruct (get "definitions" schema) as [v'|] eqn:H2; [|done].
    destruct (truthy v'); [done|]. done.
Qed.

Section schema.
Variable model_json_schema : dict.

(** What a call that returns has done. *)
Lemma make_response_schema_spec allowed_priorities allowed_categories schema' :
  make_response_schema model_json_schema allowed_priorities allowed_categories
  = inr schema' →
  ∃ def_key d members props props1 props2 props3,
    _find_labeled_request_def_key (JObj d) = inr def_key
    ∧ get (container_key model_json_schema) model_json_schema = Some (JObj d)
    ∧ get def_key d = Some (JObj members)
    ∧ get "properties" members = Some props
    ∧ inject "Priority" "enum" (JArr (JStr <$> allowed_priorities)) props = inr props1
    ∧ inject "Service_Category" "enum" (JArr (JStr <$> allowed_categories)) props1
      = inr props2
    ∧ inject "Suggested_Actions" "maxLength" (JNum 140) props2 = inr props3
    ∧ schema'
      = JObj (set (container_key model_json_schema)
                (JObj (set def_key (JObj (set "properties" props3 members)) d))
                model_json_schema).
Proof.
  unfold make_response_schema. cbv zeta.
  destruct (_find_labeled_request_def_key _) as [|def_key] eqn:Hfind; [done|].
  pose proof (container_in_document model_json_schema def_key Hfind) as Hc.
  destruct (getitem _ def_key) as [|labeled] eqn:Hget; [done|].
  destruct labeled as [| | | | |members]; try done.
  destruct (get "properties" members) as [props|] eqn:Hprops; [|done].
  destruct (negb (truthy props)); [done|].
  destruct (inject "Priority" _ _ props) as [|props1] eqn:H1; [done|].
  destruct (inject "Service_Category" _ _ props1) as [|props2] eqn:H2; [done|].
  destruct (inject "Suggested_Actions" _ _ props2) as [|props3] eqn:H3; [done|].
  destruct (_get_defs_container model_json_schema) as [| | | | |d]; try done.
  intros [= <-]. exists def_key, d, members, props, props1, props2, props3.
  split_and!; try done.
  unfold getitem in Hget. by destruct (get def_key d) as [v|]; simplify_eq.
Qed.

(** X21. When [make_response_schema]
    returns, the document it returns reads, below the properties of
    the [LabeledRequest] definition, the allowed priorities as the
    [enum] of [Priority], the allowed categories as the [enum] of
    [Service_Category] and 140 as the [maxLength] of
    [Suggested_Actions] (the same lists and bound as in the record
    [Schemas.make_response_schema] builds), and reads as pydantic's
    document does on every path that parts from these three: nothing
    else is added, dropped or changed. *)
Theorem make_response_schema_injects allowed_priorities allowed_categories schema' :
  make_response_schema model_json_schema allowed_priorities allowed_categories
  = inr schema' →
  let built := Schemas.make_response_schema allowed_priorities allowed_categories in
  ∃ def_key,
    _find_labeled_request_def_key (_get_defs_container model_json_schema) = inr def_key
    ∧ let properties := [container_key model_json_schema; def_key; "properties"] in
      at_path (properties ++ ["Priority"; "enum"]) schema'
      = Some (JArr (JStr <$> enum_Priority built))
      ∧ at_path (properties ++ ["Service_Category"; "enum"]) schema'
        = Some (JArr (JStr <$> enum_Service_Category built))
      ∧ at_path (properties ++ ["Suggested_Actions"; "maxLength"]) schema'
        = Some (JNum (maxLength_Suggested_Actions built))
      ∧ ∀ path,
          (∀ leaf, leaf ∈ injected → parts_from path (properties ++ leaf)) →
          at_path path schema' = at_path path (JObj model_json_schema).
Proof.
  intros Hrun built.
  destruct (make_response_schema_spec _ _ _ Hrun)
    as (def_key & d & members & props & props1 & props2 & props3
        & Hfind & Hc & Hdef & Hprops & H1 & H2 & H3 & ->).
  assert (_get_defs_container model_json_schema = JObj d) as Hd.
  { unfold make_response_schema in Hrun. cbv zeta in Hrun.
    destruct (_find_labeled_request_def_key (_get_defs_container _))
      as [|k] eqn:Hfind'; [done|].
    pose proof (container_in_document model_json_schema k Hfind') as Hc'.
    rewrite Hc in Hc'. by injection Hc' as <-. }
  exists def_key. rewrite Hd. split; [done|]. cbv zeta. simpl app.
  assert (at_path ["Priority"; "enum"] props3
          = Some (JArr (JStr <$> allowed_priorities))) as R1.
  { rewrite (inject_frame _ _ _ _ _ _ H3) by (by apply parts_from_head).
    rewrite (inject_frame _ _ _ _ _ _ H2) by (by apply parts_from_head).
    by apply (inject_read _ _ _ _ _ H1). }
  assert (at_path ["Service_Category"; "enum"] props3
          = Some (JArr (JStr <$> allowed_categories))) as R2.
  { rewrite (inject_frame _ _ _ _ _ _ H3) by (by apply parts_from_head).
    by apply (inject_read _ _ _ _ _ H2). }
  assert (at_path ["Suggested_Actions"; "maxLength"] props3 = Some (JNum 140)) as R3
    by (by apply (inject_read _ _ _ _ _ H3)).
  split_and!.
  - by rewrite !at_path_set_eq.
  - by rewrite !at_path_set_eq.
  - by rewrite !at_path_set_eq.
  - intros path Hpath.
    apply (frame_step _ _ (JObj d) model_json_schema
             ((λ leaf, def_key :: "properties" :: leaf) <$> injected));
      [done|done| |].
    + intros p1 Hp1.
      apply (frame_step _ _ (JObj members) d
               ((λ leaf, "properties" :: leaf) <$> injected)); [done|done| |].
      * intros p2 Hp2.
        apply (frame_step _ _ props members injected); [done|done| |];
          [|intros q Hq; apply Hp2, list_elem_of_fmap; eauto].
        intros p3 Hp3.
        rewrite (inject_frame _ _ _ _ _ _ H3)
          by (apply Hp3; unfold injected; set_solver).
        rewrite (inject_frame _ _ _ _ _ _ H2)
          by (apply Hp3; unfold injected; set_solver).
        apply (inject_frame _ _ _ _ _ _ H1). apply Hp3. unfold injected. set_solver.
      * intros q (leaf & -> & Hleaf)%list_elem_of_fmap. apply Hp1.
        apply list_elem_of_fmap. eauto.
    + intros q (leaf & -> & Hleaf)%list_elem_of_fmap. by apply Hpath.
Qed.

(** X22. [make_response_schema] returns,
    with no exception, whenever pydantic's document holds under
    ["$defs"] a dictionary with a key ending in ["LabeledRequest"]
    whose definition has, under ["properties"], dictionaries for
    [Priority], [Service_Category] and [Suggested_Actions]. *)
Theorem make_response_schema_returns allowed_priorities allowed_categories
    d def_key members pm :
  get "$defs" model_json_schema = Some (JObj d) →
  _find_labeled_request_def_key (JObj d) = inr def_key →
  get def_key d = Some (JObj members) →
  get "properties" members = Some (JObj pm) →
  (∀ f, f ∈ ["Priority"; "Service_Category"; "Suggested_Actions"] →
        ∃ fm, get f pm = Some (JObj fm)) →
  ∃ schema',
    make_response_schema model_json_schema allowed_priorities allowed_categories
    = inr schema'.
Proof.
  intros Hd Hfind Hdef Hprops Hfields.
  assert (_get_defs_container model_json_schema = JObj d) as Hcontainer.
  { unfold _get_defs_container. rewrite Hd.
    destruct d as [|kv d]; [|done]. simpl in Hfind. done. }
  unfold make_response_schema. cbv zeta.
  rewrite Hcontainer, Hfind. unfold getitem at 1.
  rewrite Hdef, Hprops.
  assert (pm ≠ []) as Hpm.
  { intros ->. destruct (Hfields "Priority") as [fm Hfm]; [set_solver|]. done. }
  assert (truthy (JObj pm) = true) as -> by (by apply bool_decide_eq_true).
  simpl negb. cbv iota.
  destruct (Hfields "Priority") as [fm1 Hf1]; [set_solver|].
  destruct (Hfields "Service_Category") as [fm2 Hf2]; [set_solver|].
  destruct (Hfields "Suggested_Actions") as [fm3 Hf3]; [set_solver|].
  unfold inject at 1. unfold getitem at 1. rewrite Hf1. simpl setitem.
  cbv iota beta.
  unfold inject at 1. unfold getitem at 1.
  rewrite get_set_ne by done. rewrite Hf2. simpl setitem. cbv iota beta.
  unfold inject at 1. unfold getitem at 1.
  rewrite !get_set_ne by done. rewrite Hf3. simpl setitem. cbv iota beta.
  by eexists.
Qed.

(** X23. The two [KeyError]s of
    [make_response_schema], on a document whose definitions are a
    dictionary: when no key of the definitions ends with
    ["LabeledRequest"] (as when the document has no definitions at
    all), the error says that [LabeledRequest] could not be found;
    when the key is found and its definition is a dictionary with no
    properties, or with properties that are empty, the error names
    the key. *)
Theorem make_response_schema_raises allowed_priorities allowed_categories d :
  _get_defs_container model_json_schema = JObj d →
  match _find_labeled_request_def_key (JObj d) with
  | inl _ =>
      (∀ k, k ∈ d.*1 → endswith k "LabeledRequest" = false)
      ∧ make_response_schema model_json_schema allowed_priorities allowed_categories
        = inl (KeyError not_found)
  | inr def_key =>
      ∀ members,
        get def_key d = Some (JObj members) →
        match get "properties" members with
        | None => True
        | Some props => truthy props = false
        end →
        make_response_schema model_json_schema allowed_priorities allowed_categories
        = inl (KeyError (no_properties def_key))
  end.
Proof.
  intros Hd. pose proof (find_spec d) as Hspec.
  destruct (_find_labeled_request_def_key (JObj d)) as [e|def_key] eqn:Hfind.
  - destruct Hspec as [-> Hnone]. split; [done|].
    unfold make_response_schema. cbv zeta. by rewrite Hd, Hfind.
  - intros members Hdef Hprops.
    unfold make_response_schema. cbv zeta. rewrite Hd, Hfind. unfold getitem.
    rewrite Hdef. destruct (get "properties" members) as [props|]; [|done].
    by rewrite Hprops.
Qed.

End schema.

End SchemaTheorems.

Lemma make_response_schema_injects_witness :
  let schema' :=
    match SchemaDoc.make_response_schema SchemaDoc.batch_response_schema
            ["High"; "Low"] ["Plumbing"] with
    | inr schema' => schema'
    | inl _ => Schemas.JNull
    end in
  SchemaDoc.make_response_schema SchemaDoc.batch_response_schema ["High"; "Low"] ["Plumbing"]
  = inr schema'
  ∧ let built := Schemas.make_response_schema ["High"; "Low"] ["Plumbing"] in
    ∃ def_key,
      SchemaDoc._find_labeled_request_def_key
        (SchemaDoc._get_defs_container SchemaDoc.batch_response_schema) = inr def_key
      ∧ let properties :=
          [SchemaDoc.container_key SchemaDoc.batch_response_schema; def_key; "properties"] in
        SchemaDoc.at_path (properties ++ ["Priority"; "enum"]) schema'
        = Some (Schemas.JArr (Schemas.JStr <$> Schemas.enum_Priority built))
        ∧ SchemaDoc.at_path (properties ++ ["Service_Category"; "enum"]) schema'
          = Some (Schemas.JArr (Schemas.JStr <$> Schemas.enum_Service_Category built))
        ∧ SchemaDoc.at_path (properties ++ ["Suggested_Actions"; "maxLength"]) schema'
          = Some (Schemas.JNum (Schemas.maxLength_Suggested_Actions built))
        ∧ ∀ path,
            (∀ leaf, leaf ∈ SchemaDoc.injected →
                     SchemaDoc.parts_from path (properties ++ leaf)) →
            SchemaDoc.at_path path schema'
            = SchemaDoc.at_path path (Schemas.JObj SchemaDoc.batch_response_schema).
Proof.
  intros schema'. split; [vm_compute; reflexivity|].
  apply (SchemaTheorems.make_response_schema_injects SchemaDoc.batch_response_schema
           ["High"; "Low"] ["Plumbing"] schema').
  vm_compute. reflexivity.
Defined.

(** The definition of [Priority] in that document, after the call. *)
Example injected_priority :
  match SchemaDoc.make_response_schema SchemaDoc.batch_response_schema
          ["High"; "Low"] ["Plumbing"] with
  | inr schema' =>
      SchemaDoc.at_path ["$defs"; "LabeledRequest"; "properties"; "Priority"] schema'
  | inl _ => None
  end
  = Some (Schemas.JObj [("description", Schemas.JStr "One of the allowed Priority labels.");
                        ("title", Schemas.JStr "Priority");
                        ("type", Schemas.JStr "string");
                        ("enum", Schemas.JArr [Schemas.JStr "High"; Schemas.JStr "Low"])]).
Proof. vm_compute. reflexivity. Qed.

Lemma make_response_schema_returns_witness :
  let definition :=
    match SchemaDoc.at_path ["$defs"; "LabeledRequest"]
            (Schemas.JObj SchemaDoc.batch_response_schema) with
    | Some (Schemas.JObj members) => members
    | _ => []
    end in
  let definitions :=
    match SchemaDoc.get "$defs" SchemaDoc.batch_response_schema with
    | Some (Schemas.JObj d) => d
    | _ => []
    end in
  let properties :=
    match SchemaDoc.get "properties" definition with
    | Some (Schemas.JObj pm) => pm
    | _ => []
    end in
  SchemaDoc.get "$defs" SchemaDoc.batch_response_schema = Some (Schemas.JObj definitions)
  ∧ SchemaDoc._find_labeled_request_def_key (Schemas.JObj definitions)
    = inr "LabeledRequest"
  ∧ SchemaDoc.get "LabeledRequest" definitions = Some (Schemas.JObj definition)
  ∧ SchemaDoc.get "properties" definition = Some (Schemas.JObj properties)
  ∧ (∀ f, f ∈ ["Priority"; "Service_Category"; "Suggested_Actions"] →
          ∃ fm, SchemaDoc.get f properties = Some (Schemas.JObj fm))
  ∧ ∃ schema',
      SchemaDoc.make_response_schema SchemaDoc.batch_response_schema
        ["High"; "Low"] ["Plumbing"] = inr schema'.
Proof.
  intros definition definitions properties.
  assert (∀ f, f ∈ ["Priority"; "Service_Category"; "Suggested_Actions"] →
               ∃ fm, SchemaDoc.get f properties = Some (Schemas.JObj fm)) as Hfields.
  { intros f Hf. repeat (apply elem_of_cons in Hf as [->|Hf]; [by eexists|]).
    by apply elem_of_nil in Hf. }
  split; [reflexivity|]. split; [reflexivity|]. split; [reflexivity|].
  split; [reflexivity|]. split; [exact Hfields|].
  apply (SchemaTheorems.make_response_schema_returns SchemaDoc.batch_response_schema
           ["High"; "Low"] ["Plumbing"] definitions "LabeledRequest" definition properties);
    [reflexivity|reflexivity|reflexivity|reflexivity|exact Hfields].
Defined.

Lemma make_response_schema_raises_witness :
  let bare : SchemaDoc.dict :=
    [("title", Schemas.JStr "BatchResponse"); ("type", Schemas.JStr "object")] in
  SchemaDoc._get_defs_container bare = Schemas.JObj []
  ∧ match SchemaDoc._find_labeled_request_def_key (Schemas.JObj []) with
    | inl _ =>
        (∀ k, k ∈ ([] : SchemaDoc.dict).*1 → SchemaDoc.endswith k "LabeledRequest" = false)
        ∧ SchemaDoc.make_response_schema bare ["High"; "Low"] ["Plumbing"]
          = inl (SchemaDoc.KeyError SchemaDoc.not_found)
    | inr def_key =>
        ∀ members,
          SchemaDoc.get def_key [] = Some (Schemas.JObj members) →
          match SchemaDoc.get "properties" members with
          | None => True
          | Some props => SchemaDoc.truthy props = false
          end →
          SchemaDoc.make_response_schema bare ["High"; "Low"] ["Plumbing"]
          = inl (SchemaDoc.KeyError (SchemaDoc.no_properties def_key))
    end.
Proof.
  intros bare. split; [reflexivity|].
  apply (SchemaTheorems.make_response_schema_raises bare ["High"; "Low"] ["Plumbing"] []).
  reflexivity.
Defined.

(** ** The app: the submit button *)

Module AppFacts.
Import App Text TextFacts.

Lemma snoc_nonempty (w : string) c : w +:+ String c EmptyString ≠ EmptyString.
Proof. by destruct w. Qed.

Lemma split_from_nonempty (word s : string) :
  Forall (λ w, w ≠ EmptyString) (split_from word s).
Proof.
  revert word. induction s as [|c s IH]; intros word; simpl.
  - case_decide; [done|]. by apply Forall_singleton.
  - destruct (Py.isspace c); [|apply IH].
    case_decide; [apply IH|]. apply Forall_cons. split; [done|apply IH].
Qed.

Lemma split_from_nil (word s : string) :
  split_from word s = [] ↔ word = EmptyString ∧ all_space s.
Proof.
  revert word. induction s as [|c s IH]; intros word; simpl.
  - case_decide; naive_solver.
  - destruct (Py.isspace c) eqn:Hc.
    + case_decide as Hw; [rewrite IH; naive_solver|]. naive_solver.
    + rewrite IH. pose proof (snoc_nonempty word c). naive_solver.
Qed.

Lemma trimmed_all_space (t : string) : trimmed t → all_space t → t = EmptyString.
Proof. destruct t as [|c t]; [done|]. intros [Hc _] [Hc' _]. simpl in Hc. congruence. Qed.

Lemma strip_blank (s : string) : Py.strip s = EmptyString ↔ all_space s.
Proof.
  destruct (strip_split s) as (l & r & Hs & Hl & Hr). split.
  - intros Hstrip. rewrite Hs, Hstrip, string_app_nil_l. by apply all_space_app.
  - intros Hsp. apply trimmed_all_space; [apply strip_trimmed|].
    rewrite Hs in Hsp. apply all_space_app in Hsp as [_ Hsp].
    by apply all_space_app in Hsp as [Hsp _].
Qed.

(** The filter of [word_count] drops nothing. *)
Lemma word_count_split (s : string) :
  word_count (Some s) = Z.of_nat (length (split (Py.strip s))).
Proof.
  unfold word_count. simpl. f_equal. f_equal. apply filter_all.
  apply Forall_forall, split_from_nonempty.
Qed.

Lemma word_count_blank (s : string) :
  word_count (Some s) = 0 ↔ Py.strip s = EmptyString.
Proof.
  rewrite word_count_split. unfold split. split.
  - intros Hlen.
    assert (split_from EmptyString (Py.strip s) = []) as Hnil
      by (apply length_zero_iff_nil; lia).
    apply split_from_nil in Hnil as [_ Hsp].
    apply trimmed_all_space; [apply strip_trimmed|done].
  - by intros ->.
Qed.

(** X24. The submit button is enabled exactly when
    the comment has between 1 and 100 words and what the mode needs is
    there (the client for a typed request, the cached examples for an
    example): the test for a blank comment is the test for a comment of
    no word. *)
Theorem can_submit_words (m : mode) (comment_text : string) (client demo_by_id : bool) :
  can_submit m comment_text client demo_by_id = true
  ↔ 1 ≤ word_count (Some comment_text) ≤ 100
    ∧ match m with
      | MODE_TYPED => client = true
      | MODE_EXAMPLES => demo_by_id = true
      end.
Proof.
  pose proof (word_count_blank comment_text) as Hblank.
  assert (0 ≤ word_count (Some comment_text)) as Hnn by (unfold word_count; lia).
  assert (bool_decide (Py.strip comment_text ≠ EmptyString)
          && bool_decide (word_count (Some comment_text) ≤ 100) = true
          ↔ 1 ≤ word_count (Some comment_text) ≤ 100) as Htest.
  { rewrite andb_true_iff, !bool_decide_eq_true. split.
    - intros [Hne Hle]. split; [|done].
      destruct (decide (word_count (Some comment_text) = 0)) as [H0|H0]; [|lia].
      by apply Hblank in H0.
    - intros [Hge Hle]. split; [|done]. intros Hstrip%Hblank. lia. }
  unfold can_submit. cbv zeta. destruct m; rewrite andb_true_iff, Htest; done.
Qed.

End AppFacts.

Example can_submit_example :
  App.word_count (Some "  the  tap is leaking ") = 4
  ∧ App.word_count None = 0
  ∧ App.can_submit App.MODE_TYPED "  the  tap is leaking " true false = true
  ∧ App.can_submit App.MODE_TYPED "   " true true = false
  ∧ App.can_submit App.MODE_EXAMPLES "the tap is leaking" true false = false.
Proof. by vm_compute. Qed.
